(** * BusTub storage core: a shallow embedding

    The replacer ([src/buffer/lru_k_replacer.cpp]), the buffer pool manager
    ([src/buffer/buffer_pool_manager.cpp]), the B+Tree leaf page
    ([src/storage/page/b_plus_tree_leaf_page.cpp]), the leaf level of
    [BPlusTree::Insert], the index iterator and the admission part of the
    lock manager ([src/concurrency/lock_manager.cpp]) with its waits-for
    graph, the B+Tree internal page
    ([src/storage/page/b_plus_tree_internal_page.cpp]), the page guards
    ([src/storage/page/page_guard.cpp]) and the copy-on-write trie
    ([src/primer/trie.cpp]) as Rocq functions, followed by the properties
    checked against them.

    Conventions.  C++ [int], [frame_id_t], [page_id_t] and [txn_id_t] values
    are [Z]; [size_t] counters are [Z] with the wrap-around modulo [2^64]
    written out, and so are the 32-bit frame ids the pool's constructor
    stores and the page id counter.  [std::unordered_map] is [gmap]; [std::list] is [list].  A
    call that the C++ program cannot finish (failed [BUSTUB_ENSURE], null
    dereference, use of an end iterator) is a [Fail] result. *)

From Stdlib Require Import ZArith List Bool Lia.
From stdpp Require Import base option list gmap sorting.

Local Open Scope Z_scope.

(** ** Results of calls that may not return normally *)

Inductive Fault : Type :=
| AssertionViolation   (* a failed BUSTUB_ENSURE / assert *)
| NullDereference      (* use of a null pointer or of an absent map entry *)
| EndIterator          (* erase through an end() iterator *)
| OutOfBounds          (* pages_[i] outside the pool *)
| Uninitialized        (* use of a variable that was never assigned *)
| Blocked              (* a latch that cannot be taken in a sequential run *)
| OutOfMemory.         (* Exception(ExceptionType::OUT_OF_MEMORY, ...) *)

Inductive Res (A : Type) : Type :=
| Ok (a : A)
| Fail (f : Fault).
Arguments Ok {A} a.
Arguments Fail {A} f.

Definition bind {A B} (r : Res A) (k : A -> Res B) : Res B :=
  match r with
  | Ok a => k a
  | Fail f => Fail f
  end.

#[global] Instance Res_bind : MBind Res := fun A B k r => bind r k.
#[global] Instance Res_ret : MRet Res := fun A a => Ok a.

Definition size_t_max : Z := 2 ^ 64.
Definition size_t_wrap (z : Z) : Z := z mod size_t_max.

(** A value stored in a 32-bit [int] ([static_cast<int>], the counter behind
    [AllocatePage]): two's complement wrap-around. *)
Definition int32_wrap (z : Z) : Z := (z + 2 ^ 31) mod 2 ^ 32 - 2 ^ 31.

Definition INVALID_PAGE_ID : Z := -1.
Definition INVALID_TXN_ID : Z := -1.

(** ** LRU-K replacer *)

Module LRUKReplacer.

(** Modelled from the spec: [LRUKNode] is declared in
    [buffer/lru_k_replacer.h], which is not among the sources.  The spec
    describes it as a per-frame access history kept as a bounded deque of
    timestamps of capacity K plus an evictable flag; the comment in
    [RecordAccess] says that [BackK] is 0 while the frame has fewer than K
    accesses.  The flag of a fresh node is false. *)
Record LRUKNode : Type := mkNode {
  history_ : list Z;          (* most recent first, at most k_ entries *)
  node_k_ : Z;
  fid_ : Z;
  is_evictable_ : bool
}.

Definition NewNode (k fid : Z) : LRUKNode :=
  {| history_ := []; node_k_ := k; fid_ := fid; is_evictable_ := false |}.

Definition PushFront (ts : Z) (n : LRUKNode) : LRUKNode :=
  {| history_ := take (Z.to_nat (node_k_ n)) (ts :: history_ n);
     node_k_ := node_k_ n; fid_ := fid_ n; is_evictable_ := is_evictable_ n |}.

Definition BackK (n : LRUKNode) : Z :=
  if Z.of_nat (length (history_ n)) =? node_k_ n
  then List.last (history_ n) 0
  else 0.

Definition GetEvictable (n : LRUKNode) : bool := is_evictable_ n.

Definition SetEvictableNode (b : bool) (n : LRUKNode) : LRUKNode :=
  {| history_ := history_ n; node_k_ := node_k_ n; fid_ := fid_ n;
     is_evictable_ := b |}.

(** The replacer.  [temp_pool_map_] and [cache_pool_map_] map a frame to its
    list iterator; what the code asks of them is membership and the position
    to erase, so they are the sets of their keys and erasing through the
    stored iterator removes the frame's entry from the list. *)
Record t : Type := mk {
  node_store_ : gmap Z LRUKNode;
  current_timestamp_ : Z;
  evictable_size_ : Z;
  replacer_size_ : Z;
  k_ : Z;
  temp_pool_ : list Z;
  temp_pool_map_ : gset Z;
  cache_pool_ : list (Z * Z);
  cache_pool_map_ : gset Z
}.

Definition init (num_frames k : Z) : t :=
  {| node_store_ := ∅; current_timestamp_ := 0; evictable_size_ := 0;
     replacer_size_ := num_frames; k_ := k;
     temp_pool_ := []; temp_pool_map_ := ∅;
     cache_pool_ := []; cache_pool_map_ := ∅ |}.

Fixpoint erase_frame (f : Z) (l : list Z) : list Z :=
  match l with
  | [] => []
  | x :: l' => if x =? f then l' else x :: erase_frame f l'
  end.

Fixpoint erase_pair (f : Z) (l : list (Z * Z)) : list (Z * Z) :=
  match l with
  | [] => []
  | x :: l' => if fst x =? f then l' else x :: erase_pair f l'
  end.

(** [std::upper_bound] with the comparison [a.second < b.second]: the first
    position whose K-th timestamp is greater than the new one. *)
Fixpoint insert_upper_bound (p : Z * Z) (l : list (Z * Z)) : list (Z * Z) :=
  match l with
  | [] => [p]
  | x :: l' => if snd p <? snd x then p :: x :: l'
               else x :: insert_upper_bound p l'
  end.

(** The first frame of a scan order whose node is evictable; a frame of the
    pool without a node makes [node_store_[f]->GetEvictable()] dereference a
    null pointer. *)
Fixpoint scan (store : gmap Z LRUKNode) (order : list Z) : Res (option Z) :=
  match order with
  | [] => Ok None
  | f :: rest =>
      match store !! f with
      | None => Fail NullDereference
      | Some n => if GetEvictable n then Ok (Some f) else scan store rest
      end
  end.

Definition Evict (r : t) : Res (option Z * t) :=
  if evictable_size_ r =? 0 then Ok (None, r)
  else
    v ← scan (node_store_ r) (temp_pool_ r);
    match v with
    | Some f =>
        Ok (Some f,
            {| node_store_ := delete f (node_store_ r);
               current_timestamp_ := current_timestamp_ r;
               evictable_size_ := size_t_wrap (evictable_size_ r - 1);
               replacer_size_ := replacer_size_ r; k_ := k_ r;
               temp_pool_ := erase_frame f (temp_pool_ r);
               temp_pool_map_ := temp_pool_map_ r ∖ {[f]};
               cache_pool_ := cache_pool_ r;
               cache_pool_map_ := cache_pool_map_ r |})
    | None =>
        w ← scan (node_store_ r) (map fst (cache_pool_ r));
        match w with
        | Some f =>
            Ok (Some f,
                {| node_store_ := delete f (node_store_ r);
                   current_timestamp_ := current_timestamp_ r;
                   evictable_size_ := size_t_wrap (evictable_size_ r - 1);
                   replacer_size_ := replacer_size_ r; k_ := k_ r;
                   temp_pool_ := temp_pool_ r;
                   temp_pool_map_ := temp_pool_map_ r;
                   cache_pool_ := erase_pair f (cache_pool_ r);
                   cache_pool_map_ := cache_pool_map_ r ∖ {[f]} |})
        | None => Ok (None, r)
        end
    end.

Definition frame_in_range (frame_id : Z) (r : t) : bool :=
  size_t_wrap frame_id <=? replacer_size_ r.

Definition RecordAccess (frame_id : Z) (r : t) : Res t :=
  if negb (frame_in_range frame_id r) then Fail AssertionViolation
  else
    let ts := size_t_wrap (current_timestamp_ r + 1) in
    match node_store_ r !! frame_id with
    | None =>
        let newnode := PushFront ts (NewNode (k_ r) frame_id) in
        Ok {| node_store_ := <[frame_id := newnode]> (node_store_ r);
              current_timestamp_ := ts;
              evictable_size_ := evictable_size_ r;
              replacer_size_ := replacer_size_ r; k_ := k_ r;
              temp_pool_ := temp_pool_ r ++ [frame_id];
              temp_pool_map_ := {[frame_id]} ∪ temp_pool_map_ r;
              cache_pool_ := cache_pool_ r;
              cache_pool_map_ := cache_pool_map_ r |}
    | Some n =>
        let n' := PushFront ts n in
        let backk := BackK n' in
        let store' := <[frame_id := n']> (node_store_ r) in
        if decide (frame_id ∈ temp_pool_map_ r) then
          if negb (backk =? 0) then
            Ok {| node_store_ := store';
                  current_timestamp_ := ts;
                  evictable_size_ := evictable_size_ r;
                  replacer_size_ := replacer_size_ r; k_ := k_ r;
                  temp_pool_ := erase_frame frame_id (temp_pool_ r);
                  temp_pool_map_ := temp_pool_map_ r ∖ {[frame_id]};
                  cache_pool_ :=
                    insert_upper_bound (frame_id, backk) (cache_pool_ r);
                  cache_pool_map_ := {[frame_id]} ∪ cache_pool_map_ r |}
          else
            Ok {| node_store_ := store';
                  current_timestamp_ := ts;
                  evictable_size_ := evictable_size_ r;
                  replacer_size_ := replacer_size_ r; k_ := k_ r;
                  temp_pool_ := temp_pool_ r;
                  temp_pool_map_ := temp_pool_map_ r;
                  cache_pool_ := cache_pool_ r;
                  cache_pool_map_ := cache_pool_map_ r |}
        else if decide (frame_id ∈ cache_pool_map_ r) then
          Ok {| node_store_ := store';
                current_timestamp_ := ts;
                evictable_size_ := evictable_size_ r;
                replacer_size_ := replacer_size_ r; k_ := k_ r;
                temp_pool_ := temp_pool_ r;
                temp_pool_map_ := temp_pool_map_ r;
                cache_pool_ :=
                  insert_upper_bound (frame_id, backk)
                    (erase_pair frame_id (cache_pool_ r));
                cache_pool_map_ := {[frame_id]} ∪ cache_pool_map_ r |}
        else Fail EndIterator
    end.

Definition SetEvictable (frame_id : Z) (set_evictable : bool) (r : t) : Res t :=
  if negb (frame_in_range frame_id r) then Fail AssertionViolation
  else
    match node_store_ r !! frame_id with
    | None => Ok r
    | Some n =>
        if GetEvictable n && negb set_evictable then
          Ok {| node_store_ :=
                  <[frame_id := SetEvictableNode set_evictable n]> (node_store_ r);
                current_timestamp_ := current_timestamp_ r;
                evictable_size_ := size_t_wrap (evictable_size_ r - 1);
                replacer_size_ := replacer_size_ r; k_ := k_ r;
                temp_pool_ := temp_pool_ r;
                temp_pool_map_ := temp_pool_map_ r;
                cache_pool_ := cache_pool_ r;
                cache_pool_map_ := cache_pool_map_ r |}
        else if negb (GetEvictable n) && set_evictable then
          Ok {| node_store_ :=
                  <[frame_id := SetEvictableNode set_evictable n]> (node_store_ r);
                current_timestamp_ := current_timestamp_ r;
                evictable_size_ := size_t_wrap (evictable_size_ r + 1);
                replacer_size_ := replacer_size_ r; k_ := k_ r;
                temp_pool_ := temp_pool_ r;
                temp_pool_map_ := temp_pool_map_ r;
                cache_pool_ := cache_pool_ r;
                cache_pool_map_ := cache_pool_map_ r |}
        else Ok r
    end.

(** [BUSTUB_ENSURE(frame_ptr->GetEvictable() == false, ...)]: the macro is
    not among the sources; modelled from the spec (a failed check is an
    assertion violation). *)
Definition Remove (frame_id : Z) (r : t) : Res t :=
  match node_store_ r !! frame_id with
  | None => Ok r
  | Some n =>
      if negb (Bool.eqb (GetEvictable n) false) then Fail AssertionViolation
      else
        let in_temp := bool_decide (frame_id ∈ temp_pool_map_ r) in
        let in_cache := bool_decide (frame_id ∈ cache_pool_map_ r) in
        Ok {| node_store_ := delete frame_id (node_store_ r);
              current_timestamp_ := current_timestamp_ r;
              evictable_size_ := size_t_wrap (evictable_size_ r - 1);
              replacer_size_ := replacer_size_ r; k_ := k_ r;
              temp_pool_ :=
                if in_temp then erase_frame frame_id (temp_pool_ r)
                else temp_pool_ r;
              temp_pool_map_ := temp_pool_map_ r ∖ {[frame_id]};
              cache_pool_ :=
                if in_cache then erase_pair frame_id (cache_pool_ r)
                else cache_pool_ r;
              cache_pool_map_ := cache_pool_map_ r ∖ {[frame_id]} |}
  end.

Definition Size (r : t) : Z := evictable_size_ r.

End LRUKReplacer.

(** ** Buffer pool manager *)

Module BufferPoolManager.

(** Reader-writer latch of a page, as far as a sequential run can see it. *)
Record Latch : Type := mkLatch { readers_ : Z; writer_ : bool }.

Definition RLatchL (l : Latch) : Res Latch :=
  if writer_ l then Fail Blocked
  else Ok {| readers_ := readers_ l + 1; writer_ := false |}.

Definition WLatchL (l : Latch) : Res Latch :=
  if writer_ l || (0 <? readers_ l) then Fail Blocked
  else Ok {| readers_ := readers_ l; writer_ := true |}.

Inductive DiskOp : Type :=
| ReadPageOp (page_id : Z)
| WritePageOp (page_id : Z).

Section WithData.

Context {Data : Type}.
Variable zero_data : Data.           (* what ResetMemory leaves *)

Record Page : Type := mkPage {
  data_ : Data;
  page_id_ : Z;
  pin_count_ : Z;
  is_dirty_ : bool;
  rwlatch_ : Latch
}.

Definition fresh_page : Page :=
  {| data_ := zero_data; page_id_ := INVALID_PAGE_ID; pin_count_ := 0;
     is_dirty_ := false; rwlatch_ := {| readers_ := 0; writer_ := false |} |}.

Record t : Type := mk {
  pool_size_ : Z;
  pages_ : list Page;
  page_table_ : gmap Z Z;
  free_list_ : list Z;
  replacer_ : LRUKReplacer.t;
  next_page_id_ : Z;
  disk_ : gmap Z Data;               (* the disk manager's pages *)
  disk_log_ : list DiskOp            (* its calls, oldest first *)
}.

(** The constructor.  The free list gets [static_cast<int>(i)] for every
    [size_t i] below [pool_size]. *)
Definition init (pool_size replacer_k : Z) : t :=
  {| pool_size_ := pool_size;
     pages_ := replicate (Z.to_nat pool_size) fresh_page;
     page_table_ := ∅;
     free_list_ :=
       map (fun i => int32_wrap (Z.of_nat i)) (seq 0 (Z.to_nat pool_size));
     replacer_ := LRUKReplacer.init pool_size replacer_k;
     next_page_id_ := 0;
     disk_ := ∅;
     disk_log_ := [] |}.

Definition get_page (b : t) (frame_id : Z) : Res Page :=
  if frame_id <? 0 then Fail OutOfBounds
  else match pages_ b !! Z.to_nat frame_id with
       | Some p => Ok p
       | None => Fail OutOfBounds
       end.

Definition set_page (b : t) (frame_id : Z) (p : Page) : t :=
  {| pool_size_ := pool_size_ b;
     pages_ := <[Z.to_nat frame_id := p]> (pages_ b);
     page_table_ := page_table_ b; free_list_ := free_list_ b;
     replacer_ := replacer_ b; next_page_id_ := next_page_id_ b;
     disk_ := disk_ b; disk_log_ := disk_log_ b |}.

Definition set_replacer (b : t) (r : LRUKReplacer.t) : t :=
  {| pool_size_ := pool_size_ b; pages_ := pages_ b;
     page_table_ := page_table_ b; free_list_ := free_list_ b;
     replacer_ := r; next_page_id_ := next_page_id_ b;
     disk_ := disk_ b; disk_log_ := disk_log_ b |}.

Definition set_page_table (b : t) (pt : gmap Z Z) : t :=
  {| pool_size_ := pool_size_ b; pages_ := pages_ b;
     page_table_ := pt; free_list_ := free_list_ b;
     replacer_ := replacer_ b; next_page_id_ := next_page_id_ b;
     disk_ := disk_ b; disk_log_ := disk_log_ b |}.

Definition set_free_list (b : t) (fl : list Z) : t :=
  {| pool_size_ := pool_size_ b; pages_ := pages_ b;
     page_table_ := page_table_ b; free_list_ := fl;
     replacer_ := replacer_ b; next_page_id_ := next_page_id_ b;
     disk_ := disk_ b; disk_log_ := disk_log_ b |}.

Definition WritePage (b : t) (page_id : Z) (d : Data) : t :=
  {| pool_size_ := pool_size_ b; pages_ := pages_ b;
     page_table_ := page_table_ b; free_list_ := free_list_ b;
     replacer_ := replacer_ b; next_page_id_ := next_page_id_ b;
     disk_ := <[page_id := d]> (disk_ b);
     disk_log_ := disk_log_ b ++ [WritePageOp page_id] |}.

Definition ReadPage (b : t) (page_id : Z) : Data * t :=
  (default zero_data (disk_ b !! page_id),
   {| pool_size_ := pool_size_ b; pages_ := pages_ b;
      page_table_ := page_table_ b; free_list_ := free_list_ b;
      replacer_ := replacer_ b; next_page_id_ := next_page_id_ b;
      disk_ := disk_ b;
      disk_log_ := disk_log_ b ++ [ReadPageOp page_id] |}).

Definition with_data (p : Page) (d : Data) : Page :=
  {| data_ := d; page_id_ := page_id_ p; pin_count_ := pin_count_ p;
     is_dirty_ := is_dirty_ p; rwlatch_ := rwlatch_ p |}.
Definition with_page_id (p : Page) (i : Z) : Page :=
  {| data_ := data_ p; page_id_ := i; pin_count_ := pin_count_ p;
     is_dirty_ := is_dirty_ p; rwlatch_ := rwlatch_ p |}.
Definition with_pin_count (p : Page) (c : Z) : Page :=
  {| data_ := data_ p; page_id_ := page_id_ p; pin_count_ := c;
     is_dirty_ := is_dirty_ p; rwlatch_ := rwlatch_ p |}.
Definition with_dirty (p : Page) (d : bool) : Page :=
  {| data_ := data_ p; page_id_ := page_id_ p; pin_count_ := pin_count_ p;
     is_dirty_ := d; rwlatch_ := rwlatch_ p |}.
Definition with_latch (p : Page) (l : Latch) : Page :=
  {| data_ := data_ p; page_id_ := page_id_ p; pin_count_ := pin_count_ p;
     is_dirty_ := is_dirty_ p; rwlatch_ := l |}.

(** The part shared by [NewPage] and [FetchPage]: take a frame from the free
    list, else ask the replacer for a victim, write it back when dirty, reset
    its memory and drop it from the page table.  The result of
    [replacer_->Evict] is not looked at, so a replacer that evicts nothing
    leaves [new_frame_id] unassigned. *)
Definition pick_frame (b : t) : Res (Z * t) :=
  match free_list_ b with
  | f :: rest => Ok (f, set_free_list b rest)
  | [] =>
      '(v, r) ← LRUKReplacer.Evict (replacer_ b);
      match v with
      | None => Fail Uninitialized
      | Some f =>
          let b1 := set_replacer b r in
          p ← get_page b1 f;
          let old_page_id := page_id_ p in
          let '(p1, b2) :=
            if is_dirty_ p
            then (with_dirty p false, WritePage b1 old_page_id (data_ p))
            else (p, b1) in
          let p2 := with_data p1 zero_data in
          let b3 := set_page b2 f p2 in
          Ok (f, set_page_table b3 (delete old_page_id (page_table_ b3)))
      end
  end.

(** [return next_page_id_++;] on the 32-bit [page_id_t] counter. *)
Definition AllocatePage (b : t) : Z * t :=
  (next_page_id_ b,
   {| pool_size_ := pool_size_ b; pages_ := pages_ b;
      page_table_ := page_table_ b; free_list_ := free_list_ b;
      replacer_ := replacer_ b;
      next_page_id_ := int32_wrap (next_page_id_ b + 1);
      disk_ := disk_ b; disk_log_ := disk_log_ b |}).

(** [NewPage]: the result is the new page id with the frame of the page, or
    [None] for [nullptr]. *)
Definition NewPage (b : t) : Res (option (Z * Z) * t) :=
  if bool_decide (free_list_ b = []) && (LRUKReplacer.Size (replacer_ b) =? 0)
  then Ok (None, b)
  else
    '(f, b1) ← pick_frame b;
    let '(new_page_id, b2) := AllocatePage b1 in
    p ← get_page b2 f;
    let p1 := with_page_id p new_page_id in
    let b3 := set_page_table (set_page b2 f p1)
                (<[new_page_id := f]> (page_table_ b2)) in
    let b4 := set_page b3 f (with_pin_count p1 (pin_count_ p1 + 1)) in
    r1 ← LRUKReplacer.RecordAccess f (replacer_ b4);
    r2 ← LRUKReplacer.SetEvictable f false r1;
    Ok (Some (new_page_id, f), set_replacer b4 r2).

(** [FetchPage]: the frame of the page, or [None] for [nullptr]. *)
Definition FetchPage (b : t) (page_id : Z) : Res (option Z * t) :=
  match page_table_ b !! page_id with
  | Some f =>
      p ← get_page b f;
      Ok (Some f, set_page b f (with_pin_count p (pin_count_ p + 1)))
  | None =>
      if bool_decide (free_list_ b = []) && (LRUKReplacer.Size (replacer_ b) =? 0)
      then Ok (None, b)
      else
        '(f, b1) ← pick_frame b;
        p ← get_page b1 f;
        let p1 := with_page_id p page_id in
        let b2 := set_page_table (set_page b1 f p1)
                    (<[page_id := f]> (page_table_ b1)) in
        let '(d, b3) := ReadPage b2 page_id in
        let p2 := with_data p1 d in
        let b4 := set_page b3 f (with_pin_count p2 (pin_count_ p2 + 1)) in
        r1 ← LRUKReplacer.RecordAccess f (replacer_ b4);
        r2 ← LRUKReplacer.SetEvictable f false r1;
        Ok (Some f, set_replacer b4 r2)
  end.

Definition UnpinPage (b : t) (page_id : Z) (is_dirty : bool) : Res (bool * t) :=
  match page_table_ b !! page_id with
  | None => Ok (false, b)
  | Some f =>
      p ← get_page b f;
      if pin_count_ p <=? 0 then Ok (false, b)
      else
        let p1 := with_pin_count p (pin_count_ p - 1) in
        r ← (if pin_count_ p1 =? 0
             then LRUKReplacer.SetEvictable f true (replacer_ b)
             else Ok (replacer_ b));
        let b1 := set_replacer (set_page b f p1) r in
        Ok (true, set_page b1 f (with_dirty p1 is_dirty))
  end.

Definition FlushPage (b : t) (page_id : Z) : Res (bool * t) :=
  match page_table_ b !! page_id with
  | None => Ok (false, b)
  | Some f =>
      p ← get_page b f;
      let b1 := WritePage b page_id (data_ p) in
      Ok (true, set_page b1 f (with_dirty p false))
  end.

Definition DeletePage (b : t) (page_id : Z) : Res (bool * t) :=
  match page_table_ b !! page_id with
  | None => Ok (true, b)
  | Some f =>
      p ← get_page b f;
      if 0 <? pin_count_ p then Ok (false, b)
      else
        let b1 := set_page_table b (delete page_id (page_table_ b)) in
        r ← LRUKReplacer.Remove f (replacer_ b1);
        let b2 := set_free_list (set_replacer b1 r) (free_list_ b1 ++ [f]) in
        Ok (true,
            set_page b2 f
              {| data_ := zero_data; page_id_ := INVALID_PAGE_ID;
                 pin_count_ := 0; is_dirty_ := false;
                 rwlatch_ := rwlatch_ p |})
  end.

(** Page guards: [page_] is the frame the guard points into, [None] for a
    null pointer.  A guard built by the pool manager carries [this] and a clean
    dirty flag. *)
Record Guard : Type := mkGuard {
  g_bpm_ : bool;
  g_page_ : option Z;
  g_is_dirty_ : bool
}.

Definition FetchPageBasic (b : t) (page_id : Z) : Res (Guard * t) :=
  '(fo, b1) ← FetchPage b page_id;
  Ok ({| g_bpm_ := true; g_page_ := fo; g_is_dirty_ := false |}, b1).

Definition FetchPageRead (b : t) (page_id : Z) : Res (Guard * t) :=
  match page_table_ b !! page_id with
  | None => Ok ({| g_bpm_ := true; g_page_ := None; g_is_dirty_ := false |}, b)
  | Some f =>
      p ← get_page b f;
      l ← RLatchL (rwlatch_ p);
      let b1 := set_page b f (with_latch p l) in
      '(_, b2) ← FetchPage b1 page_id;
      Ok ({| g_bpm_ := true; g_page_ := Some f; g_is_dirty_ := false |}, b2)
  end.

Definition FetchPageWrite (b : t) (page_id : Z) : Res (Guard * t) :=
  match page_table_ b !! page_id with
  | None => Ok ({| g_bpm_ := true; g_page_ := None; g_is_dirty_ := false |}, b)
  | Some f =>
      p ← get_page b f;
      l ← WLatchL (rwlatch_ p);
      let b1 := set_page b f (with_latch p l) in
      '(_, b2) ← FetchPage b1 page_id;
      Ok ({| g_bpm_ := true; g_page_ := Some f; g_is_dirty_ := false |}, b2)
  end.

(** [BasicPageGuard::Drop] ([page_guard.cpp]); the guard itself becomes
    empty. *)
Definition DropBasic (g : Guard) (b : t) : Res t :=
  match g_bpm_ g, g_page_ g with
  | true, Some f =>
      p ← get_page b f;
      '(_, b1) ← UnpinPage b (page_id_ p) (g_is_dirty_ g);
      Ok b1
  | _, _ => Ok b
  end.

End WithData.

End BufferPoolManager.

(** ** B+Tree leaf page *)

Module LeafPage.

Inductive IndexPageType : Type := INVALID_INDEX_PAGE | LEAF_PAGE | INTERNAL_PAGE.

Section WithKey.

Context {K V : Type}.
Variable comparator_ : K -> K -> Z.

(** Modelled from the spec: [GetMinSize] belongs to [b_plus_tree_page.cpp],
    which is not among the sources; it is a function of the page's maximum
    size, fixed at tree construction. *)
Variable min_size_of : Z -> Z.

(** [array_] is the flexible array at the end of the page: the code indexes it
    with any [int], so it is a total function of the index.  Slots outside
    [0, size_) hold whatever the page memory holds there. *)
Record t : Type := mk {
  page_type_ : IndexPageType;
  size_ : Z;
  max_size_ : Z;
  next_page_id_ : Z;
  array_ : Z -> K * V
}.

Definition GetSize (p : t) : Z := size_ p.
Definition GetMaxSize (p : t) : Z := max_size_ p.
Definition GetMinSize (p : t) : Z := min_size_of (max_size_ p).
Definition GetNextPageId (p : t) : Z := next_page_id_ p.
Definition KeyAt (p : t) (index : Z) : K := fst (array_ p index).
Definition ArrayIt (p : t) (index : Z) : K * V := array_ p index.

Definition SetSize (p : t) (n : Z) : t :=
  {| page_type_ := page_type_ p; size_ := n; max_size_ := max_size_ p;
     next_page_id_ := next_page_id_ p; array_ := array_ p |}.
Definition IncreaseSize (p : t) (n : Z) : t := SetSize p (size_ p + n).
Definition SetNextPageId (p : t) (n : Z) : t :=
  {| page_type_ := page_type_ p; size_ := size_ p; max_size_ := max_size_ p;
     next_page_id_ := n; array_ := array_ p |}.
Definition SetArray (p : t) (a : Z -> K * V) : t :=
  {| page_type_ := page_type_ p; size_ := size_ p; max_size_ := max_size_ p;
     next_page_id_ := next_page_id_ p; array_ := a |}.

Definition Init (p : t) (max_size : Z) : t :=
  {| page_type_ := LEAF_PAGE; size_ := 0; max_size_ := max_size;
     next_page_id_ := INVALID_PAGE_ID; array_ := array_ p |}.

(** [a[i] = x] *)
Definition store (a : Z -> K * V) (i : Z) (x : K * V) : Z -> K * V :=
  fun j => if j =? i then x else a j.

(** [while (l < r) { mid = (l + r) >> 1;
                     if (cmp(a[mid], key) >= 0) r = mid; else l = mid + 1; }]
    The loop halves [r - l], so [r - l] rounds are enough. *)
Fixpoint lower_bound_loop (fuel : nat) (a : Z -> K * V) (key : K) (l r : Z) : Z :=
  match fuel with
  | O => l
  | S fuel' =>
      if l <? r then
        let mid := Z.shiftr (l + r) 1 in
        if (0 <? comparator_ (fst (a mid)) key)
           || (comparator_ (fst (a mid)) key =? 0)
        then lower_bound_loop fuel' a key l mid
        else lower_bound_loop fuel' a key (mid + 1) r
      else l
  end.

(** The same loop with the test [cmp(a[mid], key) > 0]. *)
Fixpoint upper_bound_loop (fuel : nat) (a : Z -> K * V) (key : K) (l r : Z) : Z :=
  match fuel with
  | O => l
  | S fuel' =>
      if l <? r then
        let mid := Z.shiftr (l + r) 1 in
        if 0 <? comparator_ (fst (a mid)) key
        then upper_bound_loop fuel' a key l mid
        else upper_bound_loop fuel' a key (mid + 1) r
      else l
  end.

Definition KetIndex (p : t) (key : K) : Z :=
  lower_bound_loop (Z.to_nat (GetSize p - 1)) (array_ p) key 0 (GetSize p - 1).

Definition ValueAtKey (p : t) (key : K) : option V :=
  let index :=
    lower_bound_loop (Z.to_nat (GetSize p - 1)) (array_ p) key 0 (GetSize p - 1) in
  if (index =? GetMaxSize p)
     || negb (comparator_ (fst (array_ p index)) key =? 0)
  then None
  else Some (snd (array_ p index)).

(** [for (int i = GetSize() - 1; i >= index; i--) array_[i + 1] = array_[i];]
    with [n] rounds left and [i] the loop variable. *)
Fixpoint shift_right (n : nat) (i : Z) (a : Z -> K * V) : Z -> K * V :=
  match n with
  | O => a
  | S n' => shift_right n' (i - 1) (store a (i + 1) (a i))
  end.

(** [for (int i = index; i < GetSize() - 1; i++) array_[i] = array_[i + 1];] *)
Fixpoint shift_left (n : nat) (i : Z) (a : Z -> K * V) : Z -> K * V :=
  match n with
  | O => a
  | S n' => shift_left n' (i + 1) (store a i (a (i + 1)))
  end.

Definition Insert (p : t) (key : K) (value : V) : bool * t :=
  let index := upper_bound_loop (Z.to_nat (GetSize p)) (array_ p) key 0 (GetSize p) in
  if comparator_ (fst (array_ p (index - 1))) key =? 0 then (false, p)
  else
    let a1 := shift_right (Z.to_nat (GetSize p - index)) (GetSize p - 1) (array_ p) in
    let a2 := store a1 index (key, value) in
    (true, IncreaseSize (SetArray p a2) 1).

Definition RemoveRecord (p : t) (key : K) : bool * t :=
  let index :=
    lower_bound_loop (Z.to_nat (GetSize p - 1)) (array_ p) key 0 (GetSize p - 1) in
  if negb (comparator_ (fst (array_ p index)) key =? 0) then (false, p)
  else
    let a1 := shift_left (Z.to_nat (GetSize p - 1 - index)) index (array_ p) in
    (true, IncreaseSize (SetArray p a1) (-1)).

(** [for (int i = min_size; i < max_size; i++)
       new_leaf_page->array_[i - min_size] = this->array_[i];] *)
Fixpoint copy_upper (n : nat) (i min_size : Z) (src dst : Z -> K * V) : Z -> K * V :=
  match n with
  | O => dst
  | S n' => copy_upper n' (i + 1) min_size src (store dst (i - min_size) (src i))
  end.

(** [Split]: the page itself, the new page and the risen key. *)
Definition Split (p new_leaf_page : t) : t * t * K :=
  let min_size := GetMinSize p in
  let max_size := GetMaxSize p in
  let a := copy_upper (Z.to_nat (max_size - min_size)) min_size min_size
             (array_ p) (array_ new_leaf_page) in
  let p' := SetSize p min_size in
  let n' := SetSize (SetArray new_leaf_page a) (max_size - min_size) in
  (p', n', fst (array_ n' 0)).

(** The entries the page holds: slots [0, size_). *)
Definition entries (p : t) : list (K * V) :=
  (fun i => array_ p (Z.of_nat i)) <$> seq 0 (Z.to_nat (size_ p)).

Definition keys (p : t) : list K := fst <$> entries p.

End WithKey.

End LeafPage.

(** ** B+Tree: the leaf level of [Insert] *)

Module BPlusTree.

Section WithKey.

Context {K V : Type}.
Variable comparator_ : K -> K -> Z.
Variable min_size_of : Z -> Z.
Variable leaf_max_size_ : Z.

(** What [Insert] hands to [InsertIntoParent] after a leaf split. *)
Record SplitResult : Type := mkSplit {
  risen_key : K;
  sibling_id_ : Z;
  new_leaf_page : LeafPage.t (K:=K) (V:=V)
}.

(** [BPlusTree::Insert] from the point where the leaf is latched
    (b_plus_tree.cpp, lines 131-154).  [new_page] is what [bpm_->NewPage]
    would return: the new page id with the frame's memory seen as a leaf
    page, or [None] when the pool has no frame.  The result is the return
    value, the leaf and the split handed to [InsertIntoParent], if any. *)
Definition InsertLeaf (leaf_page : LeafPage.t) (key : K) (value : V)
    (new_page : option (Z * LeafPage.t))
  : Res (bool * LeafPage.t * option SplitResult) :=
  let '(inserted, leaf1) := LeafPage.Insert comparator_ leaf_page key value in
  if negb inserted then Ok (false, leaf1, None)
  else if LeafPage.GetSize leaf1 =? LeafPage.GetMaxSize leaf1 then
    match new_page with
    | None => Fail OutOfMemory
    | Some (new_page_id, mem) =>
        let new0 := LeafPage.Init mem leaf_max_size_ in
        let '(leaf2, new1, risen) := LeafPage.Split min_size_of leaf1 new0 in
        let new2 := LeafPage.SetNextPageId new1 (LeafPage.GetNextPageId leaf2) in
        let leaf3 := LeafPage.SetNextPageId leaf2 new_page_id in
        Ok (true, leaf3,
            Some {| risen_key := risen; sibling_id_ := new_page_id;
                    new_leaf_page := new2 |})
    end
  else Ok (true, leaf1, None).

End WithKey.

End BPlusTree.

(** ** Index iterator *)

Module IndexIterator.

Section WithData.

Context {Data K V : Type}.
Variable zero_data : Data.
(** [reinterpret_cast<LeafPage *>] of a page's bytes. *)
Variable AsLeafPage : Data -> LeafPage.t (K:=K) (V:=V).

(** [leaf_page_] points into the data of a frame of the pool; [bpm_] is the
    pool the operations are run against. *)
Record t : Type := mk {
  leaf_page_ : Z;
  index_ : Z
}.

Definition leaf_of (it : t) (b : BufferPoolManager.t) : Res LeafPage.t :=
  p ← BufferPoolManager.get_page b (leaf_page_ it);
  Ok (AsLeafPage (BufferPoolManager.data_ p)).

Definition IsEnd (it : t) (b : BufferPoolManager.t) : Res bool :=
  lf ← leaf_of it b;
  Ok ((LeafPage.GetNextPageId lf =? INVALID_PAGE_ID)
      && (index_ it =? LeafPage.GetSize lf)).

Definition deref (it : t) (b : BufferPoolManager.t) : Res (K * V) :=
  lf ← leaf_of it b;
  Ok (LeafPage.ArrayIt lf (index_ it)).

(** [operator++].  [bpm_->FetchPageBasic(next_page_id).As<LeafPage>()] builds
    a temporary guard; the guard is destroyed, and so dropped, at the end of
    that statement. *)
Definition operator_inc (it : t) (b : BufferPoolManager.t (Data:=Data))
  : Res (t * BufferPoolManager.t) :=
  e ← IsEnd it b;
  if (e : bool) then Ok (it, b)
  else
    lf ← leaf_of it b;
    let index := index_ it + 1 in
    if (index =? LeafPage.GetSize lf)
       && negb (LeafPage.GetNextPageId lf =? INVALID_PAGE_ID)
    then
      let next_page_id := LeafPage.GetNextPageId lf in
      '(g, b1) ← BufferPoolManager.FetchPageBasic zero_data b next_page_id;
      match BufferPoolManager.g_page_ g with
      | None => Fail NullDereference
      | Some f =>
          b2 ← BufferPoolManager.DropBasic g b1;
          Ok ({| leaf_page_ := f; index_ := 0 |}, b2)
      end
    else Ok ({| leaf_page_ := leaf_page_ it; index_ := index |}, b).

End WithData.

End IndexIterator.

(** ** Lock manager: admission of a lock request *)

Module LockManager.

Inductive LockMode : Type :=
| SHARED | EXCLUSIVE | INTENTION_SHARED | INTENTION_EXCLUSIVE
| SHARED_INTENTION_EXCLUSIVE.

Inductive TransactionState : Type := GROWING | SHRINKING | COMMITTED | ABORTED.

Inductive IsolationLevel : Type :=
| READ_UNCOMMITTED | REPEATABLE_READ | READ_COMMITTED.

Inductive AbortReason : Type :=
| LOCK_ON_SHRINKING
| UPGRADE_CONFLICT
| LOCK_SHARED_ON_READ_UNCOMMITTED
| TABLE_LOCK_NOT_PRESENT
| ATTEMPTED_INTENTION_LOCK_ON_ROW
| TABLE_UNLOCKED_BEFORE_UNLOCKING_ROWS
| INCOMPATIBLE_UPGRADE
| ATTEMPTED_UNLOCK_BUT_NO_LOCK_HELD.

#[global] Instance LockMode_eq_dec : EqDecision LockMode.
Proof. solve_decision. Defined.
#[global] Instance TransactionState_eq_dec : EqDecision TransactionState.
Proof. solve_decision. Defined.
#[global] Instance IsolationLevel_eq_dec : EqDecision IsolationLevel.
Proof. solve_decision. Defined.
#[global] Instance AbortReason_eq_dec : EqDecision AbortReason.
Proof. solve_decision. Defined.

Definition mode_eqb (a b : LockMode) : bool := bool_decide (a = b).

Definition RID : Type := Z * Z.

(** Modelled from the spec: [Transaction] is declared in
    [concurrency/transaction.h], which is not among the sources.  It exposes
    an identifier, an isolation level, a state and the locks currently held,
    per table and per row, indexed by mode. *)
Record Transaction : Type := mkTxn {
  txn_id_ : Z;
  state_ : TransactionState;
  isolation_level_ : IsolationLevel;
  s_table_lock_set_ : gset Z;
  x_table_lock_set_ : gset Z;
  is_table_lock_set_ : gset Z;
  ix_table_lock_set_ : gset Z;
  six_table_lock_set_ : gset Z;
  s_row_lock_set_ : gmap Z (gset RID);
  x_row_lock_set_ : gmap Z (gset RID)
}.

Definition GetState (t : Transaction) := state_ t.
Definition GetIsolationLevel (t : Transaction) := isolation_level_ t.
Definition GetTransactionId (t : Transaction) := txn_id_ t.

Definition SetState (t : Transaction) (s : TransactionState) : Transaction :=
  {| txn_id_ := txn_id_ t; state_ := s; isolation_level_ := isolation_level_ t;
     s_table_lock_set_ := s_table_lock_set_ t;
     x_table_lock_set_ := x_table_lock_set_ t;
     is_table_lock_set_ := is_table_lock_set_ t;
     ix_table_lock_set_ := ix_table_lock_set_ t;
     six_table_lock_set_ := six_table_lock_set_ t;
     s_row_lock_set_ := s_row_lock_set_ t;
     x_row_lock_set_ := x_row_lock_set_ t |}.

Definition table_lock_set (t : Transaction) (m : LockMode) : gset Z :=
  match m with
  | SHARED => s_table_lock_set_ t
  | EXCLUSIVE => x_table_lock_set_ t
  | INTENTION_SHARED => is_table_lock_set_ t
  | INTENTION_EXCLUSIVE => ix_table_lock_set_ t
  | SHARED_INTENTION_EXCLUSIVE => six_table_lock_set_ t
  end.

Definition update_table_lock_set (t : Transaction) (m : LockMode)
    (f : gset Z -> gset Z) : Transaction :=
  {| txn_id_ := txn_id_ t; state_ := state_ t;
     isolation_level_ := isolation_level_ t;
     s_table_lock_set_ :=
       if mode_eqb m SHARED then f (s_table_lock_set_ t) else s_table_lock_set_ t;
     x_table_lock_set_ :=
       if mode_eqb m EXCLUSIVE then f (x_table_lock_set_ t) else x_table_lock_set_ t;
     is_table_lock_set_ :=
       if mode_eqb m INTENTION_SHARED then f (is_table_lock_set_ t)
       else is_table_lock_set_ t;
     ix_table_lock_set_ :=
       if mode_eqb m INTENTION_EXCLUSIVE then f (ix_table_lock_set_ t)
       else ix_table_lock_set_ t;
     six_table_lock_set_ :=
       if mode_eqb m SHARED_INTENTION_EXCLUSIVE then f (six_table_lock_set_ t)
       else six_table_lock_set_ t;
     s_row_lock_set_ := s_row_lock_set_ t;
     x_row_lock_set_ := x_row_lock_set_ t |}.

Definition update_row_lock_set (t : Transaction) (m : LockMode)
    (f : gmap Z (gset RID) -> gmap Z (gset RID)) : Transaction :=
  {| txn_id_ := txn_id_ t; state_ := state_ t;
     isolation_level_ := isolation_level_ t;
     s_table_lock_set_ := s_table_lock_set_ t;
     x_table_lock_set_ := x_table_lock_set_ t;
     is_table_lock_set_ := is_table_lock_set_ t;
     ix_table_lock_set_ := ix_table_lock_set_ t;
     six_table_lock_set_ := six_table_lock_set_ t;
     s_row_lock_set_ :=
       if mode_eqb m SHARED then f (s_row_lock_set_ t) else s_row_lock_set_ t;
     x_row_lock_set_ :=
       if mode_eqb m EXCLUSIVE then f (x_row_lock_set_ t) else x_row_lock_set_ t |}.

(** Modelled from the spec: the helpers [TxnTableLockInsert],
    [TxnTableLockDelete], [TxnRowLockInsert] and [TxnRowLockDelete] are not
    among the sources; on grant the lock is recorded in the transaction's
    held set, on release or upgrade it is taken out. *)
Definition TxnTableLockInsert (t : Transaction) (m : LockMode) (oid : Z) :=
  update_table_lock_set t m (fun s => {[oid]} ∪ s).
Definition TxnTableLockDelete (t : Transaction) (m : LockMode) (oid : Z) :=
  update_table_lock_set t m (fun s => s ∖ {[oid]}).
Definition TxnRowLockInsert (t : Transaction) (m : LockMode) (oid : Z) (rid : RID) :=
  update_row_lock_set t m
    (fun s => <[oid := {[rid]} ∪ default ∅ (s !! oid)]> s).
Definition TxnRowLockDelete (t : Transaction) (m : LockMode) (oid : Z) (rid : RID) :=
  update_row_lock_set t m
    (fun s => match s !! oid with
              | Some rs => <[oid := rs ∖ {[rid]}]> s
              | None => s
              end).

(** Modelled from the spec: [CanLockUpgrade] is not among the sources; the
    permitted transitions are IS -> {S, X, IX, SIX}, S -> {X, SIX},
    IX -> {X, SIX} and SIX -> X. *)
Definition CanLockUpgrade (cur req : LockMode) : bool :=
  match cur, req with
  | INTENTION_SHARED, (SHARED | EXCLUSIVE | INTENTION_EXCLUSIVE
                       | SHARED_INTENTION_EXCLUSIVE) => true
  | SHARED, (EXCLUSIVE | SHARED_INTENTION_EXCLUSIVE) => true
  | INTENTION_EXCLUSIVE, (EXCLUSIVE | SHARED_INTENTION_EXCLUSIVE) => true
  | SHARED_INTENTION_EXCLUSIVE, EXCLUSIVE => true
  | _, _ => false
  end.

(** Modelled from the spec: [CheckAppropriateLockOnTable] is not among the
    sources; a row lock needs a table lock already held, IX or X for a row X
    lock and any of IS, IX, S, SIX, X for a row S lock. *)
Definition CheckAppropriateLockOnTable (t : Transaction) (oid : Z)
    (row_lock_mode : LockMode) : bool :=
  let held m := bool_decide (oid ∈ table_lock_set t m) in
  match row_lock_mode with
  | EXCLUSIVE => held INTENTION_EXCLUSIVE || held EXCLUSIVE
  | SHARED => held INTENTION_SHARED || held INTENTION_EXCLUSIVE || held SHARED
              || held SHARED_INTENTION_EXCLUSIVE || held EXCLUSIVE
  | _ => false
  end.

Record LockRequest : Type := mkRequest {
  req_txn_id_ : Z;
  lock_mode_ : LockMode;
  oid_ : Z;
  rid_ : option RID;
  granted_ : bool
}.

Record LockRequestQueue : Type := mkQueue {
  request_queue_ : list LockRequest;
  upgrading_ : Z
}.

Record t : Type := mk {
  table_lock_map_ : gmap Z LockRequestQueue;
  row_lock_map_ : gmap RID LockRequestQueue
}.

(** How a call ends.  [Return b] is a normal return; [Throw r] is
    [TransactionAbortException(txn_id, r)]; [Enqueued up] is the point where
    the code enters [while (!GrantLock(...)) cv_.wait(...)] with its request
    in the queue ([up] is [can_upgrade]); the model stops there. *)
Inductive Exit : Type :=
| Return (b : bool)
| Throw (reason : AbortReason)
| Enqueued (can_upgrade : bool).

Definition Outcome : Type := Exit * Transaction * t.

Definition abort (txn : Transaction) (lm : t) (r : AbortReason) : Res Outcome :=
  Ok (Throw r, SetState txn ABORTED, lm).

(** Lines 225-257 of [LockTable]: the checks against the transaction's state
    and isolation level.  [None] lets the request through. *)
Definition LockTable_checks (txn : Transaction) (lock_mode : LockMode)
  : option AbortReason :=
  let shrinking :=
    if bool_decide (GetState txn = SHRINKING) then
      if bool_decide (GetIsolationLevel txn = REPEATABLE_READ)
      then Some LOCK_ON_SHRINKING
      else if bool_decide (GetIsolationLevel txn = READ_COMMITTED)
              && (mode_eqb lock_mode EXCLUSIVE
                  || mode_eqb lock_mode INTENTION_EXCLUSIVE
                  || mode_eqb lock_mode SHARED_INTENTION_EXCLUSIVE)
      then Some LOCK_ON_SHRINKING
      else if bool_decide (GetIsolationLevel txn = READ_UNCOMMITTED) then
        if mode_eqb lock_mode EXCLUSIVE || mode_eqb lock_mode INTENTION_EXCLUSIVE
        then Some LOCK_ON_SHRINKING
        else Some LOCK_SHARED_ON_READ_UNCOMMITTED
      else None
    else None in
  match shrinking with
  | Some r => Some r
  | None =>
      if bool_decide (GetState txn = GROWING)
         && bool_decide (GetIsolationLevel txn = READ_UNCOMMITTED)
         && (mode_eqb lock_mode SHARED || mode_eqb lock_mode INTENTION_SHARED
             || mode_eqb lock_mode SHARED_INTENTION_EXCLUSIVE)
      then Some LOCK_SHARED_ON_READ_UNCOMMITTED
      else None
  end.

(** Lines 388-423 of [LockRow]. *)
Definition LockRow_checks (txn : Transaction) (lock_mode : LockMode)
  : option AbortReason :=
  if mode_eqb lock_mode INTENTION_SHARED
     || mode_eqb lock_mode SHARED_INTENTION_EXCLUSIVE
     || mode_eqb lock_mode INTENTION_EXCLUSIVE
  then Some ATTEMPTED_INTENTION_LOCK_ON_ROW
  else
    let shrinking :=
      if bool_decide (GetState txn = SHRINKING) then
        if bool_decide (GetIsolationLevel txn = REPEATABLE_READ)
        then Some LOCK_ON_SHRINKING
        else if bool_decide (GetIsolationLevel txn = READ_COMMITTED)
                && mode_eqb lock_mode EXCLUSIVE
        then Some LOCK_ON_SHRINKING
        else if bool_decide (GetIsolationLevel txn = READ_UNCOMMITTED) then
          if mode_eqb lock_mode EXCLUSIVE
          then Some LOCK_ON_SHRINKING
          else Some LOCK_SHARED_ON_READ_UNCOMMITTED
        else None
      else None in
    match shrinking with
    | Some r => Some r
    | None =>
        if bool_decide (GetState txn = GROWING)
           && bool_decide (GetIsolationLevel txn = READ_UNCOMMITTED)
           && mode_eqb lock_mode SHARED
        then Some LOCK_SHARED_ON_READ_UNCOMMITTED
        else None
    end.

(** The loop over the queue that looks for an earlier request of the same
    transaction (lines 280-303). *)
Inductive UpgradeScan : Type :=
| NoRequest
| SameMode
| NotGranted
| Conflict
| Incompatible
| Upgrade (old_mode : LockMode) (rest : list LockRequest).

Fixpoint upgrade_scan (txn_id : Z) (lock_mode : LockMode) (upgrading : Z)
    (q : list LockRequest) : UpgradeScan :=
  match q with
  | [] => NoRequest
  | lock_request :: q' =>
      if req_txn_id_ lock_request =? txn_id then
        if negb (granted_ lock_request) then NotGranted
        else if mode_eqb (lock_mode_ lock_request) lock_mode then SameMode
        else if negb (upgrading =? INVALID_TXN_ID) then Conflict
        else if negb (CanLockUpgrade (lock_mode_ lock_request) lock_mode)
        then Incompatible
        else Upgrade (lock_mode_ lock_request) q'
      else
        match upgrade_scan txn_id lock_mode upgrading q' with
        | Upgrade m rest => Upgrade m (lock_request :: rest)
        | other => other
        end
  end.

(** Lines 312-324: the new request goes in front of the first request that
    is not granted, at the end when all are granted. *)
Fixpoint insert_before_ungranted (new_lock_request : LockRequest)
    (q : list LockRequest) : list LockRequest :=
  match q with
  | [] => [new_lock_request]
  | lock_request :: q' =>
      if negb (granted_ lock_request) then new_lock_request :: lock_request :: q'
      else lock_request :: insert_before_ungranted new_lock_request q'
  end.

Definition enqueue_upgrade (new_lock_request : LockRequest) (txn_id : Z)
    (q : list LockRequest) : LockRequestQueue :=
  match q with
  | [] => {| request_queue_ := [new_lock_request]; upgrading_ := txn_id |}
  | _ => {| request_queue_ := insert_before_ungranted new_lock_request q;
            upgrading_ := txn_id |}
  end.

(** What both [LockTable] and [LockRow] do with the queue of the resource
    once it is found.  [delete_held] is [TxnTableLockDelete] or
    [TxnRowLockDelete] for this resource.  The result is the exit, the
    transaction and the queue. *)
Definition request_on_queue (txn : Transaction) (lock_mode : LockMode)
    (new_lock_request : LockRequest)
    (delete_held : Transaction -> LockMode -> Transaction)
    (lock_queue : LockRequestQueue)
  : Res (Exit * Transaction * LockRequestQueue) :=
  match upgrade_scan (GetTransactionId txn) lock_mode (upgrading_ lock_queue)
          (request_queue_ lock_queue) with
  | NotGranted => Fail AssertionViolation
  | SameMode => Ok (Return false, txn, lock_queue)
  | Conflict => Ok (Throw UPGRADE_CONFLICT, SetState txn ABORTED, lock_queue)
  | Incompatible =>
      Ok (Throw INCOMPATIBLE_UPGRADE, SetState txn ABORTED, lock_queue)
  | Upgrade old_mode rest =>
      Ok (Enqueued true, delete_held txn old_mode,
          enqueue_upgrade new_lock_request (GetTransactionId txn) rest)
  | NoRequest =>
      Ok (Enqueued false, txn,
          {| request_queue_ := request_queue_ lock_queue ++ [new_lock_request];
             upgrading_ := upgrading_ lock_queue |})
  end.

Definition set_table_queue (lm : t) (oid : Z) (q : LockRequestQueue) : t :=
  {| table_lock_map_ := <[oid := q]> (table_lock_map_ lm);
     row_lock_map_ := row_lock_map_ lm |}.

Definition set_row_queue (lm : t) (rid : RID) (q : LockRequestQueue) : t :=
  {| table_lock_map_ := table_lock_map_ lm;
     row_lock_map_ := <[rid := q]> (row_lock_map_ lm) |}.

Definition LockTable (txn : Transaction) (lock_mode : LockMode) (oid : Z)
    (lm : t) : Res Outcome :=
  match LockTable_checks txn lock_mode with
  | Some r => abort txn lm r
  | None =>
      match table_lock_map_ lm !! oid with
      | None =>
          let new_lock_request_queue :=
            {| request_queue_ :=
                 [ {| req_txn_id_ := GetTransactionId txn;
                      lock_mode_ := lock_mode; oid_ := oid; rid_ := None;
                      granted_ := true |} ];
               upgrading_ := INVALID_TXN_ID |} in
          Ok (Return true, TxnTableLockInsert txn lock_mode oid,
              set_table_queue lm oid new_lock_request_queue)
      | Some lock_queue =>
          let new_lock_request :=
            {| req_txn_id_ := GetTransactionId txn; lock_mode_ := lock_mode;
               oid_ := oid; rid_ := None; granted_ := false |} in
          '(e, txn', q') ←
            request_on_queue txn lock_mode new_lock_request
              (fun tx m => TxnTableLockDelete tx m oid) lock_queue;
          Ok (e, txn', set_table_queue lm oid q')
      end
  end.

Definition LockRow (txn : Transaction) (lock_mode : LockMode) (oid : Z)
    (rid : RID) (lm : t) : Res Outcome :=
  match LockRow_checks txn lock_mode with
  | Some r => abort txn lm r
  | None =>
      if negb (CheckAppropriateLockOnTable txn oid lock_mode)
      then abort txn lm TABLE_LOCK_NOT_PRESENT
      else
        match row_lock_map_ lm !! rid with
        | None =>
            let new_lock_request_queue :=
              {| request_queue_ :=
                   [ {| req_txn_id_ := GetTransactionId txn;
                        lock_mode_ := lock_mode; oid_ := oid; rid_ := Some rid;
                        granted_ := true |} ];
                 upgrading_ := INVALID_TXN_ID |} in
            Ok (Return true, TxnRowLockInsert txn lock_mode oid rid,
                set_row_queue lm rid new_lock_request_queue)
        | Some lock_queue =>
            let new_lock_request :=
              {| req_txn_id_ := GetTransactionId txn; lock_mode_ := lock_mode;
                 oid_ := oid; rid_ := Some rid; granted_ := false |} in
            '(e, txn', q') ←
              request_on_queue txn lock_mode new_lock_request
                (fun tx m => TxnRowLockDelete tx m oid rid) lock_queue;
            Ok (e, txn', set_row_queue lm rid q')
        end
  end.

End LockManager.

(** ** Lock manager: a waiting request whose transaction is aborted *)

Module LockWait.

Import LockManager.

(** The loop of lines 334-339: [erase] at the first request of the
    transaction, then [break]. *)
Fixpoint erase_request (txn_id : Z) (q : list LockRequest) : list LockRequest :=
  match q with
  | [] => []
  | lock_request :: q' =>
      if req_txn_id_ lock_request =? txn_id then q'
      else lock_request :: erase_request txn_id q'
  end.

(** What the wait loop of [LockTable] does when [cv_.wait] returns and the
    transaction is found ABORTED (lines 333-341), as [RunCycleDetection]
    leaves the victim of a deadlock: the request of the transaction is
    taken out of the queue of the table and the call returns false.
    [upgrading_] is not assigned.  The queue is the one found before the
    loop. *)
Definition aborted_while_waiting (txn : Transaction) (oid : Z) (lm : t)
  : Res Outcome :=
  match table_lock_map_ lm !! oid with
  | None => Fail NullDereference
  | Some lock_queue =>
      Ok (Return false, txn,
          set_table_queue lm oid
            {| request_queue_ :=
                 erase_request (GetTransactionId txn) (request_queue_ lock_queue);
               upgrading_ := upgrading_ lock_queue |})
  end.

End LockWait.

(** ** Waits-for graph of the deadlock detector ([lock_manager.cpp]) *)

Module WaitsFor.

(** [waits_for_] and [txn_set_] of the lock manager. *)
Record t : Type := mk {
  waits_for_ : gmap Z (list Z);
  txn_set_ : gset Z
}.

(** [AddEdge(t1, t2)]: [t1] waits for [t2].  An edge that is there already
    makes the function return before [txn_set_.insert(t1)]. *)
Definition AddEdge (t1 t2 : Z) (g : t) : t :=
  match waits_for_ g !! t1 with
  | None =>
      {| waits_for_ := <[t1 := [t2]]> (waits_for_ g);
         txn_set_ := {[t1]} ∪ txn_set_ g |}
  | Some edges =>
      if bool_decide (t2 ∈ edges) then g
      else {| waits_for_ := <[t1 := edges ++ [t2]]> (waits_for_ g);
              txn_set_ := {[t1]} ∪ txn_set_ g |}
  end.

(** The loop of [RemoveEdge]: [erase] at the first element equal to [t2],
    then [break]. *)
Fixpoint erase_first (t2 : Z) (edges : list Z) : list Z :=
  match edges with
  | [] => []
  | x :: rest => if x =? t2 then rest else x :: erase_first t2 rest
  end.

Definition RemoveEdge (t1 t2 : Z) (g : t) : t :=
  match waits_for_ g !! t1 with
  | Some edges =>
      match erase_first t2 edges with
      | [] => {| waits_for_ := delete t1 (waits_for_ g);
                 txn_set_ := txn_set_ g ∖ {[t1]} |}
      | edges' => {| waits_for_ := <[t1 := edges']> (waits_for_ g);
                     txn_set_ := txn_set_ g |}
      end
  | None => g
  end.

(** [GetEdgeList].  The iteration order of the [std::unordered_map] is not
    fixed by the code; [map_to_list] is one order. *)
Definition GetEdgeList (g : t) : list (Z * Z) :=
  map_to_list (waits_for_ g)
    ≫= (fun map_pair => (fun t2 => (fst map_pair, t2)) <$> snd map_pair).

End WaitsFor.

(** ** Copy-on-write trie ([primer/trie.cpp]) *)

Module Trie.

(** A node of the trie.  [TrieNode] and [TrieNodeWithValue<T>] are declared
    in [primer/trie.h], which is not among the sources; the fields are the
    ones [Get], [Put] and [Remove] use: the map [children_] from a [char] to
    the child, and, for a [TrieNodeWithValue<T>], the value.  [value_] is
    [None] for a plain [TrieNode] and carries the type [T] the node was built
    for, which is what [dynamic_cast] looks at; [is_value_node_] is set
    exactly on the nodes with a value.  A [char] is its integer code. *)
#[warnings="-register-all"]
Inductive TrieNode (Ty V : Type) : Type :=
| mkNode (children : gmap Z (TrieNode Ty V)) (value : option (Ty * V)).
Arguments mkNode {Ty V} children value.

Section WithValue.

Context {Ty V : Type} `{EqDecision Ty}.

Local Abbreviation Node := (TrieNode Ty V).

Definition children_ (n : Node) : gmap Z Node :=
  match n with mkNode c _ => c end.
Definition value_ (n : Node) : option (Ty * V) :=
  match n with mkNode _ v => v end.
Definition is_value_node_ (n : Node) : bool :=
  match value_ n with Some _ => true | None => false end.

(** [Clone] copies the node, value included. *)
Definition Clone (n : Node) : Node := mkNode (children_ n) (value_ n).

Record t : Type := mk { root_ : option Node }.

(** [cur_node->children_.find(ch) == end ? nullptr : cur_node->children_.at(ch)] *)
Definition child (n : Node) (ch : Z) : option Node := children_ n !! ch.

(** The walk of [Get]: [while (id < key_size && cur_node)]. *)
Fixpoint Get_walk (key : list Z) (cur_node : option Node) : option Node :=
  match key, cur_node with
  | ch :: key', Some n => Get_walk key' (child n ch)
  | _, _ => cur_node
  end.

(** [Get<T>]: [None] is [nullptr]. *)
Definition Get (T : Ty) (key : list Z) (tr : t) : option V :=
  match Get_walk key (root_ tr) with
  | None => None
  | Some n =>
      match value_ n with
      | Some (T', v) => if decide (T' = T) then Some v else None
      | None => None
      end
  end.

(** The first loop of [Put]: the clones of the nodes on the path, the
    deepest on top of the stack, new nodes where the path ends early. *)
Fixpoint Put_descend (key : list Z) (cur_node : option Node) (st : list Node)
  : option Node * list Node :=
  match key with
  | [] => (cur_node, st)
  | ch :: key' =>
      match cur_node with
      | Some n => Put_descend key' (child n ch) (Clone n :: st)
      | None => Put_descend key' None (mkNode ∅ None :: st)
      end
  end.

(** [key[id]] for a [size_t] index. *)
Definition char_at (key : list Z) (id : Z) : Res Z :=
  match key !! Z.to_nat id with
  | Some ch => Ok ch
  | None => Fail OutOfBounds
  end.

(** The second loop of [Put]: [while (!st.empty()) { ch = key[id--]; ... }]. *)
Fixpoint Put_ascend (key : list Z) (st : list Node) (id : Z) (node : Node)
  : Res Node :=
  match st with
  | [] => Ok node
  | top :: st' =>
      ch ← char_at key id;
      Put_ascend key st' (size_t_wrap (id - 1))
        (mkNode (<[ch := node]> (delete ch (children_ top))) (value_ top))
  end.

Definition Put (T : Ty) (key : list Z) (value : V) (tr : t) : Res t :=
  let '(cur_node, st) := Put_descend key (root_ tr) [] in
  let node :=
    mkNode (match cur_node with Some n => children_ n | None => ∅ end)
           (Some (T, value)) in
  root ← Put_ascend key st (size_t_wrap (Z.of_nat (length key) - 1)) node;
  Ok {| root_ := Some root |}.

(** The first loop of [Remove]: it stops where the path ends. *)
Fixpoint Remove_descend (key : list Z) (cur_node : option Node) (st : list Node)
  : option Node * list Node :=
  match key, cur_node with
  | ch :: key', Some n => Remove_descend key' (child n ch) (Clone n :: st)
  | _, _ => (cur_node, st)
  end.

Fixpoint Remove_ascend (key : list Z) (st : list Node) (id : Z) (node : Node)
  : Res Node :=
  match st with
  | [] => Ok node
  | top :: st' =>
      ch ← char_at key id;
      Remove_ascend key st' (size_t_wrap (id - 1))
        (if bool_decide (children_ node = ∅) && negb (is_value_node_ node)
         then mkNode (delete ch (children_ top)) (value_ top)
         else mkNode (<[ch := node]> (delete ch (children_ top))) (value_ top))
  end.

Definition Remove (key : list Z) (tr : t) : Res t :=
  let '(cur_node, st) := Remove_descend key (root_ tr) [] in
  match cur_node with
  | None => Ok tr
  | Some n =>
      if negb (is_value_node_ n) then Ok tr
      else
        root ← Remove_ascend key st (size_t_wrap (Z.of_nat (length key) - 1))
                 (mkNode (children_ n) None);
        Ok {| root_ := Some root |}
  end.

End WithValue.

End Trie.

(** ** B+Tree leaf page: merging and redistribution

    In the functions that take a second page, the two pages are different
    objects, as in the calls of the tree. *)

Module LeafPageMerge.

Section WithKey.

Context {K V : Type}.

Local Abbreviation Leaf := (LeafPage.t (K:=K) (V:=V)).

(** [for (int i = 0; i < GetSize(); i++)
       recipient->array_[start_index + i] = this->array_[i];] *)
Fixpoint move_all_loop (n : nat) (i start_index : Z) (src dst : Z -> K * V)
  : Z -> K * V :=
  match n with
  | O => dst
  | S n' =>
      move_all_loop n' (i + 1) start_index src
        (LeafPage.store dst (start_index + i) (src i))
  end.

(** [MoveAll]: the page itself and the recipient. *)
Definition MoveAll (p recipient : Leaf) : Leaf * Leaf :=
  let start_index := LeafPage.GetSize recipient in
  let a := move_all_loop (Z.to_nat (LeafPage.GetSize p)) 0 start_index
             (LeafPage.array_ p) (LeafPage.array_ recipient) in
  let r1 := LeafPage.SetNextPageId (LeafPage.SetArray recipient a)
              (LeafPage.GetNextPageId p) in
  let r2 := LeafPage.IncreaseSize r1 (LeafPage.GetSize p) in
  (LeafPage.SetSize p 0, r2).

(** [MoveFrontTo]: the page itself, the page that receives the first entry,
    and the returned key. *)
Definition MoveFrontTo (p page : Leaf) : Leaf * Leaf * K :=
  let pa := LeafPage.store (LeafPage.array_ page) (LeafPage.GetSize page)
              (LeafPage.array_ p 0) in
  let a := LeafPage.shift_left (Z.to_nat (LeafPage.GetSize p - 1)) 0
             (LeafPage.array_ p) in
  let p' := LeafPage.IncreaseSize (LeafPage.SetArray p a) (-1) in
  let page' := LeafPage.IncreaseSize (LeafPage.SetArray page pa) 1 in
  (p', page', fst (LeafPage.array_ p' 0)).

(** [MoveEndTo]: the page itself, the page that receives the last entry, and
    the returned key. *)
Definition MoveEndTo (p page : Leaf) : Leaf * Leaf * K :=
  let pa1 := LeafPage.shift_right (Z.to_nat (LeafPage.GetSize page))
               (LeafPage.GetSize page - 1) (LeafPage.array_ page) in
  let pa2 := LeafPage.store pa1 0 (LeafPage.array_ p (LeafPage.GetSize p - 1)) in
  let p' := LeafPage.IncreaseSize p (-1) in
  let page' := LeafPage.IncreaseSize (LeafPage.SetArray page pa2) 1 in
  (p', page', fst (LeafPage.array_ page' 0)).

End WithKey.

End LeafPageMerge.

(** ** B+Tree internal page *)

Module InternalPage.

Section WithKey.

Context {K : Type}.
Variable comparator_ : K -> K -> Z.

(** [GetMinSize], as for the leaf page: a function of the maximum size. *)
Variable min_size_of : Z -> Z.

(** Slot [i] holds the key and the page id of child [i]; the key of slot 0
    is not used by the search. *)
Record t : Type := mk {
  page_type_ : LeafPage.IndexPageType;
  size_ : Z;
  max_size_ : Z;
  array_ : Z -> K * Z
}.

Definition GetSize (p : t) : Z := size_ p.
Definition GetMaxSize (p : t) : Z := max_size_ p.
Definition GetMinSize (p : t) : Z := min_size_of (max_size_ p).

Definition SetSize (p : t) (n : Z) : t :=
  {| page_type_ := page_type_ p; size_ := n; max_size_ := max_size_ p;
     array_ := array_ p |}.
Definition IncreaseSize (p : t) (n : Z) : t := SetSize p (size_ p + n).
Definition SetArray (p : t) (a : Z -> K * Z) : t :=
  {| page_type_ := page_type_ p; size_ := size_ p; max_size_ := max_size_ p;
     array_ := a |}.

Definition Init (p : t) (max_size : Z) : t :=
  {| page_type_ := LeafPage.INTERNAL_PAGE; size_ := 0; max_size_ := max_size;
     array_ := array_ p |}.

Definition KeyAt (p : t) (index : Z) : K := fst (array_ p index).
Definition ValueAt (p : t) (index : Z) : Z := snd (array_ p index).

(** [array_[index].first = key] *)
Definition set_key (a : Z -> K * Z) (index : Z) (key : K) : Z -> K * Z :=
  LeafPage.store a index (key, snd (a index)).

Definition SetKeyAt (p : t) (index : Z) (key : K) : t :=
  SetArray p (set_key (array_ p) index key).

(** The binary search is the loop of the leaf's [Insert], run over the
    slots from 1 on. *)
Definition GetKeyIndex (p : t) (key : K) : Z :=
  LeafPage.upper_bound_loop comparator_ (Z.to_nat (GetSize p - 1))
    (array_ p) key 1 (GetSize p) - 1.

(** [Split]: the page itself, the new page and the risen key.  The loop runs
    over [min_size, max_size], both ends included. *)
Definition Split (p new_page : t) : t * t * K :=
  let min_size := GetMinSize p in
  let a := LeafPage.copy_upper (Z.to_nat (GetMaxSize p - min_size + 1))
             min_size min_size (array_ p) (array_ new_page) in
  let n' := SetSize (SetArray new_page a) (GetMaxSize p - min_size + 1) in
  let p' := SetSize p min_size in
  (p', n', KeyAt n' 0).

Definition CreatNewRoot (p : t) (key : K) (left_id right_id : Z) : t :=
  let a1 := LeafPage.store (array_ p) 0 (key, left_id) in
  let a2 := LeafPage.store a1 1 (key, right_id) in
  SetSize (SetArray p a2) 2.

Definition Insert (p : t) (key : K) (right_id : Z) : t :=
  let index :=
    LeafPage.upper_bound_loop comparator_ (Z.to_nat (GetSize p - 1))
      (array_ p) key 1 (GetSize p) in
  let a1 := LeafPage.shift_right (Z.to_nat (GetSize p - index))
              (GetSize p - 1) (array_ p) in
  let a2 := LeafPage.store a1 index (key, right_id) in
  IncreaseSize (SetArray p a2) 1.

(** [for (i = 0; i < GetSize(); i++) if (array_[i].second == value) return i;
    return -1;] *)
Fixpoint ValueIndex_loop (n : nat) (i : Z) (a : Z -> K * Z) (value : Z) : Z :=
  match n with
  | O => -1
  | S n' => if snd (a i) =? value then i
            else ValueIndex_loop n' (i + 1) a value
  end.

Definition ValueIndex (p : t) (value : Z) : Z :=
  ValueIndex_loop (Z.to_nat (GetSize p)) 0 (array_ p) value.

(** [MoveAll]: the page itself and the recipient; the [assert] is checked
    against the maximum size of the page itself. *)
Definition MoveAll (p recipient : t) (index : Z) (parent_page : t)
  : Res (t * t) :=
  let start_index := GetSize recipient in
  let p1 := SetKeyAt p 0 (KeyAt parent_page index) in
  let a := LeafPageMerge.move_all_loop (Z.to_nat (GetSize p1)) 0 start_index
             (array_ p1) (array_ recipient) in
  let r1 := IncreaseSize (SetArray recipient a) (GetSize p1) in
  if negb (GetSize r1 <=? GetMaxSize p1) then Fail AssertionViolation
  else Ok (SetSize p1 0, r1).

Definition Remove (p : t) (index : Z) : t :=
  let a := LeafPage.shift_left (Z.to_nat (GetSize p - 1 - index)) index
             (array_ p) in
  IncreaseSize (SetArray p a) (-1).

Definition MoveFrontTo (p page : t) (parent_key : K) : t * t * K :=
  let pa1 := LeafPage.store (array_ page) (GetSize page) (array_ p 0) in
  let pa2 := set_key pa1 (GetSize page) parent_key in
  let a := LeafPage.shift_left (Z.to_nat (GetSize p - 1)) 0 (array_ p) in
  let p' := IncreaseSize (SetArray p a) (-1) in
  let page' := IncreaseSize (SetArray page pa2) 1 in
  (p', page', fst (array_ p' 0)).

Definition MoveEndTo (p page : t) (parent_key : K) : t * t * K :=
  let pa1 := LeafPage.shift_right (Z.to_nat (GetSize page))
               (GetSize page - 1) (array_ page) in
  let pa2 := LeafPage.store pa1 0 (array_ p (GetSize p - 1)) in
  let pa3 := set_key pa2 1 parent_key in
  let p' := IncreaseSize p (-1) in
  let page' := IncreaseSize (SetArray page pa3) 1 in
  (p', page', fst (array_ page' 0)).

End WithKey.

End InternalPage.

(** ** Buffer pool manager: flushing all pages, guarded new pages *)

Module BufferPool.

Import BufferPoolManager.

Section WithData.

Context {Data : Type}.
Variable zero_data : Data.

(** The loop of [FlushAllPages] over the entries [it] of the page table.
    The frame is [pages_[it.first]]: the page id is used as the index. *)
Fixpoint FlushAllPages_loop (its : list (Z * Z)) (b : t (Data:=Data)) : Res t :=
  match its with
  | [] => Ok b
  | it :: rest =>
      page_ptr ← get_page b (fst it);
      let b1 := WritePage b (fst it) (data_ page_ptr) in
      FlushAllPages_loop rest (set_page b1 (fst it) (with_dirty page_ptr false))
  end.

(** The iteration order of the [std::unordered_map] is not fixed by the
    code; [map_to_list] is one order. *)
Definition FlushAllPages (b : t (Data:=Data)) : Res t :=
  FlushAllPages_loop (map_to_list (page_table_ b)) b.

(** [NewPageGuarded].  [page_id] is what [*page_id] holds before the call,
    the second component of the result what it holds afterwards.  The test
    [page_id == nullptr] looks at the pointer, which is not null;
    [page_table_[*page_id]] inserts frame 0 for a page id that is not in the
    table. *)
Definition NewPageGuarded (b : t (Data:=Data)) (page_id : Z)
  : Res (Guard * Z * t) :=
  '(r, b1) ← NewPage zero_data b;
  let page_id' := match r with
                  | Some (new_page_id, _) => new_page_id
                  | None => page_id
                  end in
  let '(f, b2) :=
    match page_table_ b1 !! page_id' with
    | Some f => (f, b1)
    | None => (0, set_page_table b1 (<[page_id' := 0]> (page_table_ b1)))
    end in
  Ok ({| g_bpm_ := true; g_page_ := Some f; g_is_dirty_ := false |},
      page_id', b2).

End WithData.

End BufferPool.

(** ** Page guards ([page_guard.cpp]) *)

Module PageGuard.

Import BufferPoolManager.

(** Releasing a latch that is not held is undefined; the model stops. *)
Definition RUnlatchL (l : Latch) : Res Latch :=
  if 0 <? readers_ l
  then Ok {| readers_ := readers_ l - 1; writer_ := writer_ l |}
  else Fail AssertionViolation.

Definition WUnlatchL (l : Latch) : Res Latch :=
  if writer_ l
  then Ok {| readers_ := readers_ l; writer_ := false |}
  else Fail AssertionViolation.

(** [bpm_ = nullptr; page_ = nullptr;] *)
Definition released (g : Guard) : Guard :=
  {| g_bpm_ := false; g_page_ := None; g_is_dirty_ := g_is_dirty_ g |}.

Section WithData.

Context {Data : Type}.

(** [guard_.page_->RUnlatch()] or [WUnlatch()] under
    [if (guard_.page_ != nullptr)]. *)
Definition unlatch (release : Latch -> Res Latch) (g : Guard)
    (b : t (Data:=Data)) : Res t :=
  match g_page_ g with
  | Some f =>
      p ← get_page b f;
      l ← release (rwlatch_ p);
      Ok (set_page b f (with_latch p l))
  | None => Ok b
  end.

(** [BasicPageGuard::Drop]: the guard afterwards and the pool. *)
Definition BasicDrop (g : Guard) (b : t (Data:=Data)) : Res (Guard * t) :=
  b1 ← DropBasic g b;
  Ok (released g, b1).

(** [ReadPageGuard::Drop] *)
Definition ReadDrop (g : Guard) (b : t (Data:=Data)) : Res (Guard * t) :=
  b1 ← unlatch RUnlatchL g b;
  b2 ← DropBasic g b1;
  Ok (released g, b2).

(** [WritePageGuard::Drop] *)
Definition WriteDrop (g : Guard) (b : t (Data:=Data)) : Res (Guard * t) :=
  b1 ← unlatch WUnlatchL g b;
  b2 ← DropBasic g b1;
  Ok (released g, b2).

(** [BasicPageGuard::operator=(BasicPageGuard &&that)] for two different
    guard objects: the guard itself, [that] afterwards, and the pool.  The
    page of the guard is unpinned through [bpm_] without a test of
    [bpm_]. *)
Definition BasicMoveAssign (this that : Guard) (b : t (Data:=Data))
  : Res (Guard * Guard * t) :=
  b1 ← match g_page_ this with
       | Some f =>
           if g_bpm_ this then
             p ← get_page b f;
             '(_, b1) ← UnpinPage b (page_id_ p) (g_is_dirty_ this);
             Ok b1
           else Fail NullDereference
       | None => Ok b
       end;
  Ok (that, released that, b1).

End WithData.

End PageGuard.

(** ** Vocabulary of the statements *)

Section ReplacerVocabulary.

Import LRUKReplacer.

(** The order in which [Evict] looks at the frames. *)
Definition scan_order (r : LRUKReplacer.t) : list Z :=
  temp_pool_ r ++ map fst (cache_pool_ r).

Definition evictable_in (store : gmap Z LRUKNode) (f : Z) : bool :=
  match store !! f with
  | Some n => GetEvictable n
  | None => false
  end.

Fixpoint count_evictable (store : gmap Z LRUKNode) (l : list Z) : nat :=
  match l with
  | [] => 0
  | f :: l' => (if evictable_in store f then 1 else 0) + count_evictable store l'
  end.

Definition by_kth_timestamp (x y : Z * Z) : Prop := snd x <= snd y.

(** What the operations keep true when K is at least 2. *)
Record Inv (r : LRUKReplacer.t) : Prop := mkInv {
  inv_k : 2 <= k_ r;
  inv_clock : 0 <= current_timestamp_ r;
  inv_nodup : NoDup (scan_order r);
  inv_tracked : forall f, f ∈ scan_order r <-> is_Some (node_store_ r !! f);
  inv_temp_map : forall f, f ∈ temp_pool_map_ r <-> f ∈ temp_pool_ r;
  inv_cache_map : forall f, f ∈ cache_pool_map_ r <-> f ∈ map fst (cache_pool_ r);
  inv_counter :
    evictable_size_ r
    = size_t_wrap (Z.of_nat (count_evictable (node_store_ r) (scan_order r)));
  inv_sorted : StronglySorted by_kth_timestamp (cache_pool_ r);
  inv_nodes : forall f n,
    node_store_ r !! f = Some n ->
    node_k_ n = k_ r /\ Forall (fun ts => 0 < ts) (history_ n);
  inv_young : forall f n,
    f ∈ temp_pool_ r -> node_store_ r !! f = Some n ->
    Z.of_nat (length (history_ n)) < k_ r;
  inv_mature : forall f b n,
    (f, b) ∈ cache_pool_ r -> node_store_ r !! f = Some n ->
    Z.of_nat (length (history_ n)) = k_ r /\ b = List.last (history_ n) 0
}.

(** Taking an evictable frame out of the replacer, as [Evict] does. *)
Definition without_frame (f : Z) (r : LRUKReplacer.t) : LRUKReplacer.t :=
  {| node_store_ := delete f (node_store_ r);
     current_timestamp_ := current_timestamp_ r;
     evictable_size_ := size_t_wrap (evictable_size_ r - 1);
     replacer_size_ := replacer_size_ r; k_ := k_ r;
     temp_pool_ := erase_frame f (temp_pool_ r);
     temp_pool_map_ := temp_pool_map_ r ∖ {[f]};
     cache_pool_ := erase_pair f (cache_pool_ r);
     cache_pool_map_ := cache_pool_map_ r ∖ {[f]} |}.

(** *** States reached from a new replacer *)

(** The states that [RecordAccess], [SetEvictable] and [Evict] lead to from
    a new replacer, as long as the logical clock does not wrap around and
    fewer than [2^64] frames are tracked. *)
Inductive reachable (num_frames k : Z) : LRUKReplacer.t -> Prop :=
| reach_init : reachable num_frames k (init num_frames k)
| reach_access r f r' :
    reachable num_frames k r ->
    current_timestamp_ r + 1 < size_t_max ->
    RecordAccess f r = Ok r' ->
    reachable num_frames k r'
| reach_set r f b r' :
    reachable num_frames k r ->
    SetEvictable f b r = Ok r' ->
    reachable num_frames k r'
| reach_evict r v r' :
    reachable num_frames k r ->
    Z.of_nat (length (scan_order r)) < size_t_max ->
    Evict r = Ok (v, r') ->
    reachable num_frames k r'.

(** The number of accesses a node remembers (at most K) and its oldest
    remembered timestamp. *)
Definition accesses (r : LRUKReplacer.t) (f : Z) : Z :=
  match node_store_ r !! f with
  | Some n => Z.of_nat (length (history_ n))
  | None => 0
  end.

Definition oldest_timestamp (r : LRUKReplacer.t) (f : Z) : Z :=
  match node_store_ r !! f with
  | Some n => List.last (history_ n) 0
  | None => 0
  end.

End ReplacerVocabulary.

Section LockVocabulary.

Import LockManager.

Definition is_intention (m : LockMode) : Prop :=
  m = INTENTION_SHARED \/ m = INTENTION_EXCLUSIVE
  \/ m = SHARED_INTENTION_EXCLUSIVE.

(** The upgrade lattice of the spec, read off [CanLockUpgrade]. *)
Definition in_upgrade_lattice (cur req : LockMode) : Prop :=
  (cur = INTENTION_SHARED
   /\ (req = SHARED \/ req = EXCLUSIVE \/ req = INTENTION_EXCLUSIVE
       \/ req = SHARED_INTENTION_EXCLUSIVE))
  \/ (cur = SHARED /\ (req = EXCLUSIVE \/ req = SHARED_INTENTION_EXCLUSIVE))
  \/ (cur = INTENTION_EXCLUSIVE
      /\ (req = EXCLUSIVE \/ req = SHARED_INTENTION_EXCLUSIVE))
  \/ (cur = SHARED_INTENTION_EXCLUSIVE /\ req = EXCLUSIVE).

End LockVocabulary.

Definition null_guard : BufferPoolManager.Guard :=
  {| BufferPoolManager.g_bpm_ := true; BufferPoolManager.g_page_ := None;
     BufferPoolManager.g_is_dirty_ := false |}.

Section LeafVocabulary.

Context {K V : Type}.
Variable comparator_ : K -> K -> Z.

(** Both binary searches are the same loop over a test of the middle slot. *)
Fixpoint partition_loop (test : Z -> bool) (fuel : nat) (l r : Z) : Z :=
  match fuel with
  | O => l
  | S fuel' =>
      if l <? r then
        let mid := Z.shiftr (l + r) 1 in
        if test mid then partition_loop test fuel' l mid
        else partition_loop test fuel' (mid + 1) r
      else l
  end.

Definition key_at_least (a : Z -> K * V) (key : K) (i : Z) : bool :=
  (0 <? comparator_ (fst (a i)) key) || (comparator_ (fst (a i)) key =? 0).

Definition key_above (a : Z -> K * V) (key : K) (i : Z) : bool :=
  0 <? comparator_ (fst (a i)) key.

(** Keys strictly increase over the slots in use. *)
Definition leaf_sorted (p : LeafPage.t (K:=K) (V:=V)) : Prop :=
  forall i j, 0 <= i -> i < j -> j < LeafPage.size_ p ->
              comparator_ (LeafPage.KeyAt p i) (LeafPage.KeyAt p j) < 0.

Definition leaf_absent (p : LeafPage.t (K:=K) (V:=V)) (key : K) : Prop :=
  forall i, 0 <= i < LeafPage.size_ p -> LeafPage.KeyAt p i <> key.

(** The insert position: the keys in front of it are not above the new key,
    the keys from it on are. *)
Definition leaf_insert_index (p : LeafPage.t (K:=K) (V:=V)) (key : K) : Z :=
  LeafPage.upper_bound_loop comparator_ (Z.to_nat (LeafPage.size_ p))
    (LeafPage.array_ p) key 0 (LeafPage.size_ p).

(** The slot where the point lookups end. *)
Definition leaf_lookup_index (p : LeafPage.t (K:=K) (V:=V)) (key : K) : Z :=
  LeafPage.lower_bound_loop comparator_ (Z.to_nat (LeafPage.size_ p - 1))
    (LeafPage.array_ p) key 0 (LeafPage.size_ p - 1).

End LeafVocabulary.

Section TrieVocabulary.

Context {Ty V : Type}.

(** What [Put] builds below a node for the rest of a key. *)
Fixpoint trie_put_path (key : list Z) (cur : option (Trie.TrieNode Ty V))
    (val : Ty * V) : Trie.TrieNode Ty V :=
  match key with
  | [] =>
      Trie.mkNode (match cur with Some n => Trie.children_ n | None => ∅ end)
        (Some val)
  | ch :: key' =>
      let top := match cur with
                 | Some n => Trie.Clone n
                 | None => Trie.mkNode ∅ None
                 end in
      Trie.mkNode
        (<[ch := trie_put_path key' (cur ≫= fun n => Trie.child n ch) val]>
           (delete ch (Trie.children_ top)))
        (Trie.value_ top)
  end.

Definition trie_node_empty (n : Trie.TrieNode Ty V) : bool :=
  bool_decide (Trie.children_ n = ∅) && negb (Trie.is_value_node_ n).

(** What [Remove] builds from a node for the rest of a key. *)
Fixpoint trie_remove_path (key : list Z) (n : Trie.TrieNode Ty V)
  : Trie.TrieNode Ty V :=
  match key with
  | [] => Trie.mkNode (Trie.children_ n) None
  | ch :: key' =>
      match Trie.child n ch with
      | Some c =>
          let sub := trie_remove_path key' c in
          if trie_node_empty sub
          then Trie.mkNode (delete ch (Trie.children_ n)) (Trie.value_ n)
          else Trie.mkNode (<[ch := sub]> (delete ch (Trie.children_ n)))
                 (Trie.value_ n)
      | None => n
      end
  end.

Definition trie_value_at (key : list Z) (cur : option (Trie.TrieNode Ty V))
  : option (Ty * V) :=
  Trie.Get_walk key cur ≫= Trie.value_.

Definition empty_trie : Trie.t (Ty:=Ty) (V:=V) := {| Trie.root_ := None |}.

End TrieVocabulary.

Section PageVocabulary.

Context {A : Type}.

(** The first [n] slots of an array, in order. *)
Definition slots (a : Z -> A) (n : Z) : list A :=
  (fun i => a (Z.of_nat i)) <$> seq 0 (Z.to_nat n).

End PageVocabulary.

Section InternalVocabulary.

Context {K : Type}.
Variable comparator_ : K -> K -> Z.

Definition internal_entries (p : InternalPage.t (K:=K)) : list (K * Z) :=
  slots (InternalPage.array_ p) (InternalPage.size_ p).

(** The keys of the slots from 1 on strictly increase. *)
Definition internal_sorted (p : InternalPage.t (K:=K)) : Prop :=
  forall i j, 1 <= i -> i < j -> j < InternalPage.size_ p ->
              comparator_ (InternalPage.KeyAt p i) (InternalPage.KeyAt p j) < 0.

End InternalVocabulary.

Section PoolVocabulary.

Import BufferPoolManager.

Context {Data : Type}.

(** What the page table, the free list and the pin counts of a pool satisfy
    between calls: a resident page sits in the frame the table names, a free
    frame holds no resident page and is listed once, and no pin count is
    negative. *)
Record pool_wf (b : t (Data:=Data)) : Prop := mkPoolWf {
  wf_table : forall pid f,
    page_table_ b !! pid = Some f ->
    exists p, get_page b f = Ok p /\ page_id_ p = pid;
  wf_free : forall f,
    f ∈ free_list_ b ->
    (exists p, get_page b f = Ok p)
    /\ forall pid, page_table_ b !! pid <> Some f;
  wf_nodup : NoDup (free_list_ b);
  wf_pins : forall f p, get_page b f = Ok p -> 0 <= pin_count_ p
}.

(** The numbers that index [pages_]. *)
Definition is_frame_number (b : t (Data:=Data)) (i : Z) : Prop :=
  0 <= i < Z.of_nat (length (pages_ b)).

(** [n] calls of [NewPage] in a row, with their results. *)
Fixpoint NewPage_times (zero_data : Data) (n : nat) (b : t (Data:=Data))
  : Res (list (option (Z * Z)) * t) :=
  match n with
  | O => Ok ([], b)
  | S n' =>
      '(r, b1) ← NewPage zero_data b;
      '(rs, b2) ← NewPage_times zero_data n' b1;
      Ok (r :: rs, b2)
  end.

(** The pool after [i] calls of [NewPage] on a new pool of [n] frames. *)
Record fresh_after (zero_data : Data) (n : Z) (i : nat) (b : t (Data:=Data))
  : Prop := mkFreshAfter {
  fa_free : free_list_ b = Z.of_nat <$> seq i (Z.to_nat n - i);
  fa_next : next_page_id_ b = Z.of_nat i;
  fa_len : length (pages_ b) = Z.to_nat n;
  fa_pinned : forall j, (j < i)%nat -> pin_count_ <$> pages_ b !! j = Some 1;
  fa_fresh : forall j, (i <= j < Z.to_nat n)%nat ->
                       pages_ b !! j = Some (fresh_page zero_data);
  fa_size : LRUKReplacer.evictable_size_ (replacer_ b) = 0;
  fa_rsize : LRUKReplacer.replacer_size_ (replacer_ b) = n;
  fa_untracked : forall f, Z.of_nat i <= f ->
                           LRUKReplacer.node_store_ (replacer_ b) !! f = None
}.

End PoolVocabulary.

Section LockAdmissionVocabulary.

Import LockManager.

(** The requests that the checks on state and isolation level of
    [LockTable] let through. *)
Definition lock_admitted (txn : Transaction) (lock_mode : LockMode) : Prop :=
  match GetState txn with
  | GROWING =>
      GetIsolationLevel txn <> READ_UNCOMMITTED
      \/ lock_mode = EXCLUSIVE \/ lock_mode = INTENTION_EXCLUSIVE
  | SHRINKING =>
      GetIsolationLevel txn = READ_COMMITTED
      /\ (lock_mode = SHARED \/ lock_mode = INTENTION_SHARED)
  | COMMITTED | ABORTED => True
  end.

End LockAdmissionVocabulary.

Section WaitsForVocabulary.

Import WaitsFor.

(** What [AddEdge] and [RemoveEdge] keep true of the graph: no transaction
    has an empty or repeating list of edges, and [txn_set_] holds the
    transactions that have edges. *)
Record waits_for_wf (g : WaitsFor.t) : Prop := mkWaitsForWf {
  wfg_nonempty : forall t1 edges, waits_for_ g !! t1 = Some edges -> edges <> [];
  wfg_nodup : forall t1 edges, waits_for_ g !! t1 = Some edges -> NoDup edges;
  wfg_set : forall t1, t1 ∈ txn_set_ g <-> is_Some (waits_for_ g !! t1)
}.

Definition empty_graph : WaitsFor.t :=
  {| waits_for_ := ∅; txn_set_ := ∅ |}.

End WaitsForVocabulary.

(** ** Concrete states used by the examples below *)

Module Examples.

Import LockManager.

(** A sequence of replacer calls, stopping at the first that fails. *)
Definition replay (ops : list (LRUKReplacer.t -> Res LRUKReplacer.t))
    (r : LRUKReplacer.t) : Res LRUKReplacer.t :=
  fold_left (fun acc op => bind acc op) ops (Ok r).

(** Whether the node of a frame is evictable, and its history. *)
Definition node_view (r : LRUKReplacer.t) (f : Z) : option (bool * list Z) :=
  (fun n => (LRUKReplacer.is_evictable_ n, LRUKReplacer.history_ n))
    <$> LRUKReplacer.node_store_ r !! f.

Definition txn_of (id : Z) (st : TransactionState) (iso : IsolationLevel)
  : Transaction :=
  {| txn_id_ := id; state_ := st; isolation_level_ := iso;
     s_table_lock_set_ := ∅; x_table_lock_set_ := ∅;
     is_table_lock_set_ := ∅; ix_table_lock_set_ := ∅;
     six_table_lock_set_ := ∅;
     s_row_lock_set_ := ∅; x_row_lock_set_ := ∅ |}.

Definition no_locks : LockManager.t :=
  {| table_lock_map_ := ∅; row_lock_map_ := ∅ |}.

Definition granted (id : Z) (m : LockMode) (oid : Z) : LockRequest :=
  {| req_txn_id_ := id; lock_mode_ := m; oid_ := oid; rid_ := None;
     granted_ := true |}.

Definition waiting (id : Z) (m : LockMode) (oid : Z) : LockRequest :=
  {| req_txn_id_ := id; lock_mode_ := m; oid_ := oid; rid_ := None;
     granted_ := false |}.

(** Transaction 1 holds S on table 7 (granted when the queue was created). *)
Definition txn1_holding_S : Transaction :=
  TxnTableLockInsert (txn_of 1 GROWING REPEATABLE_READ) SHARED 7.

Definition table7_S : LockManager.t :=
  {| table_lock_map_ :=
       {[ 7 := {| request_queue_ := [granted 1 SHARED 7];
                  upgrading_ := INVALID_TXN_ID |} ]};
     row_lock_map_ := ∅ |}.

(** Table 7 with transactions 2 and 1 holding S and transaction 3 waiting
    for X. *)
Definition table7_busy : LockManager.t :=
  {| table_lock_map_ :=
       {[ 7 := {| request_queue_ :=
                    [granted 2 SHARED 7; granted 1 SHARED 7;
                     waiting 3 EXCLUSIVE 7];
                  upgrading_ := INVALID_TXN_ID |} ]};
     row_lock_map_ := ∅ |}.

(** A pool of three frames of leaf pages with integer keys and values. *)
Definition int_cmp (a b : Z) : Z :=
  if a <? b then -1 else if a =? b then 0 else 1.

Definition blank : Z -> Z * Z := fun _ => (0, 0).

Definition leaf_of_list (l : list (Z * Z)) (max_size next : Z)
  : LeafPage.t (K:=Z) (V:=Z) :=
  {| LeafPage.page_type_ := LeafPage.LEAF_PAGE;
     LeafPage.size_ := Z.of_nat (length l);
     LeafPage.max_size_ := max_size;
     LeafPage.next_page_id_ := next;
     LeafPage.array_ :=
       fun i => if i <? 0 then (0, 0) else nth (Z.to_nat i) l (0, 0) |}.

Definition zero_leaf : LeafPage.t (K:=Z) (V:=Z) :=
  {| LeafPage.page_type_ := LeafPage.INVALID_INDEX_PAGE;
     LeafPage.size_ := 0; LeafPage.max_size_ := 0;
     LeafPage.next_page_id_ := 0; LeafPage.array_ := blank |}.

(** The tree code writes a page through the pointer it got from the pool. *)
Definition write_data {Data} (b : BufferPoolManager.t (Data:=Data)) (f : Z)
    (d : Data) : Res BufferPoolManager.t :=
  p ← BufferPoolManager.get_page b f;
  Ok (BufferPoolManager.set_page b f (BufferPoolManager.with_data p d)).

(** Two chained leaves: page 0 (keys 1, 2) is still pinned once, page 1
    (keys 3, 4) has been unpinned. *)
Definition two_leaves : Res (BufferPoolManager.t (Data:=LeafPage.t)) :=
  '(_, b1) ← BufferPoolManager.NewPage zero_leaf
                (BufferPoolManager.init zero_leaf 3 2);
  '(_, b2) ← BufferPoolManager.NewPage zero_leaf b1;
  b3 ← write_data b2 0 (leaf_of_list [(1, 10); (2, 20)] 4 1);
  b4 ← write_data b3 1 (leaf_of_list [(3, 30); (4, 40)] 4 INVALID_PAGE_ID);
  '(_, b5) ← BufferPoolManager.UnpinPage b4 1 true;
  Ok b5.

Definition pin_counts {Data} (b : BufferPoolManager.t (Data:=Data)) : list Z :=
  BufferPoolManager.pin_count_ <$> BufferPoolManager.pages_ b.

(** [GetMinSize] as the spec has it: the ceiling of half the maximum. *)
Definition half_up (max_size : Z) : Z := (max_size + 1) / 2.

(** A leaf of size 1 holding key 2^33.  The slot in front of the array, which
    lies in the page header, reads as key 2^32 + 1. *)
Definition leaf_header_slot : LeafPage.t (K:=Z) (V:=Z) :=
  {| LeafPage.page_type_ := LeafPage.LEAF_PAGE;
     LeafPage.size_ := 1;
     LeafPage.max_size_ := 4;
     LeafPage.next_page_id_ := INVALID_PAGE_ID;
     LeafPage.array_ :=
       fun i => if i =? -1 then (4294967297, 0)
                else if i =? 0 then (8589934592, 100)
                else (0, 0) |}.

Definition two_leaves_pool : BufferPoolManager.t (Data:=LeafPage.t) :=
  match two_leaves with
  | Ok b => b
  | Fail _ => BufferPoolManager.init zero_leaf 3 2
  end.

(** An iterator on the last slot of page 0. *)
Definition it_last_of_page0 : IndexIterator.t :=
  {| IndexIterator.leaf_page_ := 0; IndexIterator.index_ := 1 |}.

Definition it_first_of_page1 : IndexIterator.t :=
  {| IndexIterator.leaf_page_ := 1; IndexIterator.index_ := 0 |}.

End Examples.

(** Transactions 1 and 5 both hold S on table 7; transaction 5 then asks for
    X, and is aborted while it waits. *)
Module UpgradeExamples.

Import LockManager Examples.

Definition txn5_holding_S : Transaction :=
  TxnTableLockInsert (txn_of 5 GROWING REPEATABLE_READ) SHARED 7.

Definition table7_shared : LockManager.t :=
  {| table_lock_map_ :=
       {[ 7 := {| request_queue_ := [granted 1 SHARED 7; granted 5 SHARED 7];
                  upgrading_ := INVALID_TXN_ID |} ]};
     row_lock_map_ := ∅ |}.

(** Transaction 5 waits for its upgrade. *)
Definition table7_upgrading : LockManager.t :=
  {| table_lock_map_ :=
       {[ 7 := {| request_queue_ := [granted 1 SHARED 7; waiting 5 EXCLUSIVE 7];
                  upgrading_ := 5 |} ]};
     row_lock_map_ := ∅ |}.

Definition txn5_aborted : Transaction :=
  SetState (TxnTableLockDelete txn5_holding_S SHARED 7) ABORTED.

(** The request of transaction 5 is gone, its mark on the queue is not. *)
Definition table7_stale_mark : LockManager.t :=
  {| table_lock_map_ :=
       {[ 7 := {| request_queue_ := [granted 1 SHARED 7]; upgrading_ := 5 |} ]};
     row_lock_map_ := ∅ |}.

End UpgradeExamples.

Module PageExamples.

Import Examples.

Definition internal_of_list (l : list (Z * Z)) (max_size : Z)
  : InternalPage.t (K:=Z) :=
  {| InternalPage.page_type_ := LeafPage.INTERNAL_PAGE;
     InternalPage.size_ := Z.of_nat (length l);
     InternalPage.max_size_ := max_size;
     InternalPage.array_ :=
       fun i => if i <? 0 then (0, 0) else nth (Z.to_nat i) l (0, 0) |}.

(** Children 100, 101 and 102 with the separators 10 and 20. *)
Definition internal_3 : InternalPage.t (K:=Z) :=
  internal_of_list [(0, 100); (10, 101); (20, 102)] 4.

Definition internal_2 : InternalPage.t (K:=Z) :=
  internal_of_list [(0, 200); (40, 201)] 4.

(** The left sibling of [internal_2] and their parent, with children 7 and 8
    and the separator 30. *)
Definition internal_left : InternalPage.t (K:=Z) :=
  internal_of_list [(0, 100); (10, 101)] 4.

Definition internal_parent : InternalPage.t (K:=Z) :=
  internal_of_list [(0, 7); (30, 8)] 4.

Definition leaf_13 : LeafPage.t (K:=Z) (V:=Z) :=
  leaf_of_list [(1, 10); (3, 30)] 4 7.

Definition leaf_57 : LeafPage.t (K:=Z) (V:=Z) :=
  leaf_of_list [(5, 50); (7, 70)] 4 INVALID_PAGE_ID.

End PageExamples.

Module PoolExamples.

Import BufferPoolManager.

(** A pool of two frames holding pages 0 and 1, each pinned once. *)
Definition full_pool : t (Data:=Z) :=
  match NewPage_times 0 2 (init 0 2 2) with
  | Ok (_, b) => b
  | Fail _ => init 0 2 2
  end.

(** The same pool after page 0 was unpinned dirty and page 1 clean; the
    replacer holds frame 0 with the older access. *)
Definition idle_pool : t (Data:=Z) :=
  match ('(_, b1) ← UnpinPage full_pool 0 true;
         '(_, b2) ← UnpinPage b1 1 false;
         Ok b2) with
  | Ok b => b
  | Fail _ => full_pool
  end.

(** A pool of two frames whose only resident page has id 1 and sits in
    frame 0, dirty, holding 42. *)
Definition page1_in_frame0 : t (Data:=Z) :=
  match ('(_, b1) ← FetchPage 0 (init 0 2 2) 1;
         p ← get_page b1 0;
         let b2 := set_page b1 0 (with_data p 42) in
         '(_, b3) ← UnpinPage b2 1 true;
         Ok b3) with
  | Ok b => b
  | Fail _ => init 0 2 2
  end.

End PoolExamples.

Module ReplacerExamples.

Import LRUKReplacer.

(** A replacer for three frames, K = 2: frames 0 and 1 accessed once each,
    frame 0 marked evictable. *)
Definition accessed_0 : LRUKReplacer.t :=
  match RecordAccess 0 (init 3 2) with Ok r => r | Fail _ => init 3 2 end.

Definition accessed_01 : LRUKReplacer.t :=
  match RecordAccess 1 accessed_0 with Ok r => r | Fail _ => accessed_0 end.

Definition one_evictable : LRUKReplacer.t :=
  match SetEvictable 0 true accessed_01 with
  | Ok r => r
  | Fail _ => accessed_01
  end.

End ReplacerExamples.

(** * Properties *)

(** ** Lock manager *)

Section LockManagerProperties.

Import LockManager.

Lemma mode_eqb_eq (a b : LockMode) : mode_eqb a b = true <-> a = b.
Proof. unfold mode_eqb. apply bool_decide_eq_true. Qed.

(** A call that ends in an exception has set the state to ABORTED first. *)
Lemma LockTable_throw_aborted txn m oid lm r txn' lm' :
  LockTable txn m oid lm = Ok (Throw r, txn', lm') -> GetState txn' = ABORTED.
Proof.
  unfold LockTable, abort.
  destruct (LockTable_checks txn m); [intros [= _ <- _]; reflexivity|].
  destruct (table_lock_map_ lm !! oid) as [q|]; [|discriminate].
  unfold request_on_queue.
  destruct (upgrade_scan _ _ _ _); simpl; intros [= ? ? ?]; subst;
    try discriminate; reflexivity.
Qed.

Lemma LockRow_throw_aborted txn m oid rid lm r txn' lm' :
  LockRow txn m oid rid lm = Ok (Throw r, txn', lm') -> GetState txn' = ABORTED.
Proof.
  unfold LockRow, abort.
  destruct (LockRow_checks txn m); [intros [= _ <- _]; reflexivity|].
  destruct (CheckAppropriateLockOnTable txn oid m); simpl;
    [|intros [= _ <- _]; reflexivity].
  destruct (row_lock_map_ lm !! rid) as [q|]; [|discriminate].
  unfold request_on_queue.
  destruct (upgrade_scan _ _ _ _); simpl; intros [= ? ? ?]; subst;
    try discriminate; reflexivity.
Qed.

(** C5, as the claim states it, fails: a row request in an intention mode by
    a SHRINKING transaction under REPEATABLE_READ is not answered with
    LOCK_ON_SHRINKING. *)
Lemma C5_row_intention_counterexample :
  ~ (exists txn' lm',
       LockRow (Examples.txn_of 1 SHRINKING REPEATABLE_READ)
         INTENTION_SHARED 7 (0, 0) Examples.no_locks
       = Ok (Throw LOCK_ON_SHRINKING, txn', lm')).
Proof. intros (txn' & lm' & H). vm_compute in H. discriminate H. Qed.

(** C5 (amended): for a transaction in the SHRINKING state, [LockTable]
    aborts with LOCK_ON_SHRINKING under REPEATABLE_READ, and under
    READ_COMMITTED for X, IX and SIX while S and IS pass the checks; under
    READ_UNCOMMITTED every request aborts.  [LockRow] answers an intention
    mode with ATTEMPTED_INTENTION_LOCK_ON_ROW whatever the isolation level;
    for S and X it aborts with LOCK_ON_SHRINKING under REPEATABLE_READ, and
    under READ_COMMITTED for X while S passes the checks; under
    READ_UNCOMMITTED both abort.  Every abort leaves the transaction in
    state ABORTED and the lock tables as they were. *)
Theorem C5_shrinking_requests (txn : Transaction) (m : LockMode) (oid : Z)
    (rid : RID) (lm : LockManager.t) :
  GetState txn = SHRINKING ->
  (GetIsolationLevel txn = REPEATABLE_READ ->
     LockTable txn m oid lm = Ok (Throw LOCK_ON_SHRINKING, SetState txn ABORTED, lm))
  /\ (GetIsolationLevel txn = READ_COMMITTED ->
      (m = EXCLUSIVE \/ m = INTENTION_EXCLUSIVE \/ m = SHARED_INTENTION_EXCLUSIVE ->
         LockTable txn m oid lm
         = Ok (Throw LOCK_ON_SHRINKING, SetState txn ABORTED, lm))
      /\ (m = SHARED \/ m = INTENTION_SHARED -> LockTable_checks txn m = None))
  /\ (GetIsolationLevel txn = READ_UNCOMMITTED ->
      exists r, LockTable txn m oid lm = Ok (Throw r, SetState txn ABORTED, lm))
  /\ (is_intention m ->
      LockRow txn m oid rid lm
      = Ok (Throw ATTEMPTED_INTENTION_LOCK_ON_ROW, SetState txn ABORTED, lm))
  /\ (~ is_intention m -> GetIsolationLevel txn = REPEATABLE_READ ->
      LockRow txn m oid rid lm
      = Ok (Throw LOCK_ON_SHRINKING, SetState txn ABORTED, lm))
  /\ (GetIsolationLevel txn = READ_COMMITTED ->
      (m = EXCLUSIVE ->
         LockRow txn m oid rid lm
         = Ok (Throw LOCK_ON_SHRINKING, SetState txn ABORTED, lm))
      /\ (m = SHARED -> LockRow_checks txn m = None))
  /\ (~ is_intention m -> GetIsolationLevel txn = READ_UNCOMMITTED ->
      exists r, LockRow txn m oid rid lm = Ok (Throw r, SetState txn ABORTED, lm))
  /\ (forall r txn' lm',
        LockTable txn m oid lm = Ok (Throw r, txn', lm')
        \/ LockRow txn m oid rid lm = Ok (Throw r, txn', lm') ->
        GetState txn' = ABORTED).
Proof.
  intros Hs. unfold is_intention.
  repeat split.
  - intros Hi. unfold LockTable, LockTable_checks, abort. rewrite Hs, Hi.
    reflexivity.
  - intros Hm. unfold LockTable, LockTable_checks, abort. rewrite Hs, H.
    destruct Hm as [-> | [-> | ->]]; reflexivity.
  - intros Hm. unfold LockTable_checks. rewrite Hs, H.
    destruct Hm as [-> | ->]; reflexivity.
  - intros Hi. unfold LockTable, LockTable_checks, abort. rewrite Hs, Hi.
    destruct m; simpl; eexists; reflexivity.
  - intros Hm. unfold LockRow, LockRow_checks, abort.
    destruct Hm as [-> | [-> | ->]]; reflexivity.
  - intros Hm Hi. unfold LockRow, LockRow_checks, abort. rewrite Hs, Hi.
    destruct m; simpl; try reflexivity; exfalso; apply Hm; auto.
  - intros ->. unfold LockRow, LockRow_checks, abort. rewrite Hs, H.
    reflexivity.
  - intros ->. unfold LockRow_checks. rewrite Hs, H. reflexivity.
  - intros Hm Hi. unfold LockRow, LockRow_checks, abort. rewrite Hs, Hi.
    destruct m; simpl; try (eexists; reflexivity); exfalso; apply Hm; auto.
  - intros r txn' lm' [H | H].
    + eapply LockTable_throw_aborted; eassumption.
    + eapply LockRow_throw_aborted; eassumption.
Qed.

Lemma C5_shrinking_requests_witness :
  GetState (Examples.txn_of 1 SHRINKING READ_COMMITTED) = SHRINKING
  /\ LockTable (Examples.txn_of 1 SHRINKING READ_COMMITTED)
       INTENTION_EXCLUSIVE 7 Examples.no_locks
     = Ok (Throw LOCK_ON_SHRINKING,
           SetState (Examples.txn_of 1 SHRINKING READ_COMMITTED) ABORTED,
           Examples.no_locks).
Proof.
  split; [reflexivity|].
  refine (proj1 (proj1 (proj2
    (C5_shrinking_requests (Examples.txn_of 1 SHRINKING READ_COMMITTED)
       INTENTION_EXCLUSIVE 7 (0, 0) Examples.no_locks eq_refl)) eq_refl) _).
  right; left; reflexivity.
Defined.

(** The scan skips the requests of other transactions. *)
Lemma upgrade_scan_skip (id : Z) (m : LockMode) (up : Z)
    (pre rest : list LockRequest) :
  Forall (fun r => req_txn_id_ r <> id) pre ->
  upgrade_scan id m up (pre ++ rest)
  = match upgrade_scan id m up rest with
    | Upgrade o rest' => Upgrade o (pre ++ rest')
    | other => other
    end.
Proof.
  induction 1 as [|r pre Hr _ IH]; simpl.
  - destruct (upgrade_scan id m up rest); reflexivity.
  - destruct (Z.eqb_spec (req_txn_id_ r) id) as [E|_]; [contradiction|].
    rewrite IH. destruct (upgrade_scan id m up rest); reflexivity.
Qed.

Lemma upgrade_scan_held (id : Z) (m : LockMode) (up : Z)
    (pre post : list LockRequest) (held : LockRequest) :
  Forall (fun r => req_txn_id_ r <> id) pre ->
  req_txn_id_ held = id -> granted_ held = true ->
  upgrade_scan id m up (pre ++ held :: post)
  = if mode_eqb (lock_mode_ held) m then SameMode
    else if negb (up =? INVALID_TXN_ID) then Conflict
    else if negb (CanLockUpgrade (lock_mode_ held) m) then Incompatible
    else Upgrade (lock_mode_ held) (pre ++ post).
Proof.
  intros Hpre Hid Hg. rewrite upgrade_scan_skip by assumption. simpl.
  rewrite Hid, Z.eqb_refl, Hg. simpl.
  destruct (mode_eqb (lock_mode_ held) m); [reflexivity|].
  destruct (negb (up =? INVALID_TXN_ID)); [reflexivity|].
  destruct (negb (CanLockUpgrade (lock_mode_ held) m)); reflexivity.
Qed.

(** Where [insert_before_ungranted] puts the request: after the granted
    prefix of the queue, in front of the first request that is not granted. *)
Lemma insert_before_ungranted_spec (new : LockRequest) (q : list LockRequest) :
  exists g u,
    q = g ++ u
    /\ Forall (fun r => granted_ r = true) g
    /\ (match u with [] => True | r :: _ => granted_ r = false end)
    /\ insert_before_ungranted new q = g ++ new :: u.
Proof.
  induction q as [|r q (g & u & -> & Hg & Hu & IH)].
  - exists [], []. repeat split; auto.
  - simpl. destruct (granted_ r) eqn:E; simpl.
    + exists (r :: g), u. rewrite IH. repeat split; auto.
    + exists [], (r :: g ++ u). repeat split; auto.
Qed.

Lemma enqueue_upgrade_queue (new : LockRequest) (id : Z) (q : list LockRequest) :
  enqueue_upgrade new id q
  = {| request_queue_ := insert_before_ungranted new q; upgrading_ := id |}.
Proof. destruct q; reflexivity. Qed.

Lemma set_table_queue_same (lm : LockManager.t) (oid : Z) (q : LockRequestQueue) :
  table_lock_map_ lm !! oid = Some q -> set_table_queue lm oid q = lm.
Proof.
  intros H. destruct lm as [tm rm]. unfold set_table_queue. simpl in *.
  f_equal. apply insert_id. exact H.
Qed.

Lemma set_row_queue_same (lm : LockManager.t) (rid : RID) (q : LockRequestQueue) :
  row_lock_map_ lm !! rid = Some q -> set_row_queue lm rid q = lm.
Proof.
  intros H. destruct lm as [tm rm]. unfold set_row_queue. simpl in *.
  f_equal. apply insert_id. exact H.
Qed.

Lemma CanLockUpgrade_lattice (cur req : LockMode) :
  CanLockUpgrade cur req = true <-> in_upgrade_lattice cur req.
Proof.
  unfold in_upgrade_lattice. split.
  - destruct cur, req; simpl; intros H; try discriminate H; tauto.
  - intros H.
    repeat match goal with
           | H : _ \/ _ |- _ => destruct H
           | H : _ /\ _ |- _ => destruct H
           end; subst; reflexivity.
Qed.




(** The same three outcomes for a row: only S to X is in the lattice. *)
Lemma LockRow_upgrade (txn : Transaction) (lock_mode : LockMode) (oid : Z)
    (rid : RID) (lm : LockManager.t) (q : LockRequestQueue)
    (pre post : list LockRequest) (held : LockRequest) :
  LockRow_checks txn lock_mode = None ->
  CheckAppropriateLockOnTable txn oid lock_mode = true ->
  row_lock_map_ lm !! rid = Some q ->
  request_queue_ q = pre ++ held :: post ->
  Forall (fun r => req_txn_id_ r <> GetTransactionId txn) pre ->
  req_txn_id_ held = GetTransactionId txn ->
  granted_ held = true ->
  lock_mode_ held <> lock_mode ->
  LockRow txn lock_mode oid rid lm
  = if negb (upgrading_ q =? INVALID_TXN_ID)
    then Ok (Throw UPGRADE_CONFLICT, SetState txn ABORTED, lm)
    else if negb (CanLockUpgrade (lock_mode_ held) lock_mode)
    then Ok (Throw INCOMPATIBLE_UPGRADE, SetState txn ABORTED, lm)
    else Ok (Enqueued true,
             TxnRowLockDelete txn (lock_mode_ held) oid rid,
             set_row_queue lm rid
               {| request_queue_ :=
                    insert_before_ungranted
                      {| req_txn_id_ := GetTransactionId txn;
                         lock_mode_ := lock_mode; oid_ := oid;
                         rid_ := Some rid; granted_ := false |}
                      (pre ++ post);
                  upgrading_ := GetTransactionId txn |}).
Proof.
  intros Hc Ht Hq Hreq Hpre Hid Hg Hm.
  assert (Hne : mode_eqb (lock_mode_ held) lock_mode = false).
  { apply not_true_iff_false. rewrite mode_eqb_eq. exact Hm. }
  assert (Hscan := upgrade_scan_held (GetTransactionId txn) lock_mode
                     (upgrading_ q) pre post held Hpre Hid Hg).
  rewrite Hne in Hscan.
  unfold LockRow. rewrite Hc, Ht, Hq. simpl. unfold request_on_queue.
  rewrite Hreq, Hscan.
  destruct (negb (upgrading_ q =? INVALID_TXN_ID)); simpl.
  - rewrite (set_row_queue_same _ _ _ Hq). reflexivity.
  - destruct (negb (CanLockUpgrade (lock_mode_ held) lock_mode)); simpl.
    + rewrite (set_row_queue_same _ _ _ Hq). reflexivity.
    + rewrite enqueue_upgrade_queue. reflexivity.
Qed.

(** C7, as the claim states it, fails: the repeated request does not report
    success. *)
Lemma C7_same_mode_counterexample :
  ~ (exists txn' lm',
       LockTable Examples.txn1_holding_S SHARED 7 Examples.table7_S
       = Ok (Return true, txn', lm')).
Proof. intros (txn' & lm' & H). vm_compute in H. discriminate H. Qed.

(** C7 (amended): when a transaction whose request passes the state and
    isolation checks already has a granted request on the resource and asks
    for the same mode again, [LockTable] and [LockRow] change neither the
    queue nor the transaction (its held locks and its state) and return
    false. *)
Theorem C7_same_mode_request (txn : Transaction) (lock_mode : LockMode)
    (oid : Z) (rid : RID) (lm : LockManager.t) (q : LockRequestQueue)
    (pre post : list LockRequest) (held : LockRequest) :
  request_queue_ q = pre ++ held :: post ->
  Forall (fun r => req_txn_id_ r <> GetTransactionId txn) pre ->
  req_txn_id_ held = GetTransactionId txn ->
  granted_ held = true ->
  lock_mode_ held = lock_mode ->
  (LockTable_checks txn lock_mode = None ->
   table_lock_map_ lm !! oid = Some q ->
   LockTable txn lock_mode oid lm = Ok (Return false, txn, lm))
  /\ (LockRow_checks txn lock_mode = None ->
      CheckAppropriateLockOnTable txn oid lock_mode = true ->
      row_lock_map_ lm !! rid = Some q ->
      LockRow txn lock_mode oid rid lm = Ok (Return false, txn, lm)).
Proof.
  intros Hreq Hpre Hid Hg Hm.
  assert (Hscan := upgrade_scan_held (GetTransactionId txn) lock_mode
                     (upgrading_ q) pre post held Hpre Hid Hg).
  assert (He : mode_eqb (lock_mode_ held) lock_mode = true)
    by (apply mode_eqb_eq; exact Hm).
  rewrite He in Hscan.
  split.
  - intros Hc Hq. unfold LockTable. rewrite Hc, Hq. unfold request_on_queue.
    rewrite Hreq, Hscan. simpl.
    rewrite (set_table_queue_same _ _ _ Hq). reflexivity.
  - intros Hc Ht Hq. unfold LockRow. rewrite Hc, Ht, Hq. simpl.
    unfold request_on_queue. rewrite Hreq, Hscan. simpl.
    rewrite (set_row_queue_same _ _ _ Hq). reflexivity.
Qed.

Lemma C7_same_mode_request_witness :
  LockTable Examples.txn1_holding_S SHARED 7 Examples.table7_S
  = Ok (Return false, Examples.txn1_holding_S, Examples.table7_S).
Proof.
  refine (proj1
    (C7_same_mode_request Examples.txn1_holding_S SHARED 7 (0, 0)
       Examples.table7_S
       {| request_queue_ := [Examples.granted 1 SHARED 7];
          upgrading_ := INVALID_TXN_ID |}
       [] [] (Examples.granted 1 SHARED 7)
       eq_refl _ eq_refl eq_refl eq_refl) eq_refl eq_refl).
  constructor.
Defined.

End LockManagerProperties.

(** ** LRU-K replacer *)

Section ReplacerProperties.

Import LRUKReplacer.

(** [Remove] on a tracked frame whose node is evictable stops at the
    [BUSTUB_ENSURE]. *)
Lemma Remove_evictable_frame (r : LRUKReplacer.t) (f : Z) (n : LRUKNode) :
  node_store_ r !! f = Some n -> GetEvictable n = true ->
  Remove f r = Fail AssertionViolation.
Proof. intros H E. unfold Remove. rewrite H, E. reflexivity. Qed.

(** [Remove] on a tracked frame whose node is not evictable goes through:
    node, history and pool membership are gone and the counter of evictable
    frames is decremented. *)
Lemma Remove_non_evictable_frame (r : LRUKReplacer.t) (f : Z) (n : LRUKNode) :
  node_store_ r !! f = Some n -> GetEvictable n = false ->
  exists r',
    Remove f r = Ok r'
    /\ node_store_ r' = delete f (node_store_ r)
    /\ (f ∉ temp_pool_map_ r') /\ (f ∉ cache_pool_map_ r')
    /\ evictable_size_ r' = size_t_wrap (evictable_size_ r - 1).
Proof.
  intros H E. unfold Remove. rewrite H, E. simpl.
  eexists. split; [reflexivity|]. simpl.
  repeat split; set_solver.
Qed.

(** C8 names a defect: the check in [Remove] is the wrong way round.  On an
    evictable frame the call ends in an assertion violation; on a frame that
    is not evictable it removes the frame's state and decrements the counter
    of evictable frames, here from 0 to [2^64 - 1]. *)
Lemma C8_remove_check_inverted :
  (r1 ← RecordAccess 1 (init 3 2);
   r2 ← SetEvictable 1 true r1;
   Remove 1 r2) = Fail AssertionViolation
  /\ (r1 ← RecordAccess 1 (init 3 2);
      r2 ← Remove 1 r1;
      Ok (Examples.node_view r1 1, Size r1,
          (Examples.node_view r2 1, temp_pool_ r2, Size r2)))
     = Ok (Some (false, [1]), 0, (None, [], 2 ^ 64 - 1)).
Proof. split; vm_compute; reflexivity. Qed.

(** The scenario of the spec: N = 3, K = 2, accesses A, B, C, A, B, C (frames
    1, 2, 3), all marked evictable; three calls of [Evict] give A, B, C. *)
Lemma Evict_scenario_ABC :
  (r ← Examples.replay
         [RecordAccess 1; RecordAccess 2; RecordAccess 3;
          RecordAccess 1; RecordAccess 2; RecordAccess 3;
          SetEvictable 1 true; SetEvictable 2 true; SetEvictable 3 true]
         (init 3 2);
   '(a, r1) ← Evict r;
   '(b, r2) ← Evict r1;
   '(c, r3) ← Evict r2;
   '(d, _) ← Evict r3;
   Ok (cache_pool_ r, [a; b; c; d]))
  = Ok ([(1, 1); (2, 2); (3, 3)], [Some 1; Some 2; Some 3; None]).
Proof. vm_compute. reflexivity. Qed.

(** C3 names a defect.  With K = 1 the first access leaves a frame in the
    young pool although it already has K accesses: frame 1 (last access at
    time 2) sits in the mature pool, frame 2 (only access at time 3) in the
    young pool, and [Evict] takes frame 2, the one with the later K-th
    timestamp.  And after [Remove] on a frame that is not evictable the
    counter of evictable frames is too small, so that [Evict] returns
    nothing while frame 2 is evictable. *)
Lemma C3_evict_order_defects :
  (r ← Examples.replay
         [RecordAccess 1; RecordAccess 1; RecordAccess 2;
          SetEvictable 1 true; SetEvictable 2 true] (init 3 1);
   '(v, _) ← Evict r;
   Ok (temp_pool_ r, cache_pool_ r,
       (Examples.node_view r 1, Examples.node_view r 2), v))
  = Ok ([2], [(1, 2)], (Some (true, [2]), Some (true, [3])), Some 2)
  /\ (r ← Examples.replay
            [RecordAccess 1; RecordAccess 2; SetEvictable 2 true; Remove 1]
            (init 3 2);
      '(v, _) ← Evict r;
      Ok (temp_pool_ r, Examples.node_view r 2, Size r, v))
     = Ok ([2], Some (true, [2]), 0, None).
Proof. split; vm_compute; reflexivity. Qed.

End ReplacerProperties.

(** ** LRU-K replacer: the scan order of [Evict] *)

Section ReplacerInvariant.

Import LRUKReplacer.

(** *** Lists *)

Lemma erase_frame_notin (f : Z) (l : list Z) : f ∉ l -> erase_frame f l = l.
Proof.
  induction l as [|x l IH]; simpl; [reflexivity|]. intros H.
  apply not_elem_of_cons in H as [Hx Hl].
  destruct (Z.eqb_spec x f); [congruence|]. rewrite IH by assumption. reflexivity.
Qed.

Lemma erase_frame_perm (f : Z) (l : list Z) :
  f ∈ l -> l ≡ₚ f :: erase_frame f l.
Proof.
  induction l as [|x l IH]; simpl; intros H; [inversion H|].
  destruct (Z.eqb_spec x f) as [->|Hne]; [reflexivity|].
  apply elem_of_cons in H as [H|H]; [congruence|].
  rewrite (IH H) at 1. apply Permutation_swap.
Qed.

Lemma erase_pair_notin (f : Z) (l : list (Z * Z)) :
  f ∉ map fst l -> erase_pair f l = l.
Proof.
  induction l as [|x l IH]; simpl; [reflexivity|]. intros H.
  apply not_elem_of_cons in H as [Hx Hl].
  destruct (Z.eqb_spec (fst x) f); [congruence|].
  rewrite IH by assumption. reflexivity.
Qed.

Lemma erase_pair_perm (f : Z) (l : list (Z * Z)) :
  f ∈ map fst l -> exists b, (f, b) ∈ l /\ l ≡ₚ (f, b) :: erase_pair f l.
Proof.
  induction l as [|[g c] l IH]; simpl; intros H; [inversion H|].
  destruct (Z.eqb_spec g f) as [->|Hne].
  - exists c. split; [left | reflexivity].
  - apply elem_of_cons in H as [H|H]; [congruence|].
    destruct (IH H) as (b & Hb & Hp). exists b. split; [right; exact Hb|].
    rewrite Hp at 1. apply Permutation_swap.
Qed.

Lemma erase_pair_sublist (f : Z) (l : list (Z * Z)) :
  erase_pair f l `sublist_of` l.
Proof.
  induction l as [|x l IH]; simpl; [constructor|].
  destruct (fst x =? f); [apply sublist_cons; reflexivity|].
  apply sublist_skip. exact IH.
Qed.

Lemma StronglySorted_sublist_of {A} (R : relation A) (l k : list A) :
  l `sublist_of` k -> StronglySorted R k -> StronglySorted R l.
Proof.
  induction 1 as [|x l k Hs IH|x l k Hs IH]; intros Hk.
  - constructor.
  - apply StronglySorted_cons in Hk as [Hx Hk].
    apply StronglySorted_cons. split; [|apply IH; exact Hk].
    eapply Forall_forall. intros y Hy.
    eapply Forall_forall in Hx; [exact Hx|].
    eapply elem_of_sublist; eassumption.
  - apply StronglySorted_cons in Hk as [_ Hk]. apply IH. exact Hk.
Qed.

Lemma insert_upper_bound_perm (p : Z * Z) (l : list (Z * Z)) :
  insert_upper_bound p l ≡ₚ p :: l.
Proof.
  induction l as [|x l IH]; simpl; [reflexivity|].
  destruct (snd p <? snd x); [reflexivity|].
  rewrite IH. apply Permutation_swap.
Qed.

Lemma insert_upper_bound_sorted (p : Z * Z) (l : list (Z * Z)) :
  StronglySorted by_kth_timestamp l ->
  StronglySorted by_kth_timestamp (insert_upper_bound p l).
Proof.
  induction l as [|x l IH]; simpl; intros H.
  - repeat constructor.
  - apply StronglySorted_cons in H as [Hx Hl].
    destruct (Z.ltb_spec (snd p) (snd x)) as [Hlt|Hge].
    + apply StronglySorted_cons. split.
      * constructor; [unfold by_kth_timestamp; lia|].
        eapply Forall_impl; [exact Hx|]. unfold by_kth_timestamp.
        intros y Hy. lia.
      * apply StronglySorted_cons. split; assumption.
    + apply StronglySorted_cons. split; [|apply IH; exact Hl].
      eapply Forall_forall. intros y Hy.
      rewrite insert_upper_bound_perm in Hy.
      apply elem_of_cons in Hy as [->|Hy]; [exact Hge|].
      eapply Forall_forall in Hx; [exact Hx | exact Hy].
Qed.

(** *** Counting the evictable frames *)

Lemma count_evictable_app store l1 l2 :
  count_evictable store (l1 ++ l2)
  = (count_evictable store l1 + count_evictable store l2)%nat.
Proof. induction l1 as [|x l1 IH]; simpl; [reflexivity|]. rewrite IH. lia. Qed.

Lemma count_evictable_perm store l1 l2 :
  l1 ≡ₚ l2 -> count_evictable store l1 = count_evictable store l2.
Proof.
  induction 1; simpl; try lia.
Qed.

Lemma count_evictable_ext store store' l :
  (forall f, f ∈ l -> evictable_in store' f = evictable_in store f) ->
  count_evictable store' l = count_evictable store l.
Proof.
  induction l as [|x l IH]; simpl; intros H; [reflexivity|].
  rewrite H by left. rewrite IH; [reflexivity|].
  intros f Hf. apply H. right. exact Hf.
Qed.

Lemma count_evictable_zero store l :
  count_evictable store l = 0%nat <-> forall f, f ∈ l -> evictable_in store f = false.
Proof.
  induction l as [|x l IH]; simpl.
  - split; [intros _ f Hf; inversion Hf | reflexivity].
  - destruct (evictable_in store x) eqn:E.
    + split; [discriminate|]. intros H. specialize (H x ltac:(left)). congruence.
    + simpl. rewrite IH. split.
      * intros H f Hf. apply elem_of_cons in Hf as [->|Hf]; auto.
      * intros H f Hf. apply H. right. exact Hf.
Qed.

Lemma count_evictable_le store l : (count_evictable store l <= length l)%nat.
Proof.
  induction l as [|x l IH]; simpl; [lia|].
  destruct (evictable_in store x); lia.
Qed.

(** The scan of [Evict] over frames that all have a node finds the first
    evictable one. *)
Lemma scan_find store l :
  (forall f, f ∈ l -> is_Some (store !! f)) ->
  scan store l = Ok (find (evictable_in store) l).
Proof.
  induction l as [|x l IH]; simpl; intros H; [reflexivity|].
  destruct (H x ltac:(left)) as [n Hn]. unfold evictable_in at 1. rewrite Hn.
  destruct (GetEvictable n); [reflexivity|].
  apply IH. intros f Hf. apply H. right. exact Hf.
Qed.

Lemma find_app_l {A} (P : A -> bool) (l1 l2 : list A) :
  find P (l1 ++ l2)
  = match find P l1 with Some x => Some x | None => find P l2 end.
Proof.
  induction l1 as [|x l1 IH]; simpl; [reflexivity|].
  destruct (P x); [reflexivity | exact IH].
Qed.

Lemma find_elem {A} (P : A -> bool) (l : list A) (x : A) :
  find P l = Some x -> x ∈ l /\ P x = true.
Proof.
  induction l as [|y l IH]; simpl; [discriminate|].
  destruct (P y) eqn:E.
  - intros [= ->]. split; [left | exact E].
  - intros H. destruct (IH H). split; [right|]; assumption.
Qed.

Lemma find_none_all {A} (P : A -> bool) (l : list A) :
  find P l = None -> forall x, x ∈ l -> P x = false.
Proof.
  induction l as [|y l IH]; simpl; intros H x Hx; [inversion Hx|].
  destruct (P y) eqn:E; [discriminate|].
  apply elem_of_cons in Hx as [->|Hx]; [exact E | apply IH; assumption].
Qed.

Lemma erase_frame_sublist (f : Z) (l : list Z) : erase_frame f l `sublist_of` l.
Proof.
  induction l as [|x l IH]; simpl; [constructor|].
  destruct (x =? f); [apply sublist_cons; reflexivity|].
  apply sublist_skip. exact IH.
Qed.

Lemma elem_of_erase_frame (f g : Z) (l : list Z) :
  NoDup l -> g ∈ erase_frame f l <-> g ∈ l /\ g <> f.
Proof.
  induction 1 as [|x l Hx Hl IH]; simpl.
  - split; [intros H; inversion H | intros [H _]; inversion H].
  - destruct (Z.eqb_spec x f) as [->|Hne].
    + rewrite elem_of_cons. split.
      * intros H. split; [right; exact H|]. intros ->. contradiction.
      * intros [[->|H] Hg]; [contradiction | exact H].
    + rewrite !elem_of_cons, IH. split.
      * intros [->|[H Hg]]; [split; [left; reflexivity | exact Hne]|].
        split; [right; exact H | exact Hg].
      * intros [[->|H] Hg]; [left; reflexivity | right; split; assumption].
Qed.

Lemma erase_frame_app_l (f : Z) (l1 l2 : list Z) :
  f ∈ l1 -> erase_frame f (l1 ++ l2) = erase_frame f l1 ++ l2.
Proof.
  induction l1 as [|x l1 IH]; simpl; intros H; [inversion H|].
  destruct (Z.eqb_spec x f); [reflexivity|].
  apply elem_of_cons in H as [H|H]; [congruence|]. rewrite IH by assumption.
  reflexivity.
Qed.

Lemma erase_frame_app_r (f : Z) (l1 l2 : list Z) :
  f ∉ l1 -> erase_frame f (l1 ++ l2) = l1 ++ erase_frame f l2.
Proof.
  induction l1 as [|x l1 IH]; simpl; intros H; [reflexivity|].
  apply not_elem_of_cons in H as [Hx H].
  destruct (Z.eqb_spec x f); [congruence|]. rewrite IH by assumption.
  reflexivity.
Qed.

Lemma erase_frame_app_r_or_l (f : Z) (l1 l2 : list Z) :
  NoDup (l1 ++ l2) ->
  erase_frame f (l1 ++ l2) = erase_frame f l1 ++ erase_frame f l2.
Proof.
  intros Hnd. destruct (decide (f ∈ l1)) as [Hin|Hnin].
  - rewrite erase_frame_app_l by assumption. f_equal. symmetry.
    apply erase_frame_notin. apply NoDup_app in Hnd as (_ & Hd & _).
    apply Hd. exact Hin.
  - rewrite erase_frame_app_r by assumption.
    rewrite (erase_frame_notin f l1) by assumption. reflexivity.
Qed.

Lemma map_fst_erase_pair (f : Z) (l : list (Z * Z)) :
  map fst (erase_pair f l) = erase_frame f (map fst l).
Proof.
  induction l as [|x l IH]; simpl; [reflexivity|].
  destruct (fst x =? f); [reflexivity|]. simpl. rewrite IH. reflexivity.
Qed.

Lemma elem_of_map_fst (f : Z) (l : list (Z * Z)) :
  f ∈ map fst l <-> exists b, (f, b) ∈ l.
Proof.
  induction l as [|[g c] l IH]; simpl.
  - split; [intros H; inversion H | intros [b H]; inversion H].
  - rewrite elem_of_cons, IH. split.
    + intros [->|[b H]]; [exists c; left | exists b; right; exact H].
    + intros [b H]. apply elem_of_cons in H as [[= -> ->]|H];
        [left; reflexivity | right; exists b; exact H].
Qed.

Lemma count_evictable_delete store (f : Z) (l : list Z) :
  NoDup l -> f ∈ l -> evictable_in store f = true ->
  S (count_evictable (delete f store) (erase_frame f l)) = count_evictable store l.
Proof.
  induction 1 as [|x l Hx Hl IH]; simpl; intros Hf He; [inversion Hf|].
  destruct (Z.eqb_spec x f) as [->|Hne].
  - rewrite He. simpl. f_equal. apply count_evictable_ext.
    intros g Hg. unfold evictable_in. rewrite lookup_delete_ne; [reflexivity|].
    intros ->. contradiction.
  - apply elem_of_cons in Hf as [Hf|Hf]; [congruence|]. simpl.
    rewrite <- (IH Hf He).
    replace (evictable_in (delete f store) x) with (evictable_in store x); [lia|].
    unfold evictable_in. rewrite lookup_delete_ne by congruence. reflexivity.
Qed.

Lemma size_t_wrap_pred (a : Z) : size_t_wrap (size_t_wrap a - 1) = size_t_wrap (a - 1).
Proof. unfold size_t_wrap. apply Zminus_mod_idemp_l. Qed.

Lemma size_t_wrap_succ (a : Z) : size_t_wrap (size_t_wrap a + 1) = size_t_wrap (a + 1).
Proof. unfold size_t_wrap. apply Zplus_mod_idemp_l. Qed.

Lemma size_t_wrap_small (a : Z) : 0 <= a < size_t_max -> size_t_wrap a = a.
Proof. intros H. unfold size_t_wrap. apply Z.mod_small. exact H. Qed.

Lemma scan_order_without_frame (f : Z) (r : LRUKReplacer.t) :
  NoDup (scan_order r) ->
  scan_order (without_frame f r) = erase_frame f (scan_order r).
Proof.
  intros Hnd. unfold scan_order. simpl. rewrite map_fst_erase_pair.
  destruct (decide (f ∈ temp_pool_ r)) as [Hin|Hnin].
  - rewrite erase_frame_app_l by assumption. f_equal.
    apply erase_frame_notin. apply NoDup_app in Hnd as (_ & Hd & _).
    apply Hd. exact Hin.
  - rewrite erase_frame_app_r by assumption.
    rewrite (erase_frame_notin f (temp_pool_ r)) by assumption. reflexivity.
Qed.

Lemma Inv_without_frame (f : Z) (r : LRUKReplacer.t) :
  Inv r -> f ∈ scan_order r -> evictable_in (node_store_ r) f = true ->
  Inv (without_frame f r).
Proof.
  intros I Hf He. pose proof (inv_nodup r I) as Hnd.
  pose proof (scan_order_without_frame f r Hnd) as Hso.
  assert (HndT : NoDup (temp_pool_ r))
    by (apply NoDup_app in Hnd as (? & _ & _); assumption).
  assert (HndC : NoDup (map fst (cache_pool_ r)))
    by (apply NoDup_app in Hnd as (_ & _ & ?); assumption).
  constructor.
  - exact (inv_k r I).
  - exact (inv_clock r I).
  - rewrite Hso. eapply sublist_NoDup; [exact Hnd | apply erase_frame_sublist].
  - intros g. rewrite Hso, elem_of_erase_frame by assumption.
    rewrite (inv_tracked r I). simpl.
    destruct (decide (g = f)) as [->|Hne].
    + rewrite lookup_delete_eq. split; [intros [_ H]; congruence|].
      intros [x Hx]. discriminate.
    + rewrite lookup_delete_ne by congruence. tauto.
  - intros g. simpl. rewrite elem_of_erase_frame by assumption.
    rewrite <- (inv_temp_map r I). set_solver.
  - intros g. simpl. rewrite map_fst_erase_pair, elem_of_erase_frame by assumption.
    rewrite <- (inv_cache_map r I). set_solver.
  - simpl. rewrite Hso, (inv_counter r I), size_t_wrap_pred.
    rewrite <- (count_evictable_delete _ f (scan_order r) Hnd Hf He).
    f_equal. lia.
  - simpl. eapply StronglySorted_sublist_of;
      [apply erase_pair_sublist | exact (inv_sorted r I)].
  - intros g n. simpl. intros Hg.
    apply lookup_delete_Some in Hg as [_ Hg]. exact (inv_nodes r I g n Hg).
  - intros g n. simpl. intros Hg Hn.
    apply lookup_delete_Some in Hn as [_ Hn].
    apply (inv_young r I g n); [|exact Hn].
    eapply elem_of_sublist; [exact Hg | apply erase_frame_sublist].
  - intros g b n. simpl. intros Hg Hn.
    apply lookup_delete_Some in Hn as [_ Hn].
    apply (inv_mature r I g b n); [|exact Hn].
    eapply elem_of_sublist; [exact Hg | apply erase_pair_sublist].
Qed.

Lemma counter_nonzero (r : LRUKReplacer.t) (f : Z) :
  Inv r -> Z.of_nat (length (scan_order r)) < size_t_max ->
  f ∈ scan_order r -> evictable_in (node_store_ r) f = true ->
  (evictable_size_ r =? 0) = false.
Proof.
  intros I Hlen Hin He. apply Z.eqb_neq. rewrite (inv_counter r I).
  pose proof (count_evictable_le (node_store_ r) (scan_order r)).
  rewrite size_t_wrap_small by lia.
  intros Hz.
  assert (Hz' : count_evictable (node_store_ r) (scan_order r) = 0%nat) by lia.
  rewrite count_evictable_zero in Hz'. rewrite Hz' in He by assumption.
  discriminate.
Qed.

(** [Evict] on a state that satisfies the invariant: the first evictable
    frame in scan order, young pool first, is returned and its state is
    deleted; nothing is returned when no frame is evictable. *)
Theorem Evict_first_evictable (r : LRUKReplacer.t) :
  Inv r -> Z.of_nat (length (scan_order r)) < size_t_max ->
  match find (evictable_in (node_store_ r)) (scan_order r) with
  | Some f =>
      Evict r = Ok (Some f, without_frame f r)
      /\ scan_order (without_frame f r) = erase_frame f (scan_order r)
      /\ Inv (without_frame f r)
  | None => Evict r = Ok (None, r)
  end.
Proof.
  intros I Hlen. pose proof (inv_nodup r I) as Hnd.
  assert (Hnodes : forall f, f ∈ scan_order r -> is_Some (node_store_ r !! f))
    by (intros f; apply (inv_tracked r I)).
  assert (HT : scan (node_store_ r) (temp_pool_ r)
               = Ok (find (evictable_in (node_store_ r)) (temp_pool_ r))).
  { apply scan_find. intros f Hf. apply Hnodes. unfold scan_order.
    apply elem_of_app. left. exact Hf. }
  assert (HC : scan (node_store_ r) (map fst (cache_pool_ r))
               = Ok (find (evictable_in (node_store_ r)) (map fst (cache_pool_ r)))).
  { apply scan_find. intros f Hf. apply Hnodes. unfold scan_order.
    apply elem_of_app. right. exact Hf. }
  assert (Hfind : find (evictable_in (node_store_ r)) (scan_order r)
                  = match find (evictable_in (node_store_ r)) (temp_pool_ r) with
                    | Some x => Some x
                    | None => find (evictable_in (node_store_ r))
                                (map fst (cache_pool_ r))
                    end) by apply find_app_l.
  rewrite Hfind. unfold Evict. rewrite HT, HC. clear Hfind HT HC.
  destruct (find (evictable_in (node_store_ r)) (temp_pool_ r)) as [f|] eqn:Et.
  - apply find_elem in Et as [Hin He].
    assert (Hso : f ∈ scan_order r) by (apply elem_of_app; left; exact Hin).
    rewrite (counter_nonzero r f I Hlen Hso He). simpl.
    assert (HnC : f ∉ map fst (cache_pool_ r)).
    { apply NoDup_app in Hnd as (_ & Hd & _). apply Hd. exact Hin. }
    split; [|split; [apply scan_order_without_frame; exact Hnd
                    | apply Inv_without_frame; assumption]].
    unfold without_frame. rewrite (erase_pair_notin f) by assumption.
    do 3 f_equal. rewrite <- (inv_cache_map r I) in HnC. set_solver.
  - destruct (find (evictable_in (node_store_ r)) (map fst (cache_pool_ r)))
      as [f|] eqn:Ec.
    + apply find_elem in Ec as [Hin He].
      assert (Hso : f ∈ scan_order r) by (apply elem_of_app; right; exact Hin).
      rewrite (counter_nonzero r f I Hlen Hso He). simpl.
      assert (HnT : f ∉ temp_pool_ r).
      { apply NoDup_app in Hnd as (_ & Hd & _). intros HT'.
        exact (Hd f HT' Hin). }
      split; [|split; [apply scan_order_without_frame; exact Hnd
                      | apply Inv_without_frame; assumption]].
      unfold without_frame. rewrite (erase_frame_notin f) by assumption.
      do 3 f_equal. rewrite <- (inv_temp_map r I) in HnT. set_solver.
    + destruct (evictable_size_ r =? 0); reflexivity.
Qed.

Lemma count_evictable_flip store store' (f : Z) (l : list Z) :
  NoDup l -> f ∈ l ->
  (forall g, g <> f -> evictable_in store' g = evictable_in store g) ->
  evictable_in store f = false -> evictable_in store' f = true ->
  count_evictable store' l = S (count_evictable store l).
Proof.
  induction 1 as [|x l Hx Hl IH]; simpl; intros Hf Hext H0 H1; [inversion Hf|].
  destruct (decide (x = f)) as [->|Hne].
  - rewrite H0, H1. simpl. f_equal. apply count_evictable_ext.
    intros g Hg. apply Hext. intros ->. contradiction.
  - apply elem_of_cons in Hf as [Hf|Hf]; [congruence|].
    rewrite (Hext x Hne), (IH Hf Hext H0 H1). lia.
Qed.

(** Replacing the node of a tracked frame by one with the same history. *)
Lemma Inv_set_flag (r : LRUKReplacer.t) (f : Z) (n : LRUKNode) (b : bool) (c : Z) :
  Inv r -> node_store_ r !! f = Some n ->
  c = size_t_wrap
        (Z.of_nat (count_evictable
                     (<[f := SetEvictableNode b n]> (node_store_ r))
                     (scan_order r))) ->
  Inv {| node_store_ := <[f := SetEvictableNode b n]> (node_store_ r);
         current_timestamp_ := current_timestamp_ r;
         evictable_size_ := c;
         replacer_size_ := replacer_size_ r; k_ := k_ r;
         temp_pool_ := temp_pool_ r; temp_pool_map_ := temp_pool_map_ r;
         cache_pool_ := cache_pool_ r; cache_pool_map_ := cache_pool_map_ r |}.
Proof.
  intros I Hn Hc.
  assert (Hlook : forall g m,
            <[f := SetEvictableNode b n]> (node_store_ r) !! g = Some m ->
            exists m', node_store_ r !! g = Some m'
                       /\ history_ m = history_ m' /\ node_k_ m = node_k_ m').
  { intros g m. destruct (decide (f = g)) as [<-|Hne].
    - rewrite lookup_insert_eq. intros [= <-]. exists n. auto.
    - rewrite lookup_insert_ne by assumption. intros H. exists m. auto. }
  constructor; simpl.
  - exact (inv_k r I).
  - exact (inv_clock r I).
  - exact (inv_nodup r I).
  - intros g. change (g ∈ scan_order r <->
      is_Some (<[f := SetEvictableNode b n]> (node_store_ r) !! g)).
    rewrite (inv_tracked r I), lookup_insert_is_Some.
    split; [intros H; destruct (decide (f = g)); auto|].
    intros [<-|[_ H]]; [eexists; exact Hn | exact H].
  - exact (inv_temp_map r I).
  - exact (inv_cache_map r I).
  - exact Hc.
  - exact (inv_sorted r I).
  - intros g m Hm. destruct (Hlook g m Hm) as (m' & Hm' & -> & ->).
    exact (inv_nodes r I g m' Hm').
  - intros g m Hg Hm. destruct (Hlook g m Hm) as (m' & Hm' & -> & _).
    exact (inv_young r I g m' Hg Hm').
  - intros g c' m Hg Hm. destruct (Hlook g m Hm) as (m' & Hm' & -> & _).
    exact (inv_mature r I g c' m' Hg Hm').
Qed.

Lemma SetEvictable_Inv (r : LRUKReplacer.t) (f : Z) (b : bool) :
  Inv r -> frame_in_range f r = true ->
  exists r', SetEvictable f b r = Ok r' /\ Inv r' /\ scan_order r' = scan_order r.
Proof.
  intros I Hr. unfold SetEvictable. rewrite Hr. simpl.
  destruct (node_store_ r !! f) as [n|] eqn:Hn; [|exists r; auto].
  assert (Hin : f ∈ scan_order r) by (apply (inv_tracked r I); eexists; exact Hn).
  assert (Hext : forall g, g <> f ->
            evictable_in (<[f := SetEvictableNode b n]> (node_store_ r)) g
            = evictable_in (node_store_ r) g).
  { intros g Hg. unfold evictable_in. rewrite lookup_insert_ne by congruence.
    reflexivity. }
  assert (Hf' : evictable_in (<[f := SetEvictableNode b n]> (node_store_ r)) f = b).
  { unfold evictable_in. rewrite lookup_insert_eq. reflexivity. }
  assert (Hf : evictable_in (node_store_ r) f = GetEvictable n).
  { unfold evictable_in. rewrite Hn. reflexivity. }
  destruct (GetEvictable n) eqn:En, b; simpl; try (exists r; auto; fail).
  - eexists. split; [reflexivity|]. split; [|reflexivity].
    apply Inv_set_flag; [assumption..|].
    rewrite (inv_counter r I), size_t_wrap_pred. f_equal.
    rewrite (count_evictable_flip
               (<[f := SetEvictableNode false n]> (node_store_ r))
               (node_store_ r) f (scan_order r) (inv_nodup r I) Hin);
      try assumption; [lia|].
    intros g Hg. symmetry. apply Hext. exact Hg.
  - eexists. split; [reflexivity|]. split; [|reflexivity].
    apply Inv_set_flag; [assumption..|].
    rewrite (inv_counter r I), size_t_wrap_succ. f_equal.
    rewrite (count_evictable_flip (node_store_ r)
               (<[f := SetEvictableNode true n]> (node_store_ r))
               f (scan_order r) (inv_nodup r I) Hin); try assumption. lia.
Qed.

(** *** [RecordAccess] *)

Lemma last_positive (l : list Z) :
  Forall (fun ts => 0 < ts) l -> l <> [] -> 0 < List.last l 0.
Proof.
  induction 1 as [|x l Hx Hl IH]; intros Hne; [congruence|].
  destruct l as [|y l]; [exact Hx|].
  change (0 < List.last (y :: l) 0). apply IH. discriminate.
Qed.

Lemma PushFront_evictable_in store (f : Z) (n : LRUKNode) (ts : Z) :
  store !! f = Some n ->
  forall g, evictable_in (<[f := PushFront ts n]> store) g = evictable_in store g.
Proof.
  intros Hn g. unfold evictable_in. destruct (decide (f = g)) as [<-|Hne].
  - rewrite lookup_insert_eq, Hn. reflexivity.
  - rewrite lookup_insert_ne by assumption. reflexivity.
Qed.

Lemma PushFront_history_positive (n : LRUKNode) (ts : Z) :
  0 < ts -> Forall (fun t => 0 < t) (history_ n) ->
  Forall (fun t => 0 < t) (history_ (PushFront ts n)).
Proof.
  intros Hts Hh. simpl. apply Forall_take. constructor; assumption.
Qed.

Lemma PushFront_history_short (n : LRUKNode) (ts : Z) :
  Z.of_nat (length (history_ n)) < node_k_ n ->
  history_ (PushFront ts n) = ts :: history_ n.
Proof.
  intros H. simpl. apply take_ge. simpl. lia.
Qed.

Lemma PushFront_history_full (n : LRUKNode) (ts : Z) :
  0 <= node_k_ n -> Z.of_nat (length (history_ n)) = node_k_ n ->
  Z.of_nat (length (history_ (PushFront ts n))) = node_k_ n.
Proof.
  intros Hk H. simpl. rewrite length_take. simpl. lia.
Qed.

Lemma tracked_insert (r : LRUKReplacer.t) (f : Z) (n n' : LRUKNode) :
  Inv r -> node_store_ r !! f = Some n ->
  forall g, g ∈ scan_order r <-> is_Some (<[f := n']> (node_store_ r) !! g).
Proof.
  intros I Hn g. rewrite (inv_tracked r I), lookup_insert_is_Some.
  split; [intros H; destruct (decide (f = g)); auto|].
  intros [<-|[_ H]]; [eexists; exact Hn | exact H].
Qed.

(** First access to a frame: a node is made and joins the young pool. *)
Lemma RecordAccess_new_Inv (r : LRUKReplacer.t) (f ts : Z) :
  Inv r -> node_store_ r !! f = None -> 0 < ts ->
  Inv {| node_store_ := <[f := PushFront ts (NewNode (k_ r) f)]> (node_store_ r);
         current_timestamp_ := ts;
         evictable_size_ := evictable_size_ r;
         replacer_size_ := replacer_size_ r; k_ := k_ r;
         temp_pool_ := temp_pool_ r ++ [f];
         temp_pool_map_ := {[f]} ∪ temp_pool_map_ r;
         cache_pool_ := cache_pool_ r;
         cache_pool_map_ := cache_pool_map_ r |}.
Proof.
  intros I Hn Hts. pose proof (inv_k r I) as Hk.
  assert (Hnin : f ∉ scan_order r).
  { rewrite (inv_tracked r I), Hn. intros [x Hx]. discriminate. }
  assert (Hperm : (temp_pool_ r ++ [f]) ++ map fst (cache_pool_ r)
                  ≡ₚ f :: scan_order r).
  { unfold scan_order. rewrite <- app_assoc. simpl.
    symmetry. apply Permutation_middle. }
  assert (Hhist : history_ (PushFront ts (NewNode (k_ r) f)) = [ts]).
  { apply (PushFront_history_short (NewNode (k_ r) f)). simpl. lia. }
  assert (Hlook : forall g m,
            <[f := PushFront ts (NewNode (k_ r) f)]> (node_store_ r) !! g = Some m ->
            g <> f -> node_store_ r !! g = Some m).
  { intros g m H Hg. rewrite lookup_insert_ne in H by congruence. exact H. }
  constructor; unfold scan_order; simpl.
  - exact Hk.
  - lia.
  - rewrite Hperm. apply NoDup_cons. split; [exact Hnin | exact (inv_nodup r I)].
  - intros g. rewrite Hperm, elem_of_cons, (inv_tracked r I),
      lookup_insert_is_Some.
    split.
    + intros [->|H]; [left; reflexivity|].
      destruct (decide (f = g)); [left; assumption | right; auto].
    + intros [<-|[_ H]]; [left; reflexivity | right; exact H].
  - intros g. rewrite elem_of_union, elem_of_singleton, elem_of_app,
      list_elem_of_singleton, (inv_temp_map r I). tauto.
  - exact (inv_cache_map r I).
  - rewrite (inv_counter r I). f_equal. f_equal.
    rewrite (count_evictable_perm _ _ _ Hperm). simpl.
    unfold evictable_in at 1. rewrite lookup_insert_eq. simpl.
    symmetry. apply count_evictable_ext. intros g Hg.
    unfold evictable_in. rewrite lookup_insert_ne; [reflexivity|].
    intros ->. contradiction.
  - exact (inv_sorted r I).
  - intros g m Hm. destruct (decide (g = f)) as [->|Hne].
    + rewrite lookup_insert_eq in Hm. injection Hm as <-.
      split; [reflexivity|]. rewrite Hhist. repeat constructor. exact Hts.
    + exact (inv_nodes r I g m (Hlook g m Hm Hne)).
  - intros g m Hg Hm. destruct (decide (g = f)) as [->|Hne].
    + rewrite lookup_insert_eq in Hm. injection Hm as <-.
      rewrite Hhist. simpl. lia.
    + apply elem_of_app in Hg as [Hg|Hg].
      * exact (inv_young r I g m Hg (Hlook g m Hm Hne)).
      * apply list_elem_of_singleton in Hg. contradiction.
  - intros g b m Hg Hm.
    assert (Hne : g <> f).
    { intros ->. apply Hnin. apply elem_of_app. right.
      apply elem_of_map_fst. exists b. exact Hg. }
    exact (inv_mature r I g b m Hg (Hlook g m Hm Hne)).
Qed.

(** A later access to a young frame that still has fewer than K accesses. *)
Lemma RecordAccess_young_Inv (r : LRUKReplacer.t) (f ts : Z) (n : LRUKNode) :
  Inv r -> node_store_ r !! f = Some n -> f ∈ temp_pool_ r -> 0 < ts ->
  BackK (PushFront ts n) = 0 ->
  Inv {| node_store_ := <[f := PushFront ts n]> (node_store_ r);
         current_timestamp_ := ts;
         evictable_size_ := evictable_size_ r;
         replacer_size_ := replacer_size_ r; k_ := k_ r;
         temp_pool_ := temp_pool_ r; temp_pool_map_ := temp_pool_map_ r;
         cache_pool_ := cache_pool_ r; cache_pool_map_ := cache_pool_map_ r |}.
Proof.
  intros I Hn Hin Hts Hb. pose proof (inv_k r I) as Hk.
  destruct (inv_nodes r I f n Hn) as [Hnk Hpos].
  pose proof (inv_young r I f n Hin Hn) as Hlen.
  assert (Hhist : history_ (PushFront ts n) = ts :: history_ n)
    by (apply PushFront_history_short; lia).
  assert (Hshort : Z.of_nat (length (history_ (PushFront ts n))) < k_ r).
  { destruct (Z.eq_dec (Z.of_nat (length (history_ (PushFront ts n)))) (k_ r))
      as [E|E]; [|rewrite Hhist in *; simpl in *; lia].
    exfalso. unfold BackK in Hb. change (node_k_ (PushFront ts n)) with (node_k_ n) in Hb.
    rewrite Hnk in Hb. apply Z.eqb_eq in E. rewrite E in Hb.
    assert (0 < List.last (history_ (PushFront ts n)) 0); [|lia].
    apply last_positive; [|rewrite Hhist; discriminate].
    apply PushFront_history_positive; assumption. }
  assert (Hlook : forall g m,
            <[f := PushFront ts n]> (node_store_ r) !! g = Some m ->
            g <> f -> node_store_ r !! g = Some m).
  { intros g m H Hg. rewrite lookup_insert_ne in H by congruence. exact H. }
  constructor; simpl.
  - exact Hk.
  - lia.
  - exact (inv_nodup r I).
  - apply (tracked_insert r f n _ I Hn).
  - exact (inv_temp_map r I).
  - exact (inv_cache_map r I).
  - rewrite (inv_counter r I). f_equal. f_equal. symmetry.
    apply count_evictable_ext. intros g _. apply PushFront_evictable_in. exact Hn.
  - exact (inv_sorted r I).
  - intros g m Hm. destruct (decide (g = f)) as [->|Hne].
    + rewrite lookup_insert_eq in Hm. injection Hm as <-.
      split; [exact Hnk | apply PushFront_history_positive; assumption].
    + exact (inv_nodes r I g m (Hlook g m Hm Hne)).
  - intros g m Hg Hm. destruct (decide (g = f)) as [->|Hne].
    + rewrite lookup_insert_eq in Hm. injection Hm as <-. exact Hshort.
    + exact (inv_young r I g m Hg (Hlook g m Hm Hne)).
  - intros g b m Hg Hm.
    assert (Hne : g <> f).
    { intros ->. pose proof (inv_nodup r I) as Hnd.
      apply NoDup_app in Hnd as (_ & Hd & _). apply (Hd f Hin).
      apply elem_of_map_fst. exists b. exact Hg. }
    exact (inv_mature r I g b m Hg (Hlook g m Hm Hne)).
Qed.

(** The access that gives a young frame its K-th timestamp, and any access
    to a mature frame: the frame is put into the mature pool at its place by
    K-th timestamp. *)
Lemma RecordAccess_to_cache_Inv (r : LRUKReplacer.t) (f ts : Z) (n : LRUKNode) :
  Inv r -> node_store_ r !! f = Some n -> 0 < ts ->
  Z.of_nat (length (history_ (PushFront ts n))) = k_ r ->
  Inv {| node_store_ := <[f := PushFront ts n]> (node_store_ r);
         current_timestamp_ := ts;
         evictable_size_ := evictable_size_ r;
         replacer_size_ := replacer_size_ r; k_ := k_ r;
         temp_pool_ := erase_frame f (temp_pool_ r);
         temp_pool_map_ := temp_pool_map_ r ∖ {[f]};
         cache_pool_ :=
           insert_upper_bound (f, BackK (PushFront ts n))
             (erase_pair f (cache_pool_ r));
         cache_pool_map_ := {[f]} ∪ cache_pool_map_ r |}.
Proof.
  intros I Hn Hts Hfull. pose proof (inv_k r I) as Hk.
  pose proof (inv_nodup r I) as Hnd.
  destruct (inv_nodes r I f n Hn) as [Hnk Hpos].
  assert (HndT : NoDup (temp_pool_ r))
    by (apply NoDup_app in Hnd as (? & _ & _); assumption).
  assert (HndC : NoDup (map fst (cache_pool_ r)))
    by (apply NoDup_app in Hnd as (_ & _ & ?); assumption).
  assert (Hin : f ∈ scan_order r) by (apply (inv_tracked r I); eexists; exact Hn).
  assert (Hso : erase_frame f (temp_pool_ r)
                ++ map fst (insert_upper_bound (f, BackK (PushFront ts n))
                              (erase_pair f (cache_pool_ r)))
                ≡ₚ scan_order r).
  { change (map fst) with (fmap (M:=list) (@fst Z Z)).
    rewrite insert_upper_bound_perm. simpl.
    change (fmap (M:=list) (@fst Z Z)) with (map (@fst Z Z)).
    rewrite map_fst_erase_pair, <- Permutation_middle.
    rewrite <- erase_frame_app_r_or_l by exact Hnd.
    symmetry. apply erase_frame_perm. exact Hin. }
  assert (Hlook : forall g m,
            <[f := PushFront ts n]> (node_store_ r) !! g = Some m ->
            g <> f -> node_store_ r !! g = Some m).
  { intros g m H Hg. rewrite lookup_insert_ne in H by congruence. exact H. }
  constructor; unfold scan_order; simpl.
  - exact Hk.
  - lia.
  - rewrite Hso. exact Hnd.
  - intros g. rewrite Hso. apply (tracked_insert r f n _ I Hn).
  - intros g. rewrite elem_of_erase_frame by assumption.
    rewrite <- (inv_temp_map r I). set_solver.
  - intros g. change (map fst) with (fmap (M:=list) (@fst Z Z)).
    rewrite insert_upper_bound_perm. simpl.
    change (fmap (M:=list) (@fst Z Z)) with (map (@fst Z Z)).
    rewrite map_fst_erase_pair, elem_of_cons, elem_of_erase_frame by assumption.
    rewrite elem_of_union, elem_of_singleton, (inv_cache_map r I).
    destruct (decide (g = f)); tauto.
  - rewrite (inv_counter r I). f_equal. f_equal.
    rewrite (count_evictable_perm _ _ _ Hso). symmetry.
    apply count_evictable_ext. intros g _. apply PushFront_evictable_in. exact Hn.
  - apply insert_upper_bound_sorted.
    eapply StronglySorted_sublist_of;
      [apply erase_pair_sublist | exact (inv_sorted r I)].
  - intros g m Hm. destruct (decide (g = f)) as [->|Hne].
    + rewrite lookup_insert_eq in Hm. injection Hm as <-.
      split; [exact Hnk | apply PushFront_history_positive; assumption].
    + exact (inv_nodes r I g m (Hlook g m Hm Hne)).
  - intros g m Hg Hm. apply elem_of_erase_frame in Hg as [Hg Hne]; [|assumption].
    exact (inv_young r I g m Hg (Hlook g m Hm Hne)).
  - intros g b m Hg Hm. rewrite insert_upper_bound_perm in Hg.
    apply elem_of_cons in Hg as [[= -> ->]|Hg].
    + rewrite lookup_insert_eq in Hm. injection Hm as <-.
      split; [exact Hfull|]. unfold BackK.
      change (node_k_ (PushFront ts n)) with (node_k_ n).
      rewrite Hnk. apply Z.eqb_eq in Hfull. rewrite Hfull. reflexivity.
    + assert (Hne : g <> f).
      { assert (Hg' : g ∈ map fst (erase_pair f (cache_pool_ r)))
          by (apply elem_of_map_fst; exists b; exact Hg).
        rewrite map_fst_erase_pair in Hg'.
        apply elem_of_erase_frame in Hg' as [_ Hg']; assumption. }
      apply (inv_mature r I g b m); [|exact (Hlook g m Hm Hne)].
      eapply elem_of_sublist; [exact Hg | apply erase_pair_sublist].
Qed.

Lemma RecordAccess_Inv (r : LRUKReplacer.t) (f : Z) :
  Inv r -> frame_in_range f r = true ->
  current_timestamp_ r + 1 < size_t_max ->
  exists r', RecordAccess f r = Ok r' /\ Inv r'.
Proof.
  intros I Hr Hclock. pose proof (inv_clock r I) as H0.
  pose proof (inv_nodup r I) as Hnd.
  unfold RecordAccess. rewrite Hr. simpl.
  rewrite size_t_wrap_small by lia.
  assert (Hts : 0 < current_timestamp_ r + 1) by lia.
  destruct (node_store_ r !! f) as [n|] eqn:Hn.
  2: { eexists. split; [reflexivity|]. apply RecordAccess_new_Inv; assumption. }
  destruct (inv_nodes r I f n Hn) as [Hnk Hpos].
  assert (Hin : f ∈ scan_order r) by (apply (inv_tracked r I); eexists; exact Hn).
  destruct (decide (f ∈ temp_pool_map_ r)) as [Ht|Ht].
  - apply (inv_temp_map r I) in Ht.
    destruct (BackK (PushFront (current_timestamp_ r + 1) n) =? 0) eqn:Eb; simpl.
    + eexists. split; [reflexivity|].
      apply (RecordAccess_young_Inv r f _ n); try assumption.
      apply Z.eqb_eq. exact Eb.
    + eexists. split; [reflexivity|].
      assert (HnC : f ∉ map fst (cache_pool_ r)).
      { apply NoDup_app in Hnd as (_ & Hd & _). apply Hd. exact Ht. }
      rewrite <- (erase_pair_notin f (cache_pool_ r)) at 1 by assumption.
      apply (RecordAccess_to_cache_Inv r f _ n); try assumption.
      apply Z.eqb_neq in Eb. unfold BackK in Eb.
      destruct (Z.eqb_spec
                  (Z.of_nat (length (history_ (PushFront (current_timestamp_ r + 1) n))))
                  (node_k_ (PushFront (current_timestamp_ r + 1) n))) as [E|E];
        [|congruence].
      rewrite E. exact Hnk.
  - assert (HnT : f ∉ temp_pool_ r) by (rewrite <- (inv_temp_map r I); exact Ht).
    assert (HC : f ∈ map fst (cache_pool_ r)).
    { unfold scan_order in Hin. apply elem_of_app in Hin as [Hin|Hin];
        [contradiction | exact Hin]. }
    destruct (decide (f ∈ cache_pool_map_ r)) as [Hc|Hc];
      [|exfalso; apply Hc; apply (inv_cache_map r I); exact HC].
    eexists. split; [reflexivity|].
    rewrite <- (erase_frame_notin f (temp_pool_ r)) at 1 by assumption.
    replace (temp_pool_map_ r) with (temp_pool_map_ r ∖ {[f]}) at 1 by set_solver.
    apply (RecordAccess_to_cache_Inv r f _ n); try assumption.
    apply elem_of_map_fst in HC as [b Hb].
    destruct (inv_mature r I f b n Hb Hn) as [Hlen _].
    rewrite <- Hnk. apply PushFront_history_full; lia.
Qed.

Lemma init_Inv (num_frames k : Z) : 2 <= k -> Inv (init num_frames k).
Proof.
  intros Hk. constructor; unfold scan_order; simpl; try done.
  - constructor.
  - intros f. rewrite lookup_empty. split; [intros H; inversion H|].
    intros [x Hx]. discriminate.
  - intros f. set_solver.
  - intros f. set_solver.
  - constructor.
Qed.

Theorem reachable_Inv (num_frames k : Z) (r : LRUKReplacer.t) :
  2 <= k -> reachable num_frames k r -> Inv r.
Proof.
  intros Hk. induction 1 as [|r f r' _ IH Hc Hacc|r f b r' _ IH Hset
                            |r v r' _ IH Hlen Hev].
  - apply init_Inv. exact Hk.
  - assert (Hr : frame_in_range f r = true).
    { unfold RecordAccess in Hacc. destruct (frame_in_range f r);
        [reflexivity | discriminate]. }
    destruct (RecordAccess_Inv r f IH Hr Hc) as (r'' & Hacc' & I').
    congruence.
  - assert (Hr : frame_in_range f r = true).
    { unfold SetEvictable in Hset. destruct (frame_in_range f r);
        [reflexivity | discriminate]. }
    destruct (SetEvictable_Inv r f b IH Hr) as (r'' & Hset' & I' & _).
    congruence.
  - pose proof (Evict_first_evictable r IH Hlen) as Hspec.
    destruct (find (evictable_in (node_store_ r)) (scan_order r)) as [f|].
    + destruct Hspec as (He & _ & I'). rewrite He in Hev.
      injection Hev as _ <-. exact I'.
    + rewrite Hspec in Hev. injection Hev as _ <-. exact IH.
Qed.

Lemma RecordAccess_k (r r' : LRUKReplacer.t) (f : Z) :
  RecordAccess f r = Ok r' -> k_ r' = k_ r.
Proof.
  unfold RecordAccess. destruct (negb (frame_in_range f r)); [discriminate|].
  destruct (node_store_ r !! f); [|intros [= <-]; reflexivity].
  destruct (decide (f ∈ temp_pool_map_ r)).
  - destruct (negb _); intros [= <-]; reflexivity.
  - destruct (decide (f ∈ cache_pool_map_ r)); [|discriminate].
    intros [= <-]; reflexivity.
Qed.

Lemma SetEvictable_k (r r' : LRUKReplacer.t) (f : Z) (b : bool) :
  SetEvictable f b r = Ok r' -> k_ r' = k_ r.
Proof.
  unfold SetEvictable. destruct (negb (frame_in_range f r)); [discriminate|].
  destruct (node_store_ r !! f); [|intros [= <-]; reflexivity].
  destruct (GetEvictable l && negb b); [intros [= <-]; reflexivity|].
  destruct (negb (GetEvictable l) && b); intros [= <-]; reflexivity.
Qed.

Lemma Evict_k (r r' : LRUKReplacer.t) (v : option Z) :
  Evict r = Ok (v, r') -> k_ r' = k_ r.
Proof.
  unfold Evict. destruct (evictable_size_ r =? 0); [intros [= _ <-]; reflexivity|].
  destruct (scan (node_store_ r) (temp_pool_ r)) as [[f|]|]; simpl;
    [intros [= _ <-]; reflexivity | | discriminate].
  destruct (scan (node_store_ r) (map fst (cache_pool_ r))) as [[f|]|]; simpl;
    [intros [= _ <-]; reflexivity | intros [= _ <-]; reflexivity | discriminate].
Qed.

(** For K >= 2, in every state reached without [Remove]: the young pool
    holds the tracked frames with fewer than K accesses, the mature pool the
    frames with K remembered accesses together with their K-th most recent
    timestamp, in ascending order of that timestamp; [Evict] returns the
    first evictable frame of the young pool, else of the mature pool, and
    deletes its state; it returns nothing exactly when no tracked frame is
    evictable. *)
Theorem Evict_on_reachable (num_frames k : Z) (r : LRUKReplacer.t) :
  2 <= k -> reachable num_frames k r ->
  Z.of_nat (length (scan_order r)) < size_t_max ->
  (forall f, f ∈ temp_pool_ r -> accesses r f < k)
  /\ (forall f b, (f, b) ∈ cache_pool_ r ->
                  accesses r f = k /\ b = oldest_timestamp r f)
  /\ StronglySorted by_kth_timestamp (cache_pool_ r)
  /\ match find (evictable_in (node_store_ r)) (scan_order r) with
     | Some f =>
         Evict r = Ok (Some f, without_frame f r)
         /\ node_store_ (without_frame f r) !! f = None
         /\ scan_order (without_frame f r) = erase_frame f (scan_order r)
     | None => Evict r = Ok (None, r)
     end.
Proof.
  intros Hk Hreach Hlen. pose proof (reachable_Inv _ _ _ Hk Hreach) as I.
  assert (Hkr : k_ r = k).
  { clear -Hreach. induction Hreach as [|r f r' _ IH _ Hacc|r f b r' _ IH Hset
                                        |r v r' _ IH _ Hev]; [reflexivity|..].
    - rewrite <- IH. eapply RecordAccess_k; eassumption.
    - rewrite <- IH. eapply SetEvictable_k; eassumption.
    - rewrite <- IH. eapply Evict_k; eassumption. }
  split; [|split; [|split]].
  - intros f Hf. unfold accesses.
    assert (Hs : is_Some (node_store_ r !! f)).
    { apply (inv_tracked r I). apply elem_of_app. left. exact Hf. }
    destruct Hs as [n Hn]. rewrite Hn, <- Hkr. exact (inv_young r I f n Hf Hn).
  - intros f b Hf. unfold accesses, oldest_timestamp.
    assert (Hs : is_Some (node_store_ r !! f)).
    { apply (inv_tracked r I). apply elem_of_app. right.
      apply elem_of_map_fst. exists b. exact Hf. }
    destruct Hs as [n Hn]. rewrite Hn, <- Hkr. exact (inv_mature r I f b n Hf Hn).
  - exact (inv_sorted r I).
  - pose proof (Evict_first_evictable r I Hlen) as Hspec.
    destruct (find (evictable_in (node_store_ r)) (scan_order r)) as [f|];
      [|exact Hspec].
    destruct Hspec as (He & Hso & _). split; [exact He|]. split; [|exact Hso].
    simpl. apply lookup_delete_eq.
Qed.

End ReplacerInvariant.

(** ** Buffer pool manager *)

Section BufferPoolProperties.

Import BufferPoolManager.

Context {Data : Type}.
Variable zero_data : Data.

Lemma get_page_lookup (b : t (Data:=Data)) (f : Z) (p : Page) :
  get_page b f = Ok p <-> 0 <= f /\ pages_ b !! Z.to_nat f = Some p.
Proof.
  unfold get_page. destruct (Z.ltb_spec f 0).
  - split; [discriminate | lia].
  - destruct (pages_ b !! Z.to_nat f) eqn:E.
    + split; [intros [= ->]; auto | intros [_ [= ->]]; reflexivity].
    + split; [discriminate | intros [_ [=]]].
Qed.

Lemma get_page_set_page (b : t (Data:=Data)) (f : Z) (p p' : Page) :
  get_page b f = Ok p -> get_page (set_page b f p') f = Ok p'.
Proof.
  rewrite !get_page_lookup. intros [H0 H]. split; [assumption|].
  simpl. apply list_lookup_insert_eq. eapply lookup_lt_Some; eassumption.
Qed.

Lemma pin_counts_set_page (b : t (Data:=Data)) (f : Z) (p p' : Page) :
  get_page b f = Ok p -> pin_count_ p' = pin_count_ p ->
  pin_count_ <$> pages_ (set_page b f p') = pin_count_ <$> pages_ b.
Proof.
  rewrite get_page_lookup. intros [_ H] E. simpl.
  rewrite list_fmap_insert, E.
  apply list_insert_id. rewrite list_lookup_fmap, H. reflexivity.
Qed.

(** What [UnpinPage] does to a resident, pinned page: one pin less, the
    dirty flag overwritten with the argument, the frame made evictable when
    the last pin goes. *)
Lemma UnpinPage_resident (b : t (Data:=Data)) (page_id f : Z) (p : Page)
    (is_dirty : bool) :
  page_table_ b !! page_id = Some f ->
  get_page b f = Ok p ->
  0 < pin_count_ p ->
  LRUKReplacer.frame_in_range f (replacer_ b) = true ->
  exists r,
    (if pin_count_ p =? 1
     then LRUKReplacer.SetEvictable f true (replacer_ b) = Ok r
     else r = replacer_ b)
    /\ UnpinPage b page_id is_dirty
       = Ok (true,
             set_page (set_replacer (set_page b f
                         (with_pin_count p (pin_count_ p - 1))) r) f
               (with_dirty (with_pin_count p (pin_count_ p - 1)) is_dirty)).
Proof.
  intros Ht Hp Hpin Hr. unfold UnpinPage. rewrite Ht, Hp. simpl.
  destruct (Z.leb_spec (pin_count_ p) 0); [lia|].
  destruct (Z.eqb_spec (pin_count_ p - 1) 0) as [E|E].
  - replace (pin_count_ p =? 1) with true by (symmetry; apply Z.eqb_eq; lia).
    unfold LRUKReplacer.SetEvictable. rewrite Hr. simpl.
    destruct (LRUKReplacer.node_store_ (replacer_ b) !! f) as [n|];
      [|eexists; split; reflexivity].
    destruct (LRUKReplacer.GetEvictable n); simpl;
      eexists; split; reflexivity.
  - replace (pin_count_ p =? 1) with false by (symmetry; apply Z.eqb_neq; lia).
    eexists; split; reflexivity.
Qed.

(** C10: for a page that is not in the page table, [FetchPageRead] and
    [FetchPageWrite] return a guard without a page and leave the pool as it
    was (no disk call, no latch, no pin), whereas [FetchPage], given a free
    frame, reads the page from disk into that frame and pins it. *)
Theorem C10_fetch_guard_of_absent_page (b : t (Data:=Data)) (page_id : Z) :
  page_table_ b !! page_id = None ->
  FetchPageRead zero_data b page_id = Ok (null_guard, b)
  /\ FetchPageWrite zero_data b page_id = Ok (null_guard, b)
  /\ (forall f rest p,
        free_list_ b = f :: rest ->
        get_page b f = Ok p ->
        LRUKReplacer.frame_in_range f (replacer_ b) = true ->
        LRUKReplacer.node_store_ (replacer_ b) !! f = None ->
        exists b',
          FetchPage zero_data b page_id = Ok (Some f, b')
          /\ disk_log_ b' = disk_log_ b ++ [ReadPageOp page_id]
          /\ page_table_ b' = <[page_id := f]> (page_table_ b)
          /\ get_page b' f
             = Ok {| data_ := default zero_data (disk_ b !! page_id);
                     page_id_ := page_id;
                     pin_count_ := pin_count_ p + 1;
                     is_dirty_ := is_dirty_ p;
                     rwlatch_ := rwlatch_ p |}).
Proof.
  intros Hn. split; [|split].
  - unfold FetchPageRead. rewrite Hn. reflexivity.
  - unfold FetchPageWrite. rewrite Hn. reflexivity.
  - intros f rest p Hfl Hp Hr Hs.
    unfold FetchPage. rewrite Hn, Hfl. simpl.
    unfold pick_frame. rewrite Hfl. simpl.
    assert (Hp1 : get_page (set_free_list b rest) f = Ok p) by exact Hp.
    rewrite Hp1. simpl.
    unfold LRUKReplacer.RecordAccess. simpl.
    unfold LRUKReplacer.frame_in_range in *. simpl. rewrite Hr. simpl.
    rewrite Hs. simpl.
    unfold LRUKReplacer.SetEvictable, LRUKReplacer.frame_in_range. simpl.
    rewrite Hr. simpl. rewrite lookup_insert_eq. simpl.
    eexists. split; [reflexivity|]. simpl.
    repeat split.
    apply get_page_lookup in Hp as [H0 Hl].
    apply get_page_lookup. split; [assumption|]. simpl.
    rewrite list_insert_insert_eq.
    apply list_lookup_insert_eq.
    eapply lookup_lt_Some; eassumption.
Qed.

End BufferPoolProperties.

Section BufferPoolExamples.

Import BufferPoolManager.

(** C4 names a defect: in a pool where page 0 is pinned twice and dirty,
    [UnpinPage(0, false)] keeps the page pinned and clears its dirty
    flag. *)
Lemma C4_unpin_clears_dirty :
  ('(_, b1) ← NewPage 0 (init 0 2 2);
   '(_, b2) ← FetchPage 0 b1 0;
   p2 ← get_page (Data:=Z) b2 0;
   '(_, b3) ← UnpinPage b2 0 true;
   p3 ← get_page b3 0;
   '(ok, b4) ← UnpinPage b3 0 false;
   p4 ← get_page b4 0;
   Ok (pin_count_ p2, (pin_count_ p3, is_dirty_ p3),
       (ok, pin_count_ p4, is_dirty_ p4)))
  = Ok (2, (1, true), (true, 0, false)).
Proof. vm_compute. reflexivity. Qed.

Lemma C10_fetch_guard_of_absent_page_witness :
  FetchPageRead (Data:=Z) 0 (init 0 2 2) 5 = Ok (null_guard, init 0 2 2)
  /\ exists b',
       FetchPage (Data:=Z) 0 (init 0 2 2) 5 = Ok (Some 0, b')
       /\ disk_log_ b' = [ReadPageOp 5].
Proof.
  destruct (C10_fetch_guard_of_absent_page (Data:=Z) 0 (init 0 2 2) 5 eq_refl)
    as (HR & _ & HF).
  split; [exact HR|].
  destruct (HF 0 [1] (fresh_page 0) eq_refl eq_refl eq_refl eq_refl)
    as (b' & H1 & H2 & _).
  exists b'. split; [exact H1 | exact H2].
Defined.

End BufferPoolExamples.

(** ** Index iterator *)

Section IteratorProperties.

Import BufferPoolManager.

Context {Data K V : Type}.
Variable zero_data : Data.
Variable AsLeafPage : Data -> LeafPage.t (K:=K) (V:=V).

Local Abbreviation leaf_of := (IndexIterator.leaf_of AsLeafPage).
Local Abbreviation IsEnd := (IndexIterator.IsEnd AsLeafPage).
Local Abbreviation operator_inc :=
  (IndexIterator.operator_inc zero_data AsLeafPage).

Lemma IsEnd_spec (it : IndexIterator.t) (b : t (Data:=Data)) (lf : LeafPage.t) :
  leaf_of it b = Ok lf ->
  exists e,
    IsEnd it b = Ok e
    /\ (e = true <->
        LeafPage.GetNextPageId lf = INVALID_PAGE_ID
        /\ IndexIterator.index_ it = LeafPage.GetSize lf).
Proof.
  intros H. unfold IndexIterator.IsEnd. rewrite H. simpl.
  eexists. split; [reflexivity|].
  rewrite andb_true_iff, !Z.eqb_eq. reflexivity.
Qed.

(** Fetching a resident page through a temporary basic guard and dropping
    the guard again leaves every pin count, the page table and the disk log
    as they were. *)
Lemma fetch_and_drop_resident (b : t (Data:=Data)) (page_id f : Z) (p : Page) :
  page_table_ b !! page_id = Some f ->
  get_page b f = Ok p ->
  page_id_ p = page_id ->
  0 <= pin_count_ p ->
  LRUKReplacer.frame_in_range f (replacer_ b) = true ->
  exists g b1 b2,
    FetchPageBasic zero_data b page_id = Ok (g, b1)
    /\ g_page_ g = Some f
    /\ DropBasic g b1 = Ok b2
    /\ pin_count_ <$> pages_ b2 = pin_count_ <$> pages_ b
    /\ page_table_ b2 = page_table_ b
    /\ disk_log_ b2 = disk_log_ b.
Proof.
  intros Ht Hp Hid Hpin Hr.
  unfold FetchPageBasic, FetchPage. rewrite Ht, Hp. simpl.
  set (p1 := with_pin_count p (pin_count_ p + 1)).
  set (b1 := set_page b f p1).
  assert (Hp1 : get_page b1 f = Ok p1) by (eapply get_page_set_page; eassumption).
  destruct (UnpinPage_resident b1 page_id f p1 false) as (r & _ & Hu);
    [exact Ht | exact Hp1 | simpl; lia | exact Hr |].
  do 3 eexists. split; [reflexivity|]. split; [reflexivity|].
  unfold DropBasic. simpl. rewrite Hp1. simpl. rewrite Hid, Hu. simpl.
  split; [reflexivity|].
  split; [|split; reflexivity].
  simpl. rewrite !list_insert_insert_eq, list_fmap_insert. simpl.
  replace (pin_count_ p + 1 - 1) with (pin_count_ p) by lia.
  apply list_insert_id. rewrite list_lookup_fmap.
  apply get_page_lookup in Hp as [_ ->]. reflexivity.
Qed.


End IteratorProperties.

Section IteratorExamples.

Import Examples.

Local Abbreviation step :=
  (IndexIterator.operator_inc zero_leaf (fun d : LeafPage.t (K:=Z) (V:=Z) => d)).



End IteratorExamples.

(** ** B+Tree leaf page *)

Section LeafProperties.

Context {K V : Type}.
Variable comparator_ : K -> K -> Z.
Variable min_size_of : Z -> Z.
Variable leaf_max_size_ : Z.

Local Abbreviation Leaf := (LeafPage.t (K:=K) (V:=V)).

Lemma copy_upper_spec (n : nat) (i m : Z) (src dst : Z -> K * V) (j : Z) :
  LeafPage.copy_upper n i m src dst j
  = if (i - m <=? j) && (j <? i - m + Z.of_nat n) then src (j + m) else dst j.
Proof.
  revert i dst. induction n as [|n IH]; intros i dst.
  - simpl. destruct (Z.leb_spec (i - m) j), (Z.ltb_spec j (i - m + Z.of_nat 0));
      simpl; try reflexivity; lia.
  - cbn [LeafPage.copy_upper]. rewrite IH. unfold LeafPage.store.
    destruct (Z.leb_spec (i + 1 - m) j), (Z.ltb_spec j (i + 1 - m + Z.of_nat n)),
      (Z.leb_spec (i - m) j), (Z.ltb_spec j (i - m + Z.of_nat (S n))),
      (Z.eqb_spec j (i - m)); simpl; try reflexivity; try lia.
    subst j. f_equal. lia.
Qed.

Lemma Insert_keeps_header (p p1 : Leaf) (key : K) (value : V) (r : bool) :
  LeafPage.Insert comparator_ p key value = (r, p1) ->
  LeafPage.max_size_ p1 = LeafPage.max_size_ p
  /\ LeafPage.next_page_id_ p1 = LeafPage.next_page_id_ p.
Proof.
  unfold LeafPage.Insert.
  destruct (_ =? 0); intros [= <- <-]; split; reflexivity.
Qed.

Lemma entries_split_lower (p : Leaf) (m : Z) :
  0 <= m <= LeafPage.size_ p ->
  LeafPage.entries (LeafPage.SetSize p m)
  = take (Z.to_nat m) (LeafPage.entries p).
Proof.
  intros H. unfold LeafPage.entries. simpl.
  rewrite <- fmap_take, take_seq. f_equal. f_equal. lia.
Qed.

Lemma entries_split_upper (p : Leaf) (m : Z) (a : Z -> K * V) (q : Leaf) :
  0 <= m <= LeafPage.size_ p ->
  (forall j, 0 <= j < LeafPage.size_ p - m ->
             a j = LeafPage.array_ p (j + m)) ->
  LeafPage.entries (LeafPage.SetSize (LeafPage.SetArray q a) (LeafPage.size_ p - m))
  = drop (Z.to_nat m) (LeafPage.entries p).
Proof.
  intros H Ha. unfold LeafPage.entries. simpl.
  rewrite <- fmap_drop, drop_seq. simpl.
  replace (Z.to_nat (LeafPage.size_ p) - Z.to_nat m)%nat
    with (Z.to_nat (LeafPage.size_ p - m)) by lia.
  apply list_eq. intros i. rewrite !list_lookup_fmap.
  destruct (decide (i < Z.to_nat (LeafPage.size_ p - m))%nat) as [Hi|Hi].
  - rewrite !lookup_seq_lt by assumption. simpl.
    rewrite Ha by lia. do 2 f_equal. lia.
  - rewrite !lookup_seq_ge by lia. reflexivity.
Qed.


End LeafProperties.

(** ** Leaf page: search, insert and remove on a sorted leaf *)

Section LeafSearch.

Context {K V : Type}.
Variable comparator_ : K -> K -> Z.

(** The comparator is a total order on keys that tells equal keys by 0. *)
Hypothesis cmp_refl : forall a, comparator_ a a = 0.
Hypothesis cmp_eq : forall a b, comparator_ a b = 0 -> a = b.
Hypothesis cmp_flip : forall a b, comparator_ a b < 0 <-> 0 < comparator_ b a.
Hypothesis cmp_trans :
  forall a b c, comparator_ a b < 0 -> comparator_ b c < 0 -> comparator_ a c < 0.

Local Abbreviation Leaf := (LeafPage.t (K:=K) (V:=V)).
Local Abbreviation at_least := (key_at_least (V:=V) comparator_).
Local Abbreviation above := (key_above (V:=V) comparator_).
Local Abbreviation sorted := (leaf_sorted (V:=V) comparator_).
Local Abbreviation absent := (leaf_absent (K:=K) (V:=V)).
Local Abbreviation insert_index := (leaf_insert_index (V:=V) comparator_).
Local Abbreviation lookup_index := (leaf_lookup_index (V:=V) comparator_).

Lemma lower_bound_loop_partition fuel a key l r :
  LeafPage.lower_bound_loop comparator_ fuel a key l r
  = partition_loop (at_least a key) fuel l r.
Proof.
  revert l r. induction fuel as [|fuel IH]; intros l r; simpl; [reflexivity|].
  rewrite !IH. reflexivity.
Qed.

Lemma upper_bound_loop_partition fuel a key l r :
  LeafPage.upper_bound_loop comparator_ fuel a key l r
  = partition_loop (above a key) fuel l r.
Proof.
  revert l r. induction fuel as [|fuel IH]; intros l r; simpl; [reflexivity|].
  rewrite !IH. reflexivity.
Qed.

Lemma shiftr1 (z : Z) : Z.shiftr z 1 = z / 2.
Proof. rewrite Z.shiftr_div_pow2 by lia. reflexivity. Qed.

(** With [r - l] rounds the loop ends with [l = r] at the partition point of
    a test that, once true, stays true. *)
Lemma partition_loop_spec (test : Z -> bool) (fuel : nat) (l r : Z) :
  l <= r -> r - l <= Z.of_nat fuel ->
  (forall i j, l <= i -> i <= j -> j < r -> test i = true -> test j = true) ->
  let x := partition_loop test fuel l r in
  l <= x <= r
  /\ (forall i, l <= i < x -> test i = false)
  /\ (forall i, x <= i < r -> test i = true).
Proof.
  revert l r. induction fuel as [|fuel IH]; intros l r Hlr Hf Hmono.
  - simpl. repeat split; try lia; intros i Hi; lia.
  - cbn [partition_loop]. destruct (Z.ltb_spec l r) as [Hlt|Hge].
    + rewrite shiftr1.
      assert (Hmid : l <= (l + r) / 2 < r).
      { split; [apply Z.div_le_lower_bound | apply Z.div_lt_upper_bound]; lia. }
      cbv zeta. destruct (test ((l + r) / 2)) eqn:Et.
      * destruct (IH l ((l + r) / 2)) as (Hx & Hlo & Hhi); try lia.
        { intros i j ? ? ? ?. apply (Hmono i j); auto; lia. }
        repeat split; try lia; auto.
        intros i Hi.
        destruct (Z.lt_ge_cases i ((l + r) / 2)); [apply Hhi; lia|].
        apply (Hmono ((l + r) / 2) i); auto; lia.
      * destruct (IH ((l + r) / 2 + 1) r) as (Hx & Hlo & Hhi); try lia.
        { intros i j ? ? ? ?. apply (Hmono i j); auto; lia. }
        repeat split; try lia; auto.
        intros i Hi.
        destruct (Z.lt_ge_cases i ((l + r) / 2 + 1)); [|apply Hlo; lia].
        destruct (test i) eqn:Ei; [|reflexivity].
        rewrite <- Et. symmetry. apply (Hmono i ((l + r) / 2)); auto; lia.
    + repeat split; try lia; intros i Hi; lia.
Qed.

Lemma partition_loop_empty (test : Z -> bool) (fuel : nat) (l r : Z) :
  r <= l -> partition_loop test fuel l r = l.
Proof.
  intros H. destruct fuel; simpl; [reflexivity|].
  destruct (Z.ltb_spec l r); [lia | reflexivity].
Qed.

Lemma cmp_neg_not_pos a b : comparator_ a b < 0 -> ~ 0 < comparator_ a b.
Proof. lia. Qed.

Lemma cmp_le_trans a b c :
  comparator_ a b < 0 -> comparator_ b c <= 0 -> comparator_ a c < 0.
Proof.
  intros H1 H2. destruct (Z.eq_dec (comparator_ b c) 0) as [E|E].
  - apply cmp_eq in E. subst. exact H1.
  - apply (cmp_trans a b c); [exact H1 | lia].
Qed.

Lemma above_mono (p : Leaf) (key : K) :
  sorted p ->
  forall i j, 0 <= i -> i <= j -> j < LeafPage.size_ p ->
    above (LeafPage.array_ p) key i = true ->
    above (LeafPage.array_ p) key j = true.
Proof.
  intros Hs i j Hi Hij Hj. unfold above. rewrite !Z.ltb_lt. intros H.
  destruct (Z.eq_dec i j) as [->|Hne]; [exact H|].
  apply cmp_flip. apply cmp_flip in H.
  apply (cmp_trans _ (LeafPage.KeyAt p i)); [exact H|].
  apply Hs; lia.
Qed.

Lemma at_least_mono (p : Leaf) (key : K) :
  sorted p ->
  forall i j, 0 <= i -> i <= j -> j < LeafPage.size_ p ->
    at_least (LeafPage.array_ p) key i = true ->
    at_least (LeafPage.array_ p) key j = true.
Proof.
  intros Hs i j Hi Hij Hj. unfold at_least.
  rewrite !orb_true_iff, !Z.ltb_lt, !Z.eqb_eq. intros H.
  destruct (Z.eq_dec i j) as [->|Hne]; [exact H|].
  left. apply cmp_flip.
  assert (Hlt : comparator_ (LeafPage.KeyAt p i) (LeafPage.KeyAt p j) < 0)
    by (apply Hs; lia).
  destruct H as [H|H].
  - apply cmp_flip in H. apply (cmp_trans _ (LeafPage.KeyAt p i)); assumption.
  - apply cmp_eq in H. unfold LeafPage.KeyAt in Hlt. rewrite H in Hlt.
    apply cmp_flip in Hlt. apply cmp_flip. exact Hlt.
Qed.

Lemma shift_right_spec (n : nat) (i : Z) (a : Z -> K * V) (j : Z) :
  LeafPage.shift_right n i a j
  = if (i - Z.of_nat n + 1 <? j) && (j <=? i + 1) then a (j - 1) else a j.
Proof.
  revert i a. induction n as [|n IH]; intros i a.
  - simpl. destruct (Z.ltb_spec (i - Z.of_nat 0 + 1) j), (Z.leb_spec j (i + 1));
      simpl; try reflexivity; lia.
  - cbn [LeafPage.shift_right]. rewrite IH. unfold LeafPage.store.
    destruct (Z.ltb_spec (i - 1 - Z.of_nat n + 1) j), (Z.leb_spec j (i - 1 + 1)),
      (Z.ltb_spec (i - Z.of_nat (S n) + 1) j), (Z.leb_spec j (i + 1)),
      (Z.eqb_spec (j - 1) (i + 1)), (Z.eqb_spec j (i + 1));
      simpl; try reflexivity; try lia.
    subst j. f_equal. lia.
Qed.

Lemma shift_left_spec (n : nat) (i : Z) (a : Z -> K * V) (j : Z) :
  LeafPage.shift_left n i a j
  = if (i <=? j) && (j <? i + Z.of_nat n) then a (j + 1) else a j.
Proof.
  revert i a. induction n as [|n IH]; intros i a.
  - simpl. destruct (Z.leb_spec i j), (Z.ltb_spec j (i + Z.of_nat 0));
      simpl; try reflexivity; lia.
  - cbn [LeafPage.shift_left]. rewrite IH. unfold LeafPage.store.
    destruct (Z.leb_spec (i + 1) j), (Z.ltb_spec j (i + 1 + Z.of_nat n)),
      (Z.leb_spec i j), (Z.ltb_spec j (i + Z.of_nat (S n))),
      (Z.eqb_spec (j + 1) i), (Z.eqb_spec j i);
      simpl; try reflexivity; try lia.
    subst j. reflexivity.
Qed.

Lemma insert_index_spec (p : Leaf) (key : K) :
  sorted p -> 0 <= LeafPage.size_ p ->
  0 <= insert_index p key <= LeafPage.size_ p
  /\ (forall i, 0 <= i < insert_index p key ->
                comparator_ (LeafPage.KeyAt p i) key <= 0)
  /\ (forall i, insert_index p key <= i < LeafPage.size_ p ->
                0 < comparator_ (LeafPage.KeyAt p i) key).
Proof.
  intros Hs Hn. unfold insert_index. rewrite upper_bound_loop_partition.
  destruct (partition_loop_spec (above (LeafPage.array_ p) key)
              (Z.to_nat (LeafPage.size_ p)) 0 (LeafPage.size_ p))
    as (Hx & Hlo & Hhi); try lia.
  { intros i j ? ? ?. apply above_mono; assumption. }
  split; [exact Hx|]. split.
  - intros i Hi. specialize (Hlo i Hi). unfold above in Hlo.
    apply Z.ltb_ge in Hlo. exact Hlo.
  - intros i Hi. specialize (Hhi i Hi). unfold above in Hhi.
    apply Z.ltb_lt in Hhi. exact Hhi.
Qed.

(** On a sorted leaf the lookup ends at the slot of the key, if there is
    one. *)
Lemma lookup_index_found (p : Leaf) (key : K) (j : Z) :
  sorted p -> 0 <= j < LeafPage.size_ p -> LeafPage.KeyAt p j = key ->
  lookup_index p key = j.
Proof.
  intros Hs Hj Hk. unfold lookup_index. rewrite lower_bound_loop_partition.
  destruct (partition_loop_spec (at_least (LeafPage.array_ p) key)
              (Z.to_nat (LeafPage.size_ p - 1)) 0 (LeafPage.size_ p - 1))
    as (Hx & Hlo & Hhi); try lia.
  { intros i j' ? ? ?. apply at_least_mono; try assumption; lia. }
  set (x := partition_loop _ _ _ _) in *.
  assert (Hbelow : forall i, 0 <= i < j ->
                     at_least (LeafPage.array_ p) key i = false).
  { intros i Hi. unfold at_least.
    assert (H : comparator_ (LeafPage.KeyAt p i) key < 0)
      by (rewrite <- Hk; apply Hs; lia).
    unfold LeafPage.KeyAt in H.
    destruct (Z.ltb_spec 0 (comparator_ (LeafPage.array_ p i).1 key)),
      (Z.eqb_spec (comparator_ (LeafPage.array_ p i).1 key) 0);
      simpl; try reflexivity; lia. }
  assert (Hat : at_least (LeafPage.array_ p) key j = true).
  { unfold at_least. unfold LeafPage.KeyAt in Hk. rewrite Hk, cmp_refl.
    reflexivity. }
  destruct (Z.lt_trichotomy x j) as [Hlt | [Heq | Hgt]]; [|exact Heq|].
  - specialize (Hhi x ltac:(lia)). rewrite Hbelow in Hhi by lia. discriminate.
  - specialize (Hlo j ltac:(lia)). congruence.
Qed.

Lemma lookup_index_range (p : Leaf) (key : K) :
  1 <= LeafPage.size_ p -> 0 <= lookup_index p key < LeafPage.size_ p.
Proof.
  intros Hn. unfold lookup_index. rewrite lower_bound_loop_partition.
  generalize (Z.to_nat (LeafPage.size_ p - 1)).
  assert (H : forall fuel l r, l <= r ->
            l <= partition_loop (at_least (LeafPage.array_ p) key) fuel l r <= r).
  { induction fuel as [|fuel IH]; intros l r Hlr; simpl; [lia|].
    destruct (Z.ltb_spec l r); [|lia]. rewrite shiftr1.
    assert (l <= (l + r) / 2 < r).
    { split; [apply Z.div_le_lower_bound | apply Z.div_lt_upper_bound]; lia. }
    destruct (at_least _ _ _);
      [specialize (IH l ((l + r) / 2)) | specialize (IH ((l + r) / 2 + 1) r)];
      lia. }
  intros fuel. specialize (H fuel 0 (LeafPage.size_ p - 1)). lia.
Qed.

(** [ValueAtKey] on a sorted leaf that is not over-full. *)
Lemma ValueAtKey_found (p : Leaf) (key : K) (value : V) (j : Z) :
  sorted p -> LeafPage.size_ p <= LeafPage.max_size_ p ->
  0 <= j < LeafPage.size_ p -> LeafPage.array_ p j = (key, value) ->
  LeafPage.ValueAtKey comparator_ p key = Some value.
Proof.
  intros Hs Hm Hj Ha. unfold LeafPage.ValueAtKey.
  change (LeafPage.lower_bound_loop _ _ _ _ _ _) with (lookup_index p key).
  unfold LeafPage.GetSize.
  rewrite (lookup_index_found p key j Hs Hj)
    by (unfold LeafPage.KeyAt; rewrite Ha; reflexivity).
  unfold LeafPage.GetMaxSize. rewrite Ha. simpl. rewrite cmp_refl.
  destruct (Z.eqb_spec j (LeafPage.max_size_ p)); [lia | reflexivity].
Qed.

Lemma ValueAtKey_absent (p : Leaf) (key : K) :
  1 <= LeafPage.size_ p -> absent p key ->
  LeafPage.ValueAtKey comparator_ p key = None.
Proof.
  intros Hn Ha. unfold LeafPage.ValueAtKey.
  change (LeafPage.lower_bound_loop _ _ _ _ _ _) with (lookup_index p key).
  pose proof (lookup_index_range p key Hn) as Hr.
  specialize (Ha _ Hr). unfold LeafPage.KeyAt in Ha.
  destruct (Z.eqb_spec (comparator_ (LeafPage.array_ p (lookup_index p key)).1 key) 0)
    as [E|E].
  - apply cmp_eq in E. contradiction.
  - rewrite orb_true_r. reflexivity.
Qed.

Lemma absent_below (p : Leaf) (key : K) (i : Z) :
  absent p key -> 0 <= i < LeafPage.size_ p ->
  comparator_ (LeafPage.KeyAt p i) key <= 0 ->
  comparator_ (LeafPage.KeyAt p i) key < 0.
Proof.
  intros Ha Hi Hle.
  destruct (Z.eq_dec (comparator_ (LeafPage.KeyAt p i) key) 0) as [E|E]; [|lia].
  apply cmp_eq in E. exfalso. exact (Ha i Hi E).
Qed.

(** A key that the sorted leaf does not hold is inserted at the insert
    position, provided the duplicate check does not trip over the slot in
    front of the array when that position is 0. *)
Lemma Insert_absent (p : Leaf) (key : K) (value : V) :
  sorted p -> 0 <= LeafPage.size_ p -> absent p key ->
  (insert_index p key = 0 -> comparator_ (LeafPage.KeyAt p (-1)) key <> 0) ->
  exists p1,
    LeafPage.Insert comparator_ p key value = (true, p1)
    /\ LeafPage.size_ p1 = LeafPage.size_ p + 1
    /\ LeafPage.max_size_ p1 = LeafPage.max_size_ p
    /\ (forall j, LeafPage.array_ p1 j
                  = if j =? insert_index p key then (key, value)
                    else if (insert_index p key <? j) && (j <=? LeafPage.size_ p)
                         then LeafPage.array_ p (j - 1)
                         else LeafPage.array_ p j)
    /\ sorted p1.
Proof.
  intros Hs Hn Ha Hhdr.
  destruct (insert_index_spec p key Hs Hn) as (Hx & Hlo & Hhi).
  unfold LeafPage.Insert, LeafPage.GetSize.
  change (LeafPage.upper_bound_loop _ _ _ _ _ _) with (insert_index p key).
  set (idx := insert_index p key) in *.
  assert (Hchk : (comparator_ (LeafPage.array_ p (idx - 1)).1 key =? 0) = false).
  { apply Z.eqb_neq. destruct (Z.eq_dec idx 0) as [E|E].
    - rewrite E. apply Hhdr. exact E.
    - intros E0. apply cmp_eq in E0. apply (Ha (idx - 1)); [lia | exact E0]. }
  rewrite Hchk. eexists. split; [reflexivity|]. simpl.
  assert (Harr : forall j,
             LeafPage.store
               (LeafPage.shift_right (Z.to_nat (LeafPage.size_ p - idx))
                  (LeafPage.size_ p - 1) (LeafPage.array_ p)) idx (key, value) j
             = if j =? idx then (key, value)
               else if (idx <? j) && (j <=? LeafPage.size_ p)
                    then LeafPage.array_ p (j - 1)
                    else LeafPage.array_ p j).
  { intros j. unfold LeafPage.store. destruct (Z.eqb_spec j idx); [reflexivity|].
    rewrite shift_right_spec.
    destruct (Z.ltb_spec (LeafPage.size_ p - 1
                          - Z.of_nat (Z.to_nat (LeafPage.size_ p - idx)) + 1) j),
      (Z.leb_spec j (LeafPage.size_ p - 1 + 1)),
      (Z.ltb_spec idx j), (Z.leb_spec j (LeafPage.size_ p));
      simpl; try reflexivity; lia. }
  split; [reflexivity|]. split; [reflexivity|]. split; [exact Harr|].
  intros i j Hi Hij Hj. unfold LeafPage.KeyAt. simpl in *. rewrite !Harr.
  destruct (Z.eqb_spec i idx), (Z.eqb_spec j idx),
    (Z.ltb_spec idx i), (Z.leb_spec i (LeafPage.size_ p)),
    (Z.ltb_spec idx j), (Z.leb_spec j (LeafPage.size_ p));
    simpl; try lia;
    first [ apply cmp_flip; apply (Hhi (j - 1)); lia
          | apply (Hs (i - 1) (j - 1)); lia
          | apply absent_below; [assumption | lia | apply Hlo; lia]
          | apply (Hs i (j - 1)); lia
          | apply (Hs i j); lia ].
Qed.

(** A key the sorted leaf already holds is rejected; the leaf stays as it
    is. *)
Lemma Insert_present (p : Leaf) (key : K) (value : V) (j : Z) :
  sorted p -> 0 <= j < LeafPage.size_ p -> LeafPage.KeyAt p j = key ->
  LeafPage.Insert comparator_ p key value = (false, p).
Proof.
  intros Hs Hj Hk.
  destruct (insert_index_spec p key Hs ltac:(lia)) as (Hx & Hlo & Hhi).
  unfold LeafPage.Insert, LeafPage.GetSize.
  change (LeafPage.upper_bound_loop _ _ _ _ _ _) with (insert_index p key).
  set (idx := insert_index p key) in *.
  assert (Hidx : idx = j + 1).
  { destruct (Z.lt_trichotomy idx (j + 1)) as [H | [H | H]]; [|exact H|].
    - specialize (Hhi j ltac:(lia)). rewrite Hk, cmp_refl in Hhi. lia.
    - specialize (Hlo (j + 1) ltac:(lia)).
      assert (comparator_ (LeafPage.KeyAt p j) (LeafPage.KeyAt p (j + 1)) < 0)
        by (apply Hs; lia).
      rewrite Hk in H0. apply cmp_flip in H0. lia. }
  rewrite Hidx. replace (j + 1 - 1) with j by lia.
  unfold LeafPage.KeyAt in Hk. rewrite Hk, cmp_refl. reflexivity.
Qed.

(** Removing the key in slot [j] of a sorted leaf closes the gap. *)
Lemma RemoveRecord_found (p : Leaf) (key : K) (j : Z) :
  sorted p -> 0 <= j < LeafPage.size_ p -> LeafPage.KeyAt p j = key ->
  exists p',
    LeafPage.RemoveRecord comparator_ p key = (true, p')
    /\ LeafPage.size_ p' = LeafPage.size_ p - 1
    /\ LeafPage.max_size_ p' = LeafPage.max_size_ p
    /\ (forall i, LeafPage.array_ p' i
                  = if (j <=? i) && (i <? LeafPage.size_ p - 1)
                    then LeafPage.array_ p (i + 1)
                    else LeafPage.array_ p i).
Proof.
  intros Hs Hj Hk. unfold LeafPage.RemoveRecord, LeafPage.GetSize.
  change (LeafPage.lower_bound_loop _ _ _ _ _ _) with (lookup_index p key).
  rewrite (lookup_index_found p key j Hs Hj Hk).
  unfold LeafPage.KeyAt in Hk. rewrite Hk, cmp_refl. simpl.
  eexists. split; [reflexivity|]. simpl.
  split; [lia|]. split; [reflexivity|].
  intros i. rewrite shift_left_spec.
  destruct (Z.leb_spec j i),
    (Z.ltb_spec i (j + Z.of_nat (Z.to_nat (LeafPage.size_ p - 1 - j)))),
    (Z.ltb_spec i (LeafPage.size_ p - 1)); simpl; try reflexivity; lia.
Qed.

(** The round trip on one leaf that is sorted, not empty and not full: a key
    the leaf does not hold is inserted and found with its value, then removed
    and no longer found, and the slots in use are what they were.  When the
    key goes in front of all keys of the leaf, the duplicate check reads the
    slot in front of the array; the round trip needs that slot to differ
    from the key.  A key the leaf holds is rejected and its value stays. *)
Theorem leaf_insert_lookup_remove (p : Leaf) (key : K) (value : V) :
  sorted p -> absent p key ->
  1 <= LeafPage.size_ p < LeafPage.max_size_ p ->
  (insert_index p key = 0 -> comparator_ (LeafPage.KeyAt p (-1)) key <> 0) ->
  exists p1 p2,
    LeafPage.Insert comparator_ p key value = (true, p1)
    /\ LeafPage.ValueAtKey comparator_ p1 key = Some value
    /\ LeafPage.RemoveRecord comparator_ p1 key = (true, p2)
    /\ LeafPage.ValueAtKey comparator_ p2 key = None
    /\ LeafPage.size_ p2 = LeafPage.size_ p
    /\ (forall i, 0 <= i < LeafPage.size_ p ->
                  LeafPage.array_ p2 i = LeafPage.array_ p i).
Proof.
  intros Hs Ha Hn Hhdr.
  destruct (Insert_absent p key value Hs ltac:(lia) Ha Hhdr)
    as (p1 & Hins & Hsz1 & Hmx1 & Harr1 & Hs1).
  destruct (insert_index_spec p key Hs ltac:(lia)) as (Hx & _ & _).
  set (idx := insert_index p key) in *.
  assert (Hat : LeafPage.array_ p1 idx = (key, value))
    by (rewrite Harr1, Z.eqb_refl; reflexivity).
  destruct (RemoveRecord_found p1 key idx Hs1 ltac:(lia))
    as (p2 & Hrem & Hsz2 & Hmx2 & Harr2).
  { unfold LeafPage.KeyAt. rewrite Hat. reflexivity. }
  assert (Hsame : forall i, 0 <= i < LeafPage.size_ p ->
                            LeafPage.array_ p2 i = LeafPage.array_ p i).
  { intros i Hi. rewrite Harr2, Hsz1.
    destruct (Z.leb_spec idx i), (Z.ltb_spec i (LeafPage.size_ p + 1 - 1));
      simpl; try lia; rewrite Harr1.
    - destruct (Z.eqb_spec (i + 1) idx), (Z.ltb_spec idx (i + 1)),
        (Z.leb_spec (i + 1) (LeafPage.size_ p)); simpl; try lia.
      f_equal. lia.
    - destruct (Z.eqb_spec i idx), (Z.ltb_spec idx i); simpl; try lia.
      reflexivity. }
  exists p1, p2. split; [exact Hins|]. split; [|split; [exact Hrem|]].
  - apply (ValueAtKey_found p1 key value idx); try assumption; lia.
  - split; [|split; [lia | exact Hsame]].
    apply ValueAtKey_absent; [lia|].
    intros i Hi. unfold LeafPage.KeyAt. rewrite Hsame by lia.
    apply Ha. lia.
Qed.

Theorem leaf_insert_duplicate (p : Leaf) (key : K) (v1 v2 : V) (j : Z) :
  sorted p -> LeafPage.size_ p <= LeafPage.max_size_ p ->
  0 <= j < LeafPage.size_ p -> LeafPage.array_ p j = (key, v1) ->
  LeafPage.Insert comparator_ p key v2 = (false, p)
  /\ LeafPage.ValueAtKey comparator_ p key = Some v1.
Proof.
  intros Hs Hm Hj Ha. split.
  - apply (Insert_present p key v2 j Hs Hj).
    unfold LeafPage.KeyAt. rewrite Ha. reflexivity.
  - apply (ValueAtKey_found p key v1 j); assumption.
Qed.

End LeafSearch.

Section LeafExamples.

Import Examples.

(** The integer comparator of the examples is a total order. *)
Lemma int_cmp_refl (a : Z) : int_cmp a a = 0.
Proof. unfold int_cmp. rewrite Z.ltb_irrefl, Z.eqb_refl. reflexivity. Qed.

Lemma int_cmp_eq (a b : Z) : int_cmp a b = 0 -> a = b.
Proof.
  unfold int_cmp. destruct (Z.ltb_spec a b), (Z.eqb_spec a b); lia.
Qed.

Lemma int_cmp_flip (a b : Z) : int_cmp a b < 0 <-> 0 < int_cmp b a.
Proof.
  unfold int_cmp.
  destruct (Z.ltb_spec a b), (Z.eqb_spec a b), (Z.ltb_spec b a),
    (Z.eqb_spec b a); lia.
Qed.

Lemma int_cmp_trans (a b c : Z) :
  int_cmp a b < 0 -> int_cmp b c < 0 -> int_cmp a c < 0.
Proof.
  unfold int_cmp.
  destruct (Z.ltb_spec a b), (Z.eqb_spec a b), (Z.ltb_spec b c),
    (Z.eqb_spec b c), (Z.ltb_spec a c), (Z.eqb_spec a c); lia.
Qed.

(** The round trip on the leaf with keys 1 and 3 and the new key 2. *)
Lemma leaf_insert_lookup_remove_example :
  exists p1 p2,
    LeafPage.Insert int_cmp (leaf_of_list [(1, 10); (3, 30)] 4 INVALID_PAGE_ID)
      2 20 = (true, p1)
    /\ LeafPage.ValueAtKey int_cmp p1 2 = Some 20
    /\ LeafPage.RemoveRecord int_cmp p1 2 = (true, p2)
    /\ LeafPage.ValueAtKey int_cmp p2 2 = None
    /\ LeafPage.entries p2 = [(1, 10); (3, 30)].
Proof.
  destruct (leaf_insert_lookup_remove int_cmp int_cmp_refl int_cmp_eq
              int_cmp_flip int_cmp_trans
              (leaf_of_list [(1, 10); (3, 30)] 4 INVALID_PAGE_ID) 2 20)
    as (p1 & p2 & H1 & H2 & H3 & H4 & H5 & H6).
  - intros i j Hi Hij Hj. simpl in Hj.
    assert (i = 0) as -> by lia. assert (j = 1) as -> by lia. reflexivity.
  - intros i Hi. simpl in Hi.
    assert (i = 0 \/ i = 1) as [-> | ->] by lia; discriminate.
  - simpl. lia.
  - vm_compute. discriminate.
  - exists p1, p2. repeat split; try assumption.
    unfold LeafPage.entries. rewrite H5.
    change (seq 0 _) with [0%nat; 1%nat].
    change (LeafPage.array_ p2 (Z.of_nat 0) :: LeafPage.array_ p2 (Z.of_nat 1)
              :: [] = [(1, 10); (3, 30)]).
    change (Z.of_nat 0) with 0. change (Z.of_nat 1) with 1.
    rewrite (H6 0), (H6 1) by (simpl; lia). reflexivity.
Qed.

(** On a leaf emptied by [RemoveRecord] the lookup still compares slot 0,
    which keeps the removed entry; in the tree an emptied leaf is the root
    and [RootAdjust] deletes it. *)
Lemma leaf_lookup_after_emptying :
  (let '(removed, p) :=
     LeafPage.RemoveRecord int_cmp
       (leaf_of_list [(5, 50)] 4 INVALID_PAGE_ID) 5 in
   (removed, LeafPage.size_ p, LeafPage.ValueAtKey int_cmp p 5))
  = (true, 0, Some 50).
Proof. vm_compute. reflexivity. Qed.


(** C1 names a defect: the duplicate check of the leaf insert reads the slot
    in front of the insert position also when that position is 0.  A key
    that is absent from the leaf and smaller than all its keys is rejected
    as a duplicate when the bytes in front of the array compare equal to it;
    the leaf is left unchanged and a lookup of the key finds nothing. *)
Lemma C1_insert_below_minimum_rejected :
  LeafPage.keys leaf_header_slot = [8589934592]
  /\ LeafPage.Insert int_cmp leaf_header_slot 4294967297 7
     = (false, leaf_header_slot)
  /\ BPlusTree.InsertLeaf int_cmp half_up 4 leaf_header_slot 4294967297 7 None
     = Ok (false, leaf_header_slot, None)
  /\ LeafPage.ValueAtKey int_cmp leaf_header_slot 4294967297 = None.
Proof. repeat split; vm_compute; reflexivity. Qed.

End LeafExamples.

(** ** Lock manager: first requests, waiting requests, waits-for graph *)

Section LockAdmission.

Import LockManager.

Lemma LockTable_checks_admitted (txn : Transaction) (lock_mode : LockMode) :
  LockTable_checks txn lock_mode = None <-> lock_admitted txn lock_mode.
Proof.
  unfold LockTable_checks, lock_admitted, GetState, GetIsolationLevel.
  destruct txn as [id st iso ? ? ? ? ? ? ?]; simpl.
  destruct st, iso, lock_mode; vm_compute; split; intros H;
    try reflexivity; try discriminate; try exact I;
    try (left; discriminate); try (right; left; reflexivity);
    try (right; right; reflexivity);
    try (split; [reflexivity|]; (left; reflexivity) || (right; reflexivity));
    try (exfalso; destruct H as [H|[H|H]]; (discriminate H || (apply H; reflexivity)));
    try (exfalso; destruct H as [H [H'|H']]; discriminate).
Qed.

(** X28: The first request for a table, one with no queue yet, is granted
    at once and recorded in the transaction when the checks on state and
    isolation level let it through: for a GROWING transaction unless it
    asks for S, IS or SIX under READ_UNCOMMITTED, for a SHRINKING one only
    under READ_COMMITTED asking for S or IS, and for every request of a
    COMMITTED or ABORTED transaction.  Every other request aborts the
    transaction and leaves the lock manager as it was. *)
Theorem LockTable_first_request (txn : Transaction) (lock_mode : LockMode)
    (oid : Z) (lm : LockManager.t) :
  (lock_admitted txn lock_mode ->
   table_lock_map_ lm !! oid = None ->
   LockTable txn lock_mode oid lm
   = Ok (Return true, TxnTableLockInsert txn lock_mode oid,
         set_table_queue lm oid
           {| request_queue_ :=
                [ {| req_txn_id_ := GetTransactionId txn;
                     lock_mode_ := lock_mode; oid_ := oid; rid_ := None;
                     granted_ := true |} ];
              upgrading_ := INVALID_TXN_ID |}))
  /\ (~ lock_admitted txn lock_mode ->
      exists r,
        LockTable txn lock_mode oid lm = Ok (Throw r, SetState txn ABORTED, lm)).
Proof.
  pose proof (LockTable_checks_admitted txn lock_mode) as Hiff.
  unfold LockTable. split.
  - intros Hadm Hq. apply Hiff in Hadm. rewrite Hadm, Hq. reflexivity.
  - intros Hno. destruct (LockTable_checks txn lock_mode) as [r|] eqn:Hc.
    + exists r. reflexivity.
    + exfalso. apply Hno, Hiff. reflexivity.
Qed.

Lemma upgrade_scan_no_request (id : Z) (m : LockMode) (up : Z)
    (q : list LockRequest) :
  Forall (fun r => req_txn_id_ r <> id) q ->
  upgrade_scan id m up q = NoRequest.
Proof.
  induction 1 as [|r q Hr _ IH]; [reflexivity|].
  simpl. destruct (Z.eqb_spec (req_txn_id_ r) id); [contradiction|].
  rewrite IH. reflexivity.
Qed.

(** X29: A request that passes the checks, on a resource whose queue holds
    no request of the transaction, goes to the end of the queue, not
    granted, and the call reaches the loop [while (!GrantLock(...))] with
    it; the other requests, the upgrade marker and the transaction stay as
    they are.  This is so for an empty queue as well: only a resource
    without a queue grants at once. *)
Theorem Lock_new_request_appended (txn : Transaction) (lock_mode : LockMode)
    (oid : Z) (rid : RID) (lm : LockManager.t) (q : LockRequestQueue) :
  Forall (fun r => req_txn_id_ r <> GetTransactionId txn) (request_queue_ q) ->
  (LockTable_checks txn lock_mode = None ->
   table_lock_map_ lm !! oid = Some q ->
   LockTable txn lock_mode oid lm
   = Ok (Enqueued false, txn,
         set_table_queue lm oid
           {| request_queue_ :=
                request_queue_ q
                ++ [ {| req_txn_id_ := GetTransactionId txn;
                        lock_mode_ := lock_mode; oid_ := oid; rid_ := None;
                        granted_ := false |} ];
              upgrading_ := upgrading_ q |}))
  /\ (LockRow_checks txn lock_mode = None ->
      CheckAppropriateLockOnTable txn oid lock_mode = true ->
      row_lock_map_ lm !! rid = Some q ->
      LockRow txn lock_mode oid rid lm
      = Ok (Enqueued false, txn,
            set_row_queue lm rid
              {| request_queue_ :=
                   request_queue_ q
                   ++ [ {| req_txn_id_ := GetTransactionId txn;
                           lock_mode_ := lock_mode; oid_ := oid;
                           rid_ := Some rid; granted_ := false |} ];
                 upgrading_ := upgrading_ q |})).
Proof.
  intros Hq. split.
  - intros Hc Hl. unfold LockTable, request_on_queue. rewrite Hc, Hl.
    rewrite (upgrade_scan_no_request _ _ _ _ Hq). reflexivity.
  - intros Hc Ht Hl. unfold LockRow, request_on_queue. rewrite Hc, Ht, Hl.
    rewrite (upgrade_scan_no_request _ _ _ _ Hq). reflexivity.
Qed.

End LockAdmission.

Section WaitsForProperties.

Import WaitsFor.

Lemma elem_of_GetEdgeList (g : WaitsFor.t) (a b : Z) :
  (a, b) ∈ GetEdgeList g
  <-> exists edges, waits_for_ g !! a = Some edges /\ b ∈ edges.
Proof.
  unfold GetEdgeList. rewrite list_elem_of_bind. split.
  - intros ([t1 edges] & Hin & Hm). simpl in Hin.
    apply list_elem_of_fmap in Hin as (t2 & Heq & Ht2).
    injection Heq as -> ->. apply elem_of_map_to_list in Hm.
    exists edges. split; assumption.
  - intros (edges & Hl & Hb). exists (a, edges). split.
    + simpl. apply list_elem_of_fmap. exists b. split; [reflexivity|exact Hb].
    + apply elem_of_map_to_list. exact Hl.
Qed.

Lemma elem_of_erase_first (t2 b : Z) (edges : list Z) :
  NoDup edges ->
  b ∈ erase_first t2 edges <-> b ∈ edges /\ b <> t2.
Proof.
  induction 1 as [|x rest Hx Hnd IH]; simpl.
  - split; [intros H; inversion H|intros [H _]; inversion H].
  - destruct (Z.eqb_spec x t2) as [->|Hne].
    + rewrite elem_of_cons. split.
      * intros Hb. split; [right; exact Hb|]. intros ->. contradiction.
      * intros [[->|Hb] Hneq]; [contradiction|exact Hb].
    + rewrite !elem_of_cons, IH. split.
      * intros [->|[Hb Hneq]]; [split; [left; reflexivity|exact Hne]|].
        split; [right; exact Hb|exact Hneq].
      * intros [[->|Hb] Hneq]; [left; reflexivity|right; split; assumption].
Qed.

Lemma erase_first_NoDup (t2 : Z) (edges : list Z) :
  NoDup edges -> NoDup (erase_first t2 edges).
Proof.
  induction 1 as [|x rest Hx Hnd IH]; simpl; [constructor|].
  destruct (Z.eqb_spec x t2); [exact Hnd|].
  constructor; [|exact IH].
  intros Hin. apply elem_of_erase_first in Hin as [Hin _]; [|exact Hnd].
  contradiction.
Qed.

Lemma erase_first_snoc (t2 : Z) (edges : list Z) :
  t2 ∉ edges -> erase_first t2 (edges ++ [t2]) = edges.
Proof.
  induction edges as [|x rest IH]; simpl; intros Hnot.
  - rewrite Z.eqb_refl. reflexivity.
  - apply not_elem_of_cons in Hnot as [Hne Hnot].
    destruct (Z.eqb_spec x t2); [congruence|]. rewrite IH by exact Hnot.
    reflexivity.
Qed.

Lemma AddEdge_wf (g : WaitsFor.t) (t1 t2 : Z) :
  waits_for_wf g -> waits_for_wf (AddEdge t1 t2 g).
Proof.
  intros [Hne Hnd Hset]. unfold AddEdge.
  destruct (waits_for_ g !! t1) as [edges|] eqn:Hl.
  - destruct (bool_decide_reflect (t2 ∈ edges)) as [Hin|Hnin];
      [split; assumption|].
    split; simpl.
    + intros a es. destruct (decide (a = t1)) as [->|Hd].
      * rewrite lookup_insert_eq. intros [= <-]. intros Happ.
        apply app_eq_nil in Happ as [_ Habs]. discriminate.
      * rewrite lookup_insert_ne by congruence. apply Hne.
    + intros a es. destruct (decide (a = t1)) as [->|Hd].
      * rewrite lookup_insert_eq. intros [= <-]. apply NoDup_app.
        split; [exact (Hnd _ _ Hl)|]. split; [|apply NoDup_singleton].
        intros x Hx Hx'. apply list_elem_of_singleton in Hx'. subst x.
        contradiction.
      * rewrite lookup_insert_ne by congruence. apply Hnd.
    + intros a. rewrite elem_of_union, elem_of_singleton, Hset.
      destruct (decide (a = t1)) as [->|Hd].
      * rewrite lookup_insert_eq. split; [eauto|left; reflexivity].
      * rewrite lookup_insert_ne by congruence.
        split; [intros [?|?]; [contradiction|assumption]|right; assumption].
  - split; simpl.
    + intros a es. destruct (decide (a = t1)) as [->|Hd].
      * rewrite lookup_insert_eq. intros [= <-]. discriminate.
      * rewrite lookup_insert_ne by congruence. apply Hne.
    + intros a es. destruct (decide (a = t1)) as [->|Hd].
      * rewrite lookup_insert_eq. intros [= <-]. apply NoDup_singleton.
      * rewrite lookup_insert_ne by congruence. apply Hnd.
    + intros a. rewrite elem_of_union, elem_of_singleton, Hset.
      destruct (decide (a = t1)) as [->|Hd].
      * rewrite lookup_insert_eq. split; [eauto|left; reflexivity].
      * rewrite lookup_insert_ne by congruence.
        split; [intros [?|?]; [contradiction|assumption]|right; assumption].
Qed.

Lemma RemoveEdge_wf (g : WaitsFor.t) (t1 t2 : Z) :
  waits_for_wf g -> waits_for_wf (RemoveEdge t1 t2 g).
Proof.
  intros [Hne Hnd Hset]. unfold RemoveEdge.
  destruct (waits_for_ g !! t1) as [edges|] eqn:Hl; [|split; assumption].
  pose proof (erase_first_NoDup t2 edges (Hnd _ _ Hl)) as Hnd'.
  destruct (erase_first t2 edges) as [|e es'] eqn:He.
  - split; simpl.
    + intros a es. destruct (decide (a = t1)) as [->|Hd].
      * rewrite lookup_delete_eq. discriminate.
      * rewrite lookup_delete_ne by congruence. apply Hne.
    + intros a es. destruct (decide (a = t1)) as [->|Hd].
      * rewrite lookup_delete_eq. discriminate.
      * rewrite lookup_delete_ne by congruence. apply Hnd.
    + intros a. rewrite elem_of_difference, elem_of_singleton, Hset.
      destruct (decide (a = t1)) as [->|Hd].
      * rewrite lookup_delete_eq. split; [intros [_ H]; contradiction|].
        intros [? H]; discriminate.
      * rewrite lookup_delete_ne by congruence.
        split; [intros [H _]; exact H|intros H; split; assumption].
  - split; simpl.
    + intros a es. destruct (decide (a = t1)) as [->|Hd].
      * rewrite lookup_insert_eq. intros [= <-]. discriminate.
      * rewrite lookup_insert_ne by congruence. apply Hne.
    + intros a es. destruct (decide (a = t1)) as [->|Hd].
      * rewrite lookup_insert_eq. intros [= <-]. exact Hnd'.
      * rewrite lookup_insert_ne by congruence. apply Hnd.
    + intros a. rewrite Hset.
      destruct (decide (a = t1)) as [->|Hd].
      * rewrite lookup_insert_eq, Hl. split; eauto.
      * rewrite lookup_insert_ne by congruence. reflexivity.
Qed.

Lemma AddEdge_edges (g : WaitsFor.t) (t1 t2 a b : Z) :
  (a, b) ∈ GetEdgeList (AddEdge t1 t2 g)
  <-> (a, b) ∈ GetEdgeList g \/ (a = t1 /\ b = t2).
Proof.
  rewrite !elem_of_GetEdgeList. unfold AddEdge.
  destruct (waits_for_ g !! t1) as [edges|] eqn:Hl.
  - destruct (bool_decide_reflect (t2 ∈ edges)) as [Hin|Hnin].
    + split; [left; assumption|].
      intros [H|[-> ->]]; [exact H|]. exists edges. split; assumption.
    + simpl. destruct (decide (a = t1)) as [->|Hd].
      * rewrite lookup_insert_eq, Hl. split.
        -- intros (es & [= <-] & Hb). apply elem_of_app in Hb as [Hb|Hb].
           ++ left. exists edges. split; [reflexivity|exact Hb].
           ++ apply list_elem_of_singleton in Hb. right. split; [reflexivity|exact Hb].
        -- intros [(es & [= <-] & Hb)|[_ ->]]; eexists; split; try reflexivity;
             apply elem_of_app; [left; exact Hb|right; apply list_elem_of_singleton; reflexivity].
      * rewrite lookup_insert_ne by congruence.
        split; [left; assumption|intros [H|[? _]]; [exact H|contradiction]].
  - simpl. destruct (decide (a = t1)) as [->|Hd].
    + rewrite lookup_insert_eq, Hl. split.
      * intros (es & [= <-] & Hb). apply list_elem_of_singleton in Hb.
        right. split; [reflexivity|exact Hb].
      * intros [(es & Habs & _)|[_ ->]]; [discriminate|].
        eexists; split; [reflexivity|apply list_elem_of_singleton; reflexivity].
    + rewrite lookup_insert_ne by congruence.
      split; [left; assumption|intros [H|[? _]]; [exact H|contradiction]].
Qed.

Lemma RemoveEdge_edges (g : WaitsFor.t) (t1 t2 a b : Z) :
  waits_for_wf g ->
  (a, b) ∈ GetEdgeList (RemoveEdge t1 t2 g)
  <-> (a, b) ∈ GetEdgeList g /\ (a, b) <> (t1, t2).
Proof.
  intros [Hne Hnd Hset]. rewrite !elem_of_GetEdgeList. unfold RemoveEdge.
  destruct (waits_for_ g !! t1) as [edges|] eqn:Hl.
  - pose proof (fun x => elem_of_erase_first t2 x edges (Hnd _ _ Hl)) as Her.
    destruct (erase_first t2 edges) as [|e es'] eqn:He; simpl.
    + destruct (decide (a = t1)) as [->|Hd].
      * rewrite lookup_delete_eq, Hl. split.
        -- intros (es & Habs & _). discriminate.
        -- intros [(es & [= <-] & Hb) Hneq]. exfalso.
           assert (b ∈ []) as Habs; [|inversion Habs].
           apply Her. split; [exact Hb|]. intros ->. apply Hneq. reflexivity.
      * rewrite lookup_delete_ne by congruence.
        split; [intros H; split; [exact H|congruence]|intros [H _]; exact H].
    + destruct (decide (a = t1)) as [->|Hd].
      * rewrite lookup_insert_eq, Hl. split.
        -- intros (es & [= <-] & Hb). apply Her in Hb as [Hb Hneq].
           split; [exists edges; split; [reflexivity|exact Hb]|congruence].
        -- intros [(es & [= <-] & Hb) Hneq]. eexists. split; [reflexivity|].
           apply Her. split; [exact Hb|]. intros ->. apply Hneq. reflexivity.
      * rewrite lookup_insert_ne by congruence.
        split; [intros H; split; [exact H|congruence]|intros [H _]; exact H].
  - split; [|intros [H _]; exact H].
    intros (es & Hes & Hb). split; [exists es; split; assumption|].
    intros [= -> ->]. congruence.
Qed.

Lemma RemoveEdge_AddEdge (g : WaitsFor.t) (t1 t2 : Z) :
  waits_for_wf g ->
  (t1, t2) ∉ GetEdgeList g ->
  RemoveEdge t1 t2 (AddEdge t1 t2 g) = g.
Proof.
  intros [Hne Hnd Hset] Hnew. rewrite elem_of_GetEdgeList in Hnew.
  destruct g as [wf ts]. simpl in *. unfold AddEdge. simpl.
  destruct (wf !! t1) as [edges|] eqn:Hl.
  - assert (Hnin : t2 ∉ edges).
    { intros Hin. apply Hnew. exists edges. split; [reflexivity|exact Hin]. }
    destruct (bool_decide_reflect (t2 ∈ edges)) as [Hin|_]; [contradiction|].
    unfold RemoveEdge. simpl. rewrite lookup_insert_eq.
    rewrite erase_first_snoc by exact Hnin.
    destruct edges as [|e es'] eqn:Hed; [exfalso; exact (Hne _ _ Hl eq_refl)|].
    simpl. f_equal.
    + rewrite insert_insert_eq. apply insert_id. exact Hl.
    + apply set_eq. intros x. rewrite elem_of_union, elem_of_singleton.
      split; [intros [->|H]; [apply Hset; rewrite Hl; eauto|exact H]|].
      intros H. right. exact H.
  - unfold RemoveEdge. simpl. rewrite lookup_insert_eq. simpl.
    rewrite Z.eqb_refl. f_equal.
    + rewrite delete_insert_eq. apply delete_id. exact Hl.
    + apply set_eq. intros x.
      rewrite elem_of_difference, elem_of_union, !elem_of_singleton.
      split; [intros [[->|H] Hx]; [contradiction|exact H]|].
      intros H. split; [right; exact H|]. intros ->.
      apply Hset in H. rewrite Hl in H. destruct H as [? H]. discriminate.
Qed.

(** X30: The waits-for graph under [AddEdge] and [RemoveEdge]: [AddEdge] adds
    the edge and nothing else, and adds it once; [RemoveEdge] takes the edge
    out and nothing else; both keep the bookkeeping consistent (no
    transaction is left with an empty list of edges, [txn_set_] holds the
    transactions that have edges); and [RemoveEdge] after [AddEdge] of a new
    edge gives back the graph as it was. *)
Theorem WaitsFor_edges (g : WaitsFor.t) (t1 t2 : Z) :
  waits_for_wf g ->
  waits_for_wf (AddEdge t1 t2 g)
  /\ waits_for_wf (RemoveEdge t1 t2 g)
  /\ (forall a b, (a, b) ∈ GetEdgeList (AddEdge t1 t2 g)
                  <-> (a, b) ∈ GetEdgeList g \/ (a = t1 /\ b = t2))
  /\ (forall a b, (a, b) ∈ GetEdgeList (RemoveEdge t1 t2 g)
                  <-> (a, b) ∈ GetEdgeList g /\ (a, b) <> (t1, t2))
  /\ AddEdge t1 t2 (AddEdge t1 t2 g) = AddEdge t1 t2 g
  /\ ((t1, t2) ∉ GetEdgeList g -> RemoveEdge t1 t2 (AddEdge t1 t2 g) = g).
Proof.
  intros Hwf.
  split; [exact (AddEdge_wf g t1 t2 Hwf)|].
  split; [exact (RemoveEdge_wf g t1 t2 Hwf)|].
  split; [intros a b; apply AddEdge_edges|].
  split; [intros a b; apply RemoveEdge_edges; exact Hwf|].
  split; [|exact (RemoveEdge_AddEdge g t1 t2 Hwf)].
  assert (Hin : (t1, t2) ∈ GetEdgeList (AddEdge t1 t2 g)).
  { apply AddEdge_edges. right. split; reflexivity. }
  apply elem_of_GetEdgeList in Hin as (edges & Hl & Hb).
  unfold AddEdge at 1. rewrite Hl.
  destruct (bool_decide_reflect (t2 ∈ edges)); [reflexivity|contradiction].
Qed.

Lemma empty_graph_wf : waits_for_wf empty_graph.
Proof.
  split; simpl.
  - intros a es H. rewrite lookup_empty in H. discriminate.
  - intros a es H. rewrite lookup_empty in H. discriminate.
  - intros a. rewrite lookup_empty. split; [intros H; inversion H|].
    intros [? H]. discriminate.
Qed.

Lemma WaitsFor_edges_witness :
  waits_for_wf (AddEdge 1 2 empty_graph)
  /\ GetEdgeList (AddEdge 1 2 empty_graph) = [(1, 2)]
  /\ RemoveEdge 1 2 (AddEdge 1 2 empty_graph) = empty_graph.
Proof.
  destruct (WaitsFor_edges empty_graph 1 2 empty_graph_wf)
    as (H1 & _ & _ & _ & _ & H6).
  split; [exact H1|]. split; [vm_compute; reflexivity|].
  apply H6. vm_compute. intros H. inversion H.
Defined.

End WaitsForProperties.

Section LockWitnesses.

Import LockManager Examples.

Lemma Lock_new_request_appended_witness :
  LockTable (txn_of 4 GROWING REPEATABLE_READ) SHARED 7 table7_S
  = Ok (Enqueued false, txn_of 4 GROWING REPEATABLE_READ,
        set_table_queue table7_S 7
          {| request_queue_ := [granted 1 SHARED 7; waiting 4 SHARED 7];
             upgrading_ := INVALID_TXN_ID |}).
Proof.
  apply (proj1 (Lock_new_request_appended (txn_of 4 GROWING REPEATABLE_READ)
                  SHARED 7 (0, 0) table7_S
                  {| request_queue_ := [granted 1 SHARED 7];
                     upgrading_ := INVALID_TXN_ID |}
                  ltac:(repeat constructor; simpl; lia)));
    reflexivity.
Defined.

End LockWitnesses.

(** ** Replacer: the counter behind [Size] *)

Section ReplacerSize.

Import LRUKReplacer.

(** X27: For K >= 2, in every state reached from a new replacer by
    [RecordAccess], [SetEvictable] and [Evict]: [Size] is the number of
    tracked frames that are marked evictable (modulo 2^64, the width of the
    counter), each tracked frame being counted once. *)
Theorem Size_counts_evictable (num_frames k : Z) (r : LRUKReplacer.t) :
  2 <= k -> reachable num_frames k r ->
  NoDup (scan_order r)
  /\ (forall f, f ∈ scan_order r <-> is_Some (node_store_ r !! f))
  /\ Size r
     = size_t_wrap
         (Z.of_nat (length (List.filter (evictable_in (node_store_ r))
                              (scan_order r)))).
Proof.
  intros Hk Hreach. pose proof (reachable_Inv _ _ _ Hk Hreach) as I.
  split; [exact (inv_nodup r I)|]. split; [exact (inv_tracked r I)|].
  unfold Size. rewrite (inv_counter r I). do 2 f_equal.
  induction (scan_order r) as [|f l IH]; [reflexivity|].
  simpl. destruct (evictable_in (node_store_ r) f); simpl; rewrite IH; lia.
Qed.

Lemma one_evictable_reachable :
  reachable 3 2 ReplacerExamples.one_evictable.
Proof.
  apply (reach_set 3 2 ReplacerExamples.accessed_01 0 true);
    [|vm_compute; reflexivity].
  apply (reach_access 3 2 ReplacerExamples.accessed_0 1);
    [|vm_compute; reflexivity|vm_compute; reflexivity].
  apply (reach_access 3 2 (init 3 2) 0);
    [apply reach_init|vm_compute; reflexivity|vm_compute; reflexivity].
Qed.

Lemma Size_counts_evictable_witness :
  reachable 3 2 ReplacerExamples.one_evictable
  /\ length (scan_order ReplacerExamples.one_evictable) = 2%nat
  /\ Size ReplacerExamples.one_evictable = 1.
Proof.
  split; [exact one_evictable_reachable|].
  split; [vm_compute; reflexivity|].
  destruct (Size_counts_evictable 3 2 ReplacerExamples.one_evictable
              ltac:(lia) one_evictable_reachable) as (_ & _ & H).
  rewrite H. vm_compute. reflexivity.
Defined.

End ReplacerSize.

(** ** Buffer pool manager and page guards *)

Section PoolInvariant.

Import BufferPoolManager.

Context {Data : Type}.
Variable zero_data : Data.

Local Abbreviation Pool := (t (Data:=Data)).

Lemma get_page_set_page_ne (b : Pool) (f f' : Z) (p : Page) :
  0 <= f -> f <> f' ->
  get_page (set_page b f p) f' = get_page b f'.
Proof.
  intros Hf Hne. unfold get_page. simpl.
  destruct (Z.ltb_spec f' 0); [reflexivity|].
  rewrite list_lookup_insert_ne by lia. reflexivity.
Qed.

Lemma get_page_nonneg (b : Pool) (f : Z) (p : Page) :
  get_page b f = Ok p -> 0 <= f.
Proof. intros H. apply get_page_lookup in H. lia. Qed.

(** Replacing the page of one frame by a page with the same page id and a
    pin count that is not negative. *)
Lemma wf_update_frame (b b' : Pool) (f : Z) (p p' : Page) :
  pool_wf b ->
  get_page b f = Ok p ->
  page_id_ p' = page_id_ p -> 0 <= pin_count_ p' ->
  pages_ b' = <[Z.to_nat f := p']> (pages_ b) ->
  page_table_ b' = page_table_ b ->
  free_list_ b' = free_list_ b ->
  pool_wf b'.
Proof.
  intros [Ht Hf Hn Hp] Hget Hid Hpin Hpages Htab Hfree.
  pose proof (get_page_nonneg b f p Hget) as Hf0.
  assert (Hsame : forall f0, get_page b' f0 = get_page (set_page b f p') f0).
  { intros f0. unfold get_page. rewrite Hpages. reflexivity. }
  assert (Hat : get_page b' f = Ok p').
  { rewrite Hsame. eapply get_page_set_page. exact Hget. }
  assert (Hother : forall f0, f0 <> f -> get_page b' f0 = get_page b f0).
  { intros f0 Hne. rewrite Hsame. apply get_page_set_page_ne; [exact Hf0|].
    congruence. }
  split.
  - intros pid f0 Hl. rewrite Htab in Hl.
    destruct (Ht pid f0 Hl) as (p0 & Hg0 & Hid0).
    destruct (Z.eq_dec f0 f) as [->|Hne].
    + exists p'. split; [exact Hat|]. congruence.
    + exists p0. split; [rewrite Hother by exact Hne; exact Hg0|exact Hid0].
  - intros f0 Hin. rewrite Hfree in Hin. rewrite Htab.
    destruct (Hf f0 Hin) as ((p0 & Hg0) & Hno). split; [|exact Hno].
    destruct (Z.eq_dec f0 f) as [->|Hne].
    + exists p'. exact Hat.
    + exists p0. rewrite Hother by exact Hne. exact Hg0.
  - rewrite Hfree. exact Hn.
  - intros f0 p0 Hg0. destruct (Z.eq_dec f0 f) as [->|Hne].
    + rewrite Hat in Hg0. injection Hg0 as <-. exact Hpin.
    + rewrite Hother in Hg0 by exact Hne. exact (Hp f0 p0 Hg0).
Qed.

(** Only the replacer and the disk change. *)
Lemma wf_same_frames (b b' : Pool) :
  pool_wf b ->
  pages_ b' = pages_ b -> page_table_ b' = page_table_ b ->
  free_list_ b' = free_list_ b ->
  pool_wf b'.
Proof.
  intros [Ht Hf Hn Hp] Hpages Htab Hfree.
  assert (Hsame : forall f0, get_page b' f0 = get_page b f0).
  { intros f0. unfold get_page. rewrite Hpages. reflexivity. }
  split.
  - intros pid f0 Hl. rewrite Htab in Hl. rewrite Hsame. exact (Ht pid f0 Hl).
  - intros f0 Hin. rewrite Hfree in Hin. rewrite Hsame, Htab. exact (Hf f0 Hin).
  - rewrite Hfree. exact Hn.
  - intros f0 p0 Hg0. rewrite Hsame in Hg0. exact (Hp f0 p0 Hg0).
Qed.

(** A frame that holds no resident page and is not free takes a page. *)
Lemma wf_install (b b' : Pool) (f pid : Z) (p p' : Page) :
  pool_wf b ->
  get_page b f = Ok p ->
  (forall pid0, pid0 <> pid -> page_table_ b !! pid0 <> Some f) ->
  f ∉ free_list_ b ->
  page_id_ p' = pid -> 0 <= pin_count_ p' ->
  pages_ b' = <[Z.to_nat f := p']> (pages_ b) ->
  page_table_ b' = <[pid := f]> (page_table_ b) ->
  free_list_ b' = free_list_ b ->
  pool_wf b'.
Proof.
  intros [Ht Hf Hn Hp] Hget Hnone Hnotfree Hid Hpin Hpages Htab Hfree.
  pose proof (get_page_nonneg b f p Hget) as Hf0.
  assert (Hsame : forall f0, get_page b' f0 = get_page (set_page b f p') f0).
  { intros f0. unfold get_page. rewrite Hpages. reflexivity. }
  assert (Hat : get_page b' f = Ok p').
  { rewrite Hsame. eapply get_page_set_page. exact Hget. }
  assert (Hother : forall f0, f0 <> f -> get_page b' f0 = get_page b f0).
  { intros f0 Hne. rewrite Hsame. apply get_page_set_page_ne; [exact Hf0|].
    congruence. }
  split.
  - intros pid0 f0 Hl. rewrite Htab in Hl.
    destruct (Z.eq_dec pid0 pid) as [->|Hne].
    + rewrite lookup_insert_eq in Hl. injection Hl as <-.
      exists p'. split; [exact Hat|exact Hid].
    + rewrite lookup_insert_ne in Hl by congruence.
      destruct (Ht pid0 f0 Hl) as (p0 & Hg0 & Hid0).
      assert (f0 <> f) by (intros ->; exact (Hnone pid0 Hne Hl)).
      exists p0. split; [rewrite Hother by assumption; exact Hg0|exact Hid0].
  - intros f0 Hin. rewrite Hfree in Hin.
    assert (f0 <> f) by (intros ->; exact (Hnotfree Hin)).
    destruct (Hf f0 Hin) as ((p0 & Hg0) & Hno). split.
    + exists p0. rewrite Hother by assumption. exact Hg0.
    + intros pid0. rewrite Htab.
      destruct (Z.eq_dec pid0 pid) as [->|Hne].
      * rewrite lookup_insert_eq. congruence.
      * rewrite lookup_insert_ne by congruence. apply Hno.
  - rewrite Hfree. exact Hn.
  - intros f0 p0 Hg0. destruct (Z.eq_dec f0 f) as [->|Hne].
    + rewrite Hat in Hg0. injection Hg0 as <-. exact Hpin.
    + rewrite Hother in Hg0 by exact Hne. exact (Hp f0 p0 Hg0).
Qed.

(** The page of a frame is dropped from the page table. *)
Lemma wf_vacate (b b' : Pool) (f : Z) (p p' : Page) :
  pool_wf b ->
  get_page b f = Ok p ->
  0 <= pin_count_ p' ->
  pages_ b' = <[Z.to_nat f := p']> (pages_ b) ->
  page_table_ b' = delete (page_id_ p) (page_table_ b) ->
  free_list_ b' = free_list_ b ->
  pool_wf b' /\ forall pid, page_table_ b' !! pid <> Some f.
Proof.
  intros [Ht Hf Hn Hp] Hget Hpin Hpages Htab Hfree.
  pose proof (get_page_nonneg b f p Hget) as Hf0.
  assert (Hsame : forall f0, get_page b' f0 = get_page (set_page b f p') f0).
  { intros f0. unfold get_page. rewrite Hpages. reflexivity. }
  assert (Hat : get_page b' f = Ok p').
  { rewrite Hsame. eapply get_page_set_page. exact Hget. }
  assert (Hother : forall f0, f0 <> f -> get_page b' f0 = get_page b f0).
  { intros f0 Hne. rewrite Hsame. apply get_page_set_page_ne; [exact Hf0|].
    congruence. }
  assert (Hgone : forall pid, page_table_ b' !! pid <> Some f).
  { intros pid Hl. rewrite Htab in Hl.
    apply lookup_delete_Some in Hl as [Hne Hl].
    destruct (Ht pid f Hl) as (p0 & Hg0 & Hid0).
    rewrite Hget in Hg0. injection Hg0 as <-. congruence. }
  split; [|exact Hgone]. split.
  - intros pid f0 Hl.
    assert (f0 <> f) by (intros ->; exact (Hgone pid Hl)).
    rewrite Htab in Hl. apply lookup_delete_Some in Hl as [Hne Hl].
    destruct (Ht pid f0 Hl) as (p0 & Hg0 & Hid0).
    exists p0. split; [rewrite Hother by assumption; exact Hg0|exact Hid0].
  - intros f0 Hin. rewrite Hfree in Hin.
    destruct (Hf f0 Hin) as ((p0 & Hg0) & Hno). split.
    + destruct (Z.eq_dec f0 f) as [->|Hne].
      * exists p'. exact Hat.
      * exists p0. rewrite Hother by exact Hne. exact Hg0.
    + intros pid Hl. rewrite Htab in Hl.
      apply lookup_delete_Some in Hl as [_ Hl]. exact (Hno pid Hl).
  - rewrite Hfree. exact Hn.
  - intros f0 p0 Hg0. destruct (Z.eq_dec f0 f) as [->|Hne].
    + rewrite Hat in Hg0. injection Hg0 as <-. exact Hpin.
    + rewrite Hother in Hg0 by exact Hne. exact (Hp f0 p0 Hg0).
Qed.

Lemma pick_frame_wf (b b1 : Pool) (f : Z) :
  pool_wf b ->
  pick_frame zero_data b = Ok (f, b1) ->
  pool_wf b1
  /\ (exists p, get_page b1 f = Ok p)
  /\ (forall pid, page_table_ b1 !! pid <> Some f)
  /\ f ∉ free_list_ b1.
Proof.
  intros Hwf. unfold pick_frame.
  destruct (free_list_ b) as [|f0 rest] eqn:Hfl.
  - simpl.
    destruct (LRUKReplacer.Evict (replacer_ b)) as [[[v|] r]|] eqn:Hev;
      simpl; try discriminate.
    destruct (get_page (set_replacer b r) v) as [p|] eqn:Hget;
      simpl; [|discriminate].
    assert (Hget0 : get_page b v = Ok p) by exact Hget.
    destruct (is_dirty_ p) eqn:Hd; intros [= <- <-].
    + destruct (wf_vacate b
                  (set_page_table
                     (set_page (WritePage (set_replacer b r) (page_id_ p) (data_ p))
                        v (with_data (with_dirty p false) zero_data))
                     (delete (page_id_ p) (page_table_ b)))
                  v p (with_data (with_dirty p false) zero_data) Hwf Hget0)
        as (Hwf1 & Hgone); try reflexivity.
      { simpl. exact (wf_pins b Hwf v p Hget0). }
      split; [exact Hwf1|]. split; [|split; [exact Hgone|]].
      * eexists. simpl. eapply (get_page_set_page (set_replacer b r)). exact Hget.
      * simpl. rewrite Hfl. apply not_elem_of_nil.
    + destruct (wf_vacate b
                  (set_page_table
                     (set_page (set_replacer b r) v (with_data p zero_data))
                     (delete (page_id_ p) (page_table_ b)))
                  v p (with_data p zero_data) Hwf Hget0)
        as (Hwf1 & Hgone); try reflexivity.
      { simpl. exact (wf_pins b Hwf v p Hget0). }
      split; [exact Hwf1|]. split; [|split; [exact Hgone|]].
      * eexists. simpl. eapply (get_page_set_page (set_replacer b r)). exact Hget.
      * simpl. rewrite Hfl. apply not_elem_of_nil.
  - intros [= <- <-].
    pose proof (wf_nodup b Hwf) as Hnd. rewrite Hfl in Hnd.
    apply NoDup_cons in Hnd as [Hnotin Hnd].
    destruct (wf_free b Hwf f0) as ((p & Hget) & Hno);
      [rewrite Hfl; apply list_elem_of_here|].
    split; [|split; [exists p; exact Hget|split; [exact Hno|exact Hnotin]]].
    destruct Hwf as [Ht Hf Hn Hp]. split; simpl.
    + exact Ht.
    + intros f1 Hin. apply Hf. rewrite Hfl. apply list_elem_of_further. exact Hin.
    + exact Hnd.
    + exact Hp.
Qed.

Lemma NewPage_wf (b b' : Pool) (r : option (Z * Z)) :
  pool_wf b -> NewPage zero_data b = Ok (r, b') -> pool_wf b'.
Proof.
  intros Hwf. unfold NewPage.
  destruct (bool_decide (free_list_ b = []) && _); [intros [= <- <-]; exact Hwf|].
  destruct (pick_frame zero_data b) as [[f b1]|] eqn:Hpick; simpl; [|discriminate].
  destruct (pick_frame_wf b b1 f Hwf Hpick) as (Hwf1 & (p & Hget) & Hgone & Hnf).
  assert (Hget2 : get_page (AllocatePage b1).2 f = Ok p) by exact Hget.
  simpl in Hget2. rewrite Hget2. simpl.
  destruct (LRUKReplacer.RecordAccess f _) as [r1|]; simpl; [|discriminate].
  destruct (LRUKReplacer.SetEvictable f false r1) as [r2|]; simpl; [|discriminate].
  intros [= <- <-].
  eapply (wf_install b1 _ f (next_page_id_ b1) p
            (with_pin_count (with_page_id p (next_page_id_ b1)) (pin_count_ p + 1)));
    try reflexivity; try assumption.
  - intros pid0 _. apply Hgone.
  - simpl. pose proof (wf_pins b1 Hwf1 f p Hget). lia.
  - simpl. apply list_insert_insert_eq.
Qed.

Lemma FetchPage_wf (b b' : Pool) (page_id : Z) (r : option Z) :
  pool_wf b -> FetchPage zero_data b page_id = Ok (r, b') -> pool_wf b'.
Proof.
  intros Hwf. unfold FetchPage.
  destruct (page_table_ b !! page_id) as [f|] eqn:Ht.
  - destruct (get_page b f) as [p|] eqn:Hget; simpl; [|discriminate].
    intros [= <- <-].
    eapply (wf_update_frame b _ f p (with_pin_count p (pin_count_ p + 1)));
      try reflexivity; try assumption.
    simpl. pose proof (wf_pins b Hwf f p Hget). lia.
  - destruct (bool_decide (free_list_ b = []) && _);
      [intros [= <- <-]; exact Hwf|].
    destruct (pick_frame zero_data b) as [[f b1]|] eqn:Hpick; simpl;
      [|discriminate].
    destruct (pick_frame_wf b b1 f Hwf Hpick) as (Hwf1 & (p & Hget) & Hgone & Hnf).
    rewrite Hget. simpl.
    destruct (LRUKReplacer.RecordAccess f _) as [r1|]; simpl; [|discriminate].
    destruct (LRUKReplacer.SetEvictable f false r1) as [r2|]; simpl;
      [|discriminate].
    intros [= <- <-].
    eapply (wf_install b1 _ f page_id p
              (with_pin_count
                 (with_data (with_page_id p page_id)
                    (default zero_data (disk_ b1 !! page_id)))
                 (pin_count_ p + 1)));
      try reflexivity; try assumption.
    + intros pid0 _. apply Hgone.
    + simpl. pose proof (wf_pins b1 Hwf1 f p Hget). lia.
    + simpl. apply list_insert_insert_eq.
Qed.

Lemma UnpinPage_wf (b b' : Pool) (page_id : Z) (is_dirty r : bool) :
  pool_wf b -> UnpinPage b page_id is_dirty = Ok (r, b') -> pool_wf b'.
Proof.
  intros Hwf. unfold UnpinPage.
  destruct (page_table_ b !! page_id) as [f|] eqn:Ht;
    [|intros [= <- <-]; exact Hwf].
  destruct (get_page b f) as [p|] eqn:Hget; simpl; [|discriminate].
  destruct (Z.leb_spec (pin_count_ p) 0); [intros [= <- <-]; exact Hwf|].
  destruct (if pin_count_ p - 1 =? 0
            then LRUKReplacer.SetEvictable f true (replacer_ b)
            else Ok (replacer_ b)) as [r0|]; simpl; [|discriminate].
  intros [= <- <-].
  eapply (wf_update_frame b _ f p
            (with_dirty (with_pin_count p (pin_count_ p - 1)) is_dirty));
    try reflexivity; try assumption.
  - simpl. lia.
  - simpl. apply list_insert_insert_eq.
Qed.

Lemma FlushPage_wf (b b' : Pool) (page_id : Z) (r : bool) :
  pool_wf b -> FlushPage b page_id = Ok (r, b') -> pool_wf b'.
Proof.
  intros Hwf. unfold FlushPage.
  destruct (page_table_ b !! page_id) as [f|] eqn:Ht;
    [|intros [= <- <-]; exact Hwf].
  destruct (get_page b f) as [p|] eqn:Hget; simpl; [|discriminate].
  intros [= <- <-].
  eapply (wf_update_frame b _ f p (with_dirty p false));
    try reflexivity; try assumption.
  simpl. exact (wf_pins b Hwf f p Hget).
Qed.

Lemma DeletePage_wf (b b' : Pool) (page_id : Z) (r : bool) :
  pool_wf b -> DeletePage zero_data b page_id = Ok (r, b') -> pool_wf b'.
Proof.
  intros Hwf. unfold DeletePage.
  destruct (page_table_ b !! page_id) as [f|] eqn:Ht;
    [|intros [= <- <-]; exact Hwf].
  destruct (get_page b f) as [p|] eqn:Hget; simpl; [|discriminate].
  destruct (0 <? pin_count_ p); [intros [= <- <-]; exact Hwf|].
  destruct (LRUKReplacer.Remove f (replacer_ b)) as [r0|]; simpl; [|discriminate].
  intros [= <- <-].
  destruct (wf_table b Hwf page_id f Ht) as (p0 & Hg0 & Hid).
  rewrite Hget in Hg0. injection Hg0 as <-.
  set (p' := {| data_ := zero_data; page_id_ := INVALID_PAGE_ID;
                pin_count_ := 0; is_dirty_ := false; rwlatch_ := rwlatch_ p |}).
  destruct (wf_vacate b
              (set_page_table (set_page b f p') (delete (page_id_ p) (page_table_ b)))
              f p p' Hwf Hget) as (Hwf1 & Hgone); try reflexivity.
  assert (Hnotfree : f ∉ free_list_ b).
  { intros Hin. destruct (wf_free b Hwf f Hin) as (_ & Hno).
    exact (Hno page_id Ht). }
  destruct Hwf1 as [Ht1 Hf1 Hn1 Hp1]. rewrite Hid in *. split; simpl.
  - exact Ht1.
  - intros f0 Hin. apply elem_of_app in Hin as [Hin|Hin].
    + exact (Hf1 f0 Hin).
    + apply list_elem_of_singleton in Hin as ->. split; [|exact Hgone].
      exists p'. eapply (get_page_set_page b). exact Hget.
  - apply NoDup_app. split; [exact Hn1|]. split; [|apply NoDup_singleton].
    intros x Hx Hx'. apply list_elem_of_singleton in Hx' as ->.
    exact (Hnotfree Hx).
  - exact Hp1.
Qed.

Lemma int32_wrap_small (z : Z) :
  - 2 ^ 31 <= z < 2 ^ 31 -> int32_wrap z = z.
Proof. intros Hz. unfold int32_wrap. rewrite Z.mod_small; lia. Qed.

Lemma init_free_list (pool_size replacer_k : Z) :
  pool_size <= 2 ^ 31 ->
  free_list_ (init zero_data pool_size replacer_k)
  = Z.of_nat <$> seq 0 (Z.to_nat pool_size).
Proof.
  intros Hn. simpl. apply list_fmap_ext. intros j i Hi.
  apply lookup_seq in Hi as [-> Hi]. apply int32_wrap_small. lia.
Qed.

Lemma init_wf (pool_size replacer_k : Z) :
  pool_size <= 2 ^ 31 ->
  pool_wf (init zero_data pool_size replacer_k).
Proof.
  intros Hn. pose proof (init_free_list pool_size replacer_k Hn) as Hfl.
  split; [simpl|rewrite Hfl|rewrite Hfl|simpl].
  - intros pid f Hl. rewrite lookup_empty in Hl. discriminate.
  - intros f Hin.
    split; [|intros pid; simpl; rewrite lookup_empty; discriminate].
    apply list_elem_of_fmap in Hin as (i & -> & Hi). apply elem_of_seq in Hi.
    exists (fresh_page zero_data). apply get_page_lookup. split; [lia|].
    simpl. rewrite Nat2Z.id. apply lookup_replicate. split; [reflexivity|lia].
  - apply NoDup_fmap; [|apply NoDup_seq]. intros x y Hxy. lia.
  - intros f p Hget. apply get_page_lookup in Hget as [_ Hl]. simpl in Hl.
    apply lookup_replicate in Hl as [-> _]. simpl. lia.
Qed.

(** X20: The page table, the free list and the pin counts stay consistent: every
    call of [NewPage], [FetchPage], [UnpinPage], [FlushPage] and
    [DeletePage] that returns leaves a pool in which each resident page sits
    in the frame the page table names, free frames hold no resident page,
    and no pin count is negative.  The pool the constructor builds for a
    pool size of at most [2^31] is such a pool ([init_wf]). *)
Theorem BufferPool_consistency (b : Pool) :
  pool_wf b ->
  (forall r b', NewPage zero_data b = Ok (r, b') -> pool_wf b')
  /\ (forall page_id r b',
        FetchPage zero_data b page_id = Ok (r, b') -> pool_wf b')
  /\ (forall page_id is_dirty r b',
        UnpinPage b page_id is_dirty = Ok (r, b') -> pool_wf b')
  /\ (forall page_id r b', FlushPage b page_id = Ok (r, b') -> pool_wf b')
  /\ (forall page_id r b',
        DeletePage zero_data b page_id = Ok (r, b') -> pool_wf b').
Proof.
  intros Hwf. split; [|split; [|split; [|split]]].
  - intros r b'. apply NewPage_wf. exact Hwf.
  - intros page_id r b'. apply FetchPage_wf. exact Hwf.
  - intros page_id is_dirty r b'. apply UnpinPage_wf. exact Hwf.
  - intros page_id r b'. apply FlushPage_wf. exact Hwf.
  - intros page_id r b'. apply DeletePage_wf. exact Hwf.
Qed.

End PoolInvariant.

Section FreshPool.

Import BufferPoolManager.

Context {Data : Type}.
Variable zero_data : Data.

Local Abbreviation Pool := (t (Data:=Data)).

Lemma init_fresh_after (pool_size replacer_k : Z) :
  pool_size <= 2 ^ 31 ->
  fresh_after zero_data pool_size 0 (init zero_data pool_size replacer_k).
Proof.
  intros Hn.
  pose proof (init_free_list zero_data pool_size replacer_k Hn) as Hfl.
  split; [rewrite Hfl|..]; simpl; try reflexivity.
  all: try (rewrite Nat.sub_0_r; reflexivity).
  all: try apply length_replicate.
  all: try (intros j Hj; lia).
  all: try (intros j Hj; apply lookup_replicate; split; [reflexivity|lia]).
  all: try (intros f _; apply lookup_empty).
Qed.

Lemma NewPage_fresh_step (n : Z) (i : nat) (b : Pool) :
  n < 2 ^ 31 -> (i < Z.to_nat n)%nat ->
  fresh_after zero_data n i b ->
  exists b',
    NewPage zero_data b = Ok (Some (Z.of_nat i, Z.of_nat i), b')
    /\ fresh_after zero_data n (S i) b'.
Proof.
  intros Hn Hi [Hfree Hnext Hlen Hpin Hfresh Hsize Hrsize Hunt].
  assert (Hmax : n < size_t_max) by (unfold size_t_max; lia).
  assert (Hseq : seq i (Z.to_nat n - i) = i :: seq (S i) (Z.to_nat n - S i)).
  { replace (Z.to_nat n - i)%nat with (S (Z.to_nat n - S i)) by lia. reflexivity. }
  rewrite Hseq in Hfree. simpl in Hfree.
  unfold NewPage. rewrite Hfree. simpl.
  unfold pick_frame. rewrite Hfree. simpl.
  assert (Hget : get_page b (Z.of_nat i) = Ok (fresh_page zero_data)).
  { apply get_page_lookup. split; [lia|]. rewrite Nat2Z.id. apply Hfresh. lia. }
  unfold AllocatePage. simpl.
  replace (get_page _ (Z.of_nat i)) with (get_page b (Z.of_nat i)) by reflexivity.
  rewrite Hget. simpl.
  assert (Hrange : LRUKReplacer.frame_in_range (Z.of_nat i) (replacer_ b) = true).
  { unfold LRUKReplacer.frame_in_range, size_t_wrap. rewrite Hrsize.
    rewrite Z.mod_small by lia. apply Z.leb_le. lia. }
  unfold LRUKReplacer.RecordAccess. simpl.
  unfold LRUKReplacer.frame_in_range in *. simpl. rewrite Hrange. simpl.
  rewrite (Hunt (Z.of_nat i)) by lia. simpl.
  unfold LRUKReplacer.SetEvictable, LRUKReplacer.frame_in_range. simpl.
  rewrite Hrange. simpl. rewrite lookup_insert_eq. simpl.
  eexists. split; [rewrite Hnext; reflexivity|].
  split; simpl.
  - reflexivity.
  - rewrite int32_wrap_small by lia. lia.
  - rewrite !length_insert. exact Hlen.
  - intros j Hj. rewrite list_insert_insert_eq, Nat2Z.id.
    destruct (decide (j = i)) as [->|Hne].
    + rewrite list_lookup_insert_eq by lia. reflexivity.
    + rewrite list_lookup_insert_ne by lia. apply Hpin. lia.
  - intros j Hj. rewrite list_insert_insert_eq, Nat2Z.id.
    rewrite list_lookup_insert_ne by lia. apply Hfresh. lia.
  - exact Hsize.
  - exact Hrsize.
  - intros f Hf. rewrite lookup_insert_ne by lia. apply Hunt. lia.
Qed.

Lemma NewPage_times_fresh (n : Z) (k i : nat) (b : Pool) :
  n < 2 ^ 31 -> (i + k = Z.to_nat n)%nat ->
  fresh_after zero_data n i b ->
  exists b',
    NewPage_times zero_data k b
    = Ok ((fun j => Some (Z.of_nat j, Z.of_nat j)) <$> seq i k, b')
    /\ fresh_after zero_data n (Z.to_nat n) b'.
Proof.
  intros Hn. revert i b. induction k as [|k IH]; intros i b Hik Hfa.
  - exists b. split; [reflexivity|]. replace (Z.to_nat n) with i by lia. exact Hfa.
  - destruct (NewPage_fresh_step n i b Hn ltac:(lia) Hfa) as (b1 & Hnew & Hfa1).
    destruct (IH (S i) b1 ltac:(lia) Hfa1) as (b' & Htimes & Hfa').
    exists b'. split; [|exact Hfa'].
    simpl. rewrite Hnew. simpl. rewrite Htimes. reflexivity.
Qed.

(** X21: A new pool of [pool_size] frames, [pool_size] below [2^31] so that
    frame ids and page ids fit their 32-bit types, serves [pool_size] calls
    of [NewPage]: call [i] returns page id [i] in frame [i], pinned once.
    With every frame pinned the next [NewPage], and every [FetchPage] of a
    page that is not resident, returns a null pointer and changes
    nothing. *)
Theorem NewPage_fresh_pool (pool_size replacer_k : Z) :
  0 <= pool_size < 2 ^ 31 ->
  exists b',
    NewPage_times zero_data (Z.to_nat pool_size)
      (init zero_data pool_size replacer_k)
    = Ok ((fun j => Some (Z.of_nat j, Z.of_nat j))
            <$> seq 0 (Z.to_nat pool_size), b')
    /\ pin_count_ <$> pages_ b' = replicate (Z.to_nat pool_size) 1
    /\ NewPage zero_data b' = Ok (None, b')
    /\ (forall page_id,
          page_table_ b' !! page_id = None ->
          FetchPage zero_data b' page_id = Ok (None, b')).
Proof.
  intros Hn.
  destruct (NewPage_times_fresh pool_size (Z.to_nat pool_size) 0
              (init zero_data pool_size replacer_k) ltac:(lia) ltac:(lia)
              (init_fresh_after pool_size replacer_k ltac:(lia)))
    as (b' & Htimes & Hfa).
  exists b'. split; [exact Htimes|].
  destruct Hfa as [Hfree Hnext Hlen Hpin Hfresh Hsize Hrsize Hunt].
  rewrite Nat.sub_diag in Hfree. simpl in Hfree.
  split; [|split].
  - apply list_eq. intros j. rewrite list_lookup_fmap.
    destruct (decide (j < Z.to_nat pool_size)%nat) as [Hj|Hj].
    + rewrite (Hpin j Hj).
      symmetry. apply lookup_replicate. split; [reflexivity|exact Hj].
    + rewrite (lookup_ge_None_2 (pages_ b')) by lia. simpl.
      symmetry. apply lookup_replicate_None. lia.
  - unfold NewPage, LRUKReplacer.Size. rewrite Hfree, Hsize. reflexivity.
  - intros page_id Hnone. unfold FetchPage, LRUKReplacer.Size.
    rewrite Hnone, Hfree, Hsize. reflexivity.
Qed.

End FreshPool.

Section PoolOperations.

Import BufferPoolManager.

Context {Data : Type}.
Variable zero_data : Data.

Local Abbreviation Pool := (t (Data:=Data)).

Lemma Evict_Some (r r' : LRUKReplacer.t) (f : Z) :
  LRUKReplacer.Evict r = Ok (Some f, r') ->
  LRUKReplacer.node_store_ r' !! f = None
  /\ LRUKReplacer.replacer_size_ r' = LRUKReplacer.replacer_size_ r
  /\ LRUKReplacer.evictable_size_ r <> 0.
Proof.
  unfold LRUKReplacer.Evict.
  destruct (Z.eqb_spec (LRUKReplacer.evictable_size_ r) 0) as [|Hne];
    [discriminate|].
  destruct (LRUKReplacer.scan _ (LRUKReplacer.temp_pool_ r)) as [[v|]|];
    simpl; try discriminate.
  - intros [= -> <-]. simpl. split; [apply lookup_delete_eq|].
    split; [reflexivity|exact Hne].
  - destruct (LRUKReplacer.scan _ _) as [[v|]|]; simpl; try discriminate.
    intros [= -> <-]. simpl. split; [apply lookup_delete_eq|].
    split; [reflexivity|exact Hne].
Qed.

(** X22: [FetchPage] of a page that is not resident, with no free frame: the
    frame the replacer evicts is reused.  A dirty victim is written to disk
    under its own page id before the new page is read; the victim leaves the
    page table and the new page enters it, pinned and clean. *)
Theorem FetchPage_evicts_victim (b : Pool) (page_id f : Z)
    (r' : LRUKReplacer.t) (p : Page) :
  page_table_ b !! page_id = None ->
  free_list_ b = [] ->
  LRUKReplacer.Evict (replacer_ b) = Ok (Some f, r') ->
  get_page b f = Ok p ->
  LRUKReplacer.frame_in_range f (replacer_ b) = true ->
  exists b',
    FetchPage zero_data b page_id = Ok (Some f, b')
    /\ disk_ b' = (if is_dirty_ p then <[page_id_ p := data_ p]> (disk_ b)
                   else disk_ b)
    /\ disk_log_ b'
       = disk_log_ b
         ++ (if is_dirty_ p then [WritePageOp (page_id_ p)] else [])
         ++ [ReadPageOp page_id]
    /\ page_table_ b' = <[page_id := f]> (delete (page_id_ p) (page_table_ b))
    /\ get_page b' f
       = Ok {| data_ := default zero_data (disk_ b' !! page_id);
               page_id_ := page_id;
               pin_count_ := pin_count_ p + 1;
               is_dirty_ := false;
               rwlatch_ := rwlatch_ p |}.
Proof.
  intros Hnone Hfree Hev Hget Hrange.
  destruct (Evict_Some _ _ _ Hev) as (Hgone & Hrsize & Hsize).
  pose proof (get_page_lookup b f p) as [Hlk _]. destruct (Hlk Hget) as [Hf0 Hl].
  assert (Hlen : (Z.to_nat f < length (pages_ b))%nat)
    by (eapply lookup_lt_Some; exact Hl).
  unfold FetchPage. rewrite Hnone, Hfree. simpl.
  unfold LRUKReplacer.Size.
  destruct (Z.eqb_spec (LRUKReplacer.evictable_size_ (replacer_ b)) 0);
    [contradiction|].
  unfold pick_frame. rewrite Hfree, Hev. simpl.
  replace (get_page (set_replacer b r') f) with (get_page b f) by reflexivity.
  rewrite Hget. simpl.
  assert (Hrange' : LRUKReplacer.frame_in_range f r' = true).
  { unfold LRUKReplacer.frame_in_range in *. rewrite Hrsize. exact Hrange. }
  destruct (is_dirty_ p) eqn:Hd; simpl.
  - assert (Hg1 : get_page
                     (set_page_table
                        (set_page
                           (WritePage (set_replacer b r') (page_id_ p) (data_ p))
                           f (with_data (with_dirty p false) zero_data))
                        (delete (page_id_ p) (page_table_ b))) f
                   = Ok (with_data (with_dirty p false) zero_data)).
    { apply (get_page_set_page
               (WritePage (set_replacer b r') (page_id_ p) (data_ p)) f p).
      exact Hget. }
    rewrite Hg1. simpl. unfold LRUKReplacer.RecordAccess. simpl. rewrite Hrange'. simpl.
    rewrite Hgone. simpl.
    unfold LRUKReplacer.SetEvictable, LRUKReplacer.frame_in_range. simpl.
    unfold LRUKReplacer.frame_in_range in Hrange'. rewrite Hrange'. simpl.
    rewrite lookup_insert_eq. simpl.
    eexists. split; [reflexivity|]. simpl.
    split; [reflexivity|]. split; [rewrite <- app_assoc; reflexivity|].
    split; [reflexivity|].
    apply get_page_lookup. split; [exact Hf0|]. simpl.
    rewrite !list_insert_insert_eq. apply list_lookup_insert_eq. exact Hlen.
  - assert (Hg1 : get_page
                     (set_page_table
                        (set_page (set_replacer b r') f (with_data p zero_data))
                        (delete (page_id_ p) (page_table_ b))) f
                   = Ok (with_data p zero_data)).
    { apply (get_page_set_page (set_replacer b r') f p). exact Hget. }
    rewrite Hg1. simpl. unfold LRUKReplacer.RecordAccess. simpl. rewrite Hrange'. simpl.
    rewrite Hgone. simpl.
    unfold LRUKReplacer.SetEvictable, LRUKReplacer.frame_in_range. simpl.
    unfold LRUKReplacer.frame_in_range in Hrange'. rewrite Hrange'. simpl.
    rewrite lookup_insert_eq. simpl.
    eexists. split; [reflexivity|]. simpl.
    split; [reflexivity|]. split; [reflexivity|]. split; [reflexivity|].
    apply get_page_lookup. split; [exact Hf0|]. simpl.
    rewrite !list_insert_insert_eq.
    unfold with_pin_count, with_data, with_page_id. simpl. rewrite Hd.
    apply list_lookup_insert_eq. exact Hlen.
Qed.

(** X23: A page that has just lost its last pin cannot be deleted: [UnpinPage]
    marks the frame evictable, and [DeletePage] then calls the replacer's
    [Remove], whose check stops on an evictable frame. *)
Theorem DeletePage_after_last_unpin (b : Pool) (page_id f : Z) (p : Page)
    (n : LRUKReplacer.LRUKNode) (is_dirty : bool) :
  page_table_ b !! page_id = Some f ->
  get_page b f = Ok p ->
  pin_count_ p = 1 ->
  LRUKReplacer.frame_in_range f (replacer_ b) = true ->
  LRUKReplacer.node_store_ (replacer_ b) !! f = Some n ->
  exists b1,
    UnpinPage b page_id is_dirty = Ok (true, b1)
    /\ DeletePage zero_data b1 page_id = Fail AssertionViolation.
Proof.
  intros Ht Hget Hpin Hrange Hnode.
  destruct (UnpinPage_resident b page_id f p is_dirty Ht Hget ltac:(lia) Hrange)
    as (r & Hr & Hun).
  rewrite Hpin in Hr, Hun. simpl in Hr.
  set (p1 := with_pin_count p (1 - 1)) in *.
  set (b1 := set_page (set_replacer (set_page b f p1) r) f
               (with_dirty p1 is_dirty)) in *.
  assert (Hg1 : get_page b1 f = Ok (with_dirty p1 is_dirty)).
  { apply (get_page_set_page (set_replacer (set_page b f p1) r) f p1).
    apply (get_page_set_page b f p). exact Hget. }
  exists b1. split; [exact Hun|].
  unfold DeletePage.
  replace (page_table_ b1) with (page_table_ b) by reflexivity.
  rewrite Ht, Hg1. simpl.
  unfold LRUKReplacer.SetEvictable in Hr. rewrite Hrange, Hnode in Hr.
  simpl in Hr. unfold LRUKReplacer.Remove.
  destruct (LRUKReplacer.GetEvictable n) eqn:He; simpl in Hr;
    injection Hr as <-; simpl.
  - rewrite Hnode. simpl. rewrite He. reflexivity.
  - rewrite lookup_insert_eq. reflexivity.
Qed.

End PoolOperations.

Section FlushAll.

Import BufferPoolManager.

Context {Data : Type}.

Local Abbreviation Pool := (t (Data:=Data)).
Local Abbreviation in_pool := (is_frame_number (Data:=Data)).

Lemma FlushAllPages_loop_ok (its : list (Z * Z)) (b : Pool) :
  (forall it, it ∈ its -> in_pool b it.1) ->
  exists b',
    BufferPool.FlushAllPages_loop its b = Ok b'
    /\ data_ <$> pages_ b' = data_ <$> pages_ b
    /\ page_table_ b' = page_table_ b
    /\ (forall i, Z.of_nat i ∉ its.*1 -> pages_ b' !! i = pages_ b !! i)
    /\ (forall pid, pid ∈ its.*1 ->
          disk_ b' !! pid = data_ <$> pages_ b !! Z.to_nat pid
          /\ is_dirty_ <$> pages_ b' !! Z.to_nat pid = Some false)
    /\ (forall pid, pid ∉ its.*1 -> disk_ b' !! pid = disk_ b !! pid).
Proof.
  revert b. induction its as [|[pid f] rest IH]; intros b Hin.
  - exists b. simpl.
    split; [reflexivity|]. split; [reflexivity|]. split; [reflexivity|].
    split; [reflexivity|]. split; [|reflexivity].
    intros pid Hp. apply elem_of_nil in Hp. contradiction.
  - destruct (Hin (pid, f) ltac:(apply list_elem_of_here)) as [Hp0 Hplen'].
    simpl in Hp0, Hplen'.
    assert (Hplen : (Z.to_nat pid < length (pages_ b))%nat) by lia.
    destruct (lookup_lt_is_Some_2 _ _ Hplen) as [p Hl].
    assert (Hget : get_page b pid = Ok p) by (apply get_page_lookup; auto).
    set (b1 := set_page (WritePage b pid (data_ p)) pid (with_dirty p false)).
    assert (Hdata1 : data_ <$> pages_ b1 = data_ <$> pages_ b).
    { simpl. rewrite list_fmap_insert. simpl. apply list_insert_id.
      rewrite list_lookup_fmap, Hl. reflexivity. }
    assert (Hlen1 : length (pages_ b1) = length (pages_ b)).
    { simpl. apply length_insert. }
    destruct (IH b1) as (b' & Hloop & Hdata & Htab & Hkeep & Hdone & Hrest).
    { intros it Hit. unfold is_frame_number. rewrite Hlen1. apply Hin.
      apply list_elem_of_further. exact Hit. }
    exists b'. simpl. rewrite Hget. simpl. fold b1.
    split; [exact Hloop|]. split; [congruence|]. split; [exact Htab|].
    split; [|split].
    + intros i Hi. rewrite not_elem_of_cons in Hi. destruct Hi as [Hne Hi].
      rewrite (Hkeep i Hi). simpl. apply list_lookup_insert_ne. lia.
    + intros pid0 Hp. apply elem_of_cons in Hp.
      destruct (decide (pid0 ∈ rest.*1)) as [Hr|Hr].
      * destruct (Hdone pid0 Hr) as [Hdisk Hdirty]. split; [|exact Hdirty].
        rewrite Hdisk, <- !list_lookup_fmap, Hdata1. reflexivity.
      * destruct Hp as [->|Hp]; [|contradiction]. split.
        -- rewrite (Hrest pid Hr). simpl. rewrite lookup_insert_eq, Hl.
           reflexivity.
        -- rewrite (Hkeep (Z.to_nat pid)) by (rewrite Z2Nat.id by lia; exact Hr).
           simpl. rewrite list_lookup_insert_eq by exact Hplen. reflexivity.
    + intros pid0 Hp. rewrite not_elem_of_cons in Hp. destruct Hp as [Hne Hp].
      rewrite (Hrest pid0 Hp). simpl. apply lookup_insert_ne. congruence.
Qed.

Lemma FlushAllPages_loop_fail (its : list (Z * Z)) (b : Pool) :
  (exists it, it ∈ its /\ ~ in_pool b it.1) ->
  BufferPool.FlushAllPages_loop its b = Fail OutOfBounds.
Proof.
  revert b. induction its as [|[pid f] rest IH]; intros b (it & Hit & Hbad).
  - apply elem_of_nil in Hit. contradiction.
  - simpl. destruct (get_page b pid) as [p|fault] eqn:Hget; simpl.
    + apply IH. apply elem_of_cons in Hit as [->|Hit].
      * exfalso. apply Hbad. simpl. apply get_page_lookup in Hget as [H0 Hl].
        apply lookup_lt_Some in Hl. unfold is_frame_number. lia.
      * exists it. split; [exact Hit|]. unfold is_frame_number. simpl.
        rewrite length_insert. exact Hbad.
    + unfold get_page in Hget. destruct (pid <? 0); [congruence|].
      destruct (pages_ b !! Z.to_nat pid); [discriminate|congruence].
Qed.

(** X24: [FlushAllPages] takes the page id of each resident page for the frame
    number.  Whatever the order in which the page table is walked: when
    every resident page id is also a frame number, the frame with that
    number is written to disk under the page id and its dirty flag is
    cleared, whichever page it holds; when some resident page id is no frame
    number, the call runs out of the frame array. *)
Theorem FlushAllPages_by_page_id (its : list (Z * Z)) (b : Pool) :
  its ≡ₚ map_to_list (page_table_ b) ->
  ((forall pid f, page_table_ b !! pid = Some f -> in_pool b pid) ->
   exists b',
     BufferPool.FlushAllPages_loop its b = Ok b'
     /\ (forall pid f,
           page_table_ b !! pid = Some f ->
           disk_ b' !! pid = data_ <$> pages_ b !! Z.to_nat pid
           /\ is_dirty_ <$> pages_ b' !! Z.to_nat pid = Some false)
     /\ (forall pid, page_table_ b !! pid = None ->
                     disk_ b' !! pid = disk_ b !! pid)
     /\ data_ <$> pages_ b' = data_ <$> pages_ b)
  /\ ((exists pid f, page_table_ b !! pid = Some f /\ ~ in_pool b pid) ->
      BufferPool.FlushAllPages_loop its b = Fail OutOfBounds).
Proof.
  intros Hperm.
  assert (Hits : forall pid f, (pid, f) ∈ its <-> page_table_ b !! pid = Some f).
  { intros pid f. rewrite Hperm. apply elem_of_map_to_list. }
  assert (Hkeys : forall pid, pid ∈ its.*1 <-> is_Some (page_table_ b !! pid)).
  { intros pid. rewrite list_elem_of_fmap. split.
    - intros ([pid0 f] & -> & Hin). exists f. apply Hits. exact Hin.
    - intros [f Hf]. exists (pid, f). split; [reflexivity|]. apply Hits. exact Hf. }
  split.
  - intros Hall.
    destruct (FlushAllPages_loop_ok its b)
      as (b' & Hloop & Hdata & _ & _ & Hdone & Hrest).
    { intros [pid f] Hin. apply (Hall pid f). apply Hits. exact Hin. }
    exists b'. split; [exact Hloop|]. split; [|split; [|exact Hdata]].
    + intros pid f Hf. apply Hdone. apply Hkeys. exists f. exact Hf.
    + intros pid Hnone. apply Hrest. rewrite Hkeys, Hnone.
      intros [x Hx]. discriminate.
  - intros (pid & f & Hf & Hbad). apply FlushAllPages_loop_fail.
    exists (pid, f). split; [apply Hits; exact Hf|exact Hbad].
Qed.

End FlushAll.

Section GuardProperties.

Import BufferPoolManager.

Context {Data : Type}.
Variable zero_data : Data.

Local Abbreviation Pool := (t (Data:=Data)).

(** X25: A read guard taken and dropped again: the pin count and the latch of the
    page, the page table and the disk are as before, the guard is empty,
    and the dirty flag of the page is false, whatever it was. *)
Theorem ReadGuard_fetch_then_drop (b : Pool) (page_id f : Z) (p : Page) :
  page_table_ b !! page_id = Some f ->
  get_page b f = Ok p ->
  page_id_ p = page_id ->
  writer_ (rwlatch_ p) = false -> 0 <= readers_ (rwlatch_ p) ->
  0 <= pin_count_ p ->
  LRUKReplacer.frame_in_range f (replacer_ b) = true ->
  exists g b1 g' b2,
    FetchPageRead zero_data b page_id = Ok (g, b1)
    /\ g_page_ g = Some f
    /\ PageGuard.ReadDrop g b1 = Ok (g', b2)
    /\ g_page_ g' = None
    /\ pages_ b2 = <[Z.to_nat f := with_dirty p false]> (pages_ b)
    /\ page_table_ b2 = page_table_ b
    /\ disk_ b2 = disk_ b
    /\ disk_log_ b2 = disk_log_ b.
Proof.
  intros Ht Hget Hid Hw Hrd Hpin Hrange.
  unfold FetchPageRead. rewrite Ht, Hget. simpl.
  unfold RLatchL. rewrite Hw. simpl.
  set (l1 := {| readers_ := readers_ (rwlatch_ p) + 1; writer_ := false |}).
  set (p1 := with_latch p l1).
  set (b0 := set_page b f p1).
  assert (Hg0 : get_page b0 f = Ok p1)
    by (apply (get_page_set_page b f p); exact Hget).
  unfold FetchPage.
  replace (page_table_ b0) with (page_table_ b) by reflexivity.
  rewrite Ht, Hg0. simpl.
  set (p2 := with_pin_count p1 (pin_count_ p1 + 1)).
  set (b1 := set_page b0 f p2).
  assert (Hg1 : get_page b1 f = Ok p2)
    by (apply (get_page_set_page b0 f p1); exact Hg0).
  exists {| g_bpm_ := true; g_page_ := Some f; g_is_dirty_ := false |}, b1.
  unfold PageGuard.ReadDrop, PageGuard.unlatch. simpl. rewrite Hg1. simpl.
  unfold PageGuard.RUnlatchL. simpl.
  destruct (Z.ltb_spec 0 (readers_ (rwlatch_ p) + 1)); [|lia]. simpl.
  set (l3 := {| readers_ := readers_ (rwlatch_ p) + 1 - 1; writer_ := false |}).
  set (p3 := with_latch p2 l3).
  set (b2 := set_page b1 f p3).
  assert (Hg2 : get_page b2 f = Ok p3)
    by (apply (get_page_set_page b1 f p2); exact Hg1).
  unfold DropBasic. simpl. rewrite Hg2. simpl. rewrite Hid.
  destruct (UnpinPage_resident b2 page_id f p3 false) as (r & _ & Hun);
    [exact Ht|exact Hg2|simpl; lia|exact Hrange|].
  rewrite Hun. simpl.
  do 2 eexists. split; [reflexivity|]. split; [reflexivity|].
  split; [reflexivity|]. split; [reflexivity|].
  split; [|split; [reflexivity|split; reflexivity]].
  simpl. rewrite !list_insert_insert_eq. f_equal.
  unfold with_dirty, with_pin_count, with_latch. simpl. f_equal.
  - lia.
  - subst l3. destruct (rwlatch_ p) as [rd wr]. simpl in *. subst wr.
    f_equal. lia.
Qed.

(** X26: [NewPageGuarded] on a pool without a free or evictable frame does not
    return an empty guard: the guard points at the frame the page table
    gives for the number found in [*page_id], and no pin is taken for it.
    Dropping that guard takes a pin away from the page in that frame. *)
Theorem NewPageGuarded_exhausted (b : Pool) (page_id f : Z) (p : Page) :
  free_list_ b = [] ->
  LRUKReplacer.Size (replacer_ b) = 0 ->
  page_table_ b !! page_id = Some f ->
  get_page b f = Ok p ->
  page_id_ p = page_id ->
  0 < pin_count_ p ->
  LRUKReplacer.frame_in_range f (replacer_ b) = true ->
  exists g g' b2 p2,
    BufferPool.NewPageGuarded zero_data b page_id = Ok (g, page_id, b)
    /\ g_page_ g = Some f
    /\ PageGuard.BasicDrop g b = Ok (g', b2)
    /\ get_page b2 f = Ok p2
    /\ pin_count_ p2 = pin_count_ p - 1.
Proof.
  intros Hfree Hsize Ht Hget Hid Hpin Hrange.
  unfold BufferPool.NewPageGuarded, NewPage. rewrite Hfree, Hsize. simpl.
  rewrite Ht.
  destruct (UnpinPage_resident b page_id f p false Ht Hget Hpin Hrange)
    as (r & _ & Hun).
  do 4 eexists. split; [reflexivity|]. split; [reflexivity|].
  unfold PageGuard.BasicDrop, DropBasic. simpl. rewrite Hget. simpl.
  rewrite Hid, Hun. simpl. split; [reflexivity|]. split.
  - eapply get_page_set_page.
    apply (get_page_set_page b f p). exact Hget.
  - reflexivity.
Qed.

(** The second case of the exhausted pool: for a number in [*page_id] that
    is no resident page, [NewPageGuarded] enters it into the page table
    under frame 0 and returns a guard on frame 0. *)
Lemma NewPageGuarded_exhausted_absent (b : Pool) (page_id : Z) :
  free_list_ b = [] ->
  LRUKReplacer.Size (replacer_ b) = 0 ->
  page_table_ b !! page_id = None ->
  BufferPool.NewPageGuarded zero_data b page_id
  = Ok ({| g_bpm_ := true; g_page_ := Some 0; g_is_dirty_ := false |},
        page_id,
        set_page_table b (<[page_id := 0]> (page_table_ b))).
Proof.
  intros Hfree Hsize Ht.
  unfold BufferPool.NewPageGuarded, NewPage. rewrite Hfree, Hsize. simpl.
  rewrite Ht. reflexivity.
Qed.

End GuardProperties.

Section PoolWitnesses.

Import BufferPoolManager PoolExamples.

Lemma BufferPool_consistency_witness :
  pool_wf (init (Data:=Z) 0 2 2)
  /\ exists r b', NewPage 0 (init (Data:=Z) 0 2 2) = Ok (r, b') /\ pool_wf b'.
Proof.
  assert (H0 : pool_wf (init (Data:=Z) 0 2 2)) by (apply init_wf; lia).
  split; [exact H0|].
  eexists _, _. split; [vm_compute; reflexivity|].
  eapply (proj1 (BufferPool_consistency 0 _ H0)).
  vm_compute; reflexivity.
Defined.

Lemma NewPage_fresh_pool_witness :
  exists b',
    NewPage_times (Data:=Z) 0 2 (init 0 2 2)
    = Ok ([Some (0, 0); Some (1, 1)], b')
    /\ pin_count_ <$> pages_ b' = [1; 1]
    /\ NewPage 0 b' = Ok (None, b').
Proof.
  destruct (NewPage_fresh_pool (Data:=Z) 0 2 2 ltac:(lia))
    as (b' & H1 & H2 & H3 & _).
  exists b'. split; [exact H1|]. split; [exact H2 | exact H3].
Defined.

Lemma FetchPage_evicts_victim_witness :
  exists b',
    FetchPage 0 idle_pool 5 = Ok (Some 0, b')
    /\ disk_ b' = <[0 := 0]> (disk_ idle_pool)
    /\ disk_log_ b' = [WritePageOp 0; ReadPageOp 5].
Proof.
  destruct (FetchPage_evicts_victim (Data:=Z) 0 idle_pool 5 0 _
              (mkPage 0 0 0 true (mkLatch 0 false))
              eq_refl eq_refl eq_refl eq_refl eq_refl)
    as (b' & H1 & H2 & H3 & _).
  exists b'. split; [exact H1|]. split; [exact H2 | exact H3].
Defined.

Lemma DeletePage_after_last_unpin_witness :
  exists b1,
    UnpinPage full_pool 0 false = Ok (true, b1)
    /\ DeletePage 0 b1 0 = Fail AssertionViolation.
Proof.
  exact (DeletePage_after_last_unpin (Data:=Z) 0 full_pool 0 0
           (mkPage 0 0 1 false (mkLatch 0 false)) _ false
           eq_refl eq_refl eq_refl eq_refl eq_refl).
Defined.

Lemma FlushAllPages_by_page_id_witness :
  map_to_list (page_table_ page1_in_frame0) = [(1, 0)]
  /\ data_ <$> pages_ page1_in_frame0 = [42; 0]
  /\ exists b',
       BufferPool.FlushAllPages page1_in_frame0 = Ok b'
       /\ disk_ b' !! 1 = Some 0
       /\ is_dirty_ <$> pages_ b' = [true; false].
Proof.
  split; [vm_compute; reflexivity|]. split; [vm_compute; reflexivity|].
  destruct (proj1 (FlushAllPages_by_page_id (Data:=Z)
                     (map_to_list (page_table_ page1_in_frame0))
                     page1_in_frame0 (Permutation_refl _)))
    as (b' & H1 & H2 & _).
  { intros pid f H. apply elem_of_map_to_list in H.
    change (map_to_list (page_table_ page1_in_frame0)) with [(1, 0)] in H.
    apply list_elem_of_singleton in H. injection H as -> ->.
    unfold is_frame_number.
    change (length (pages_ page1_in_frame0)) with 2%nat. simpl. lia. }
  exists b'. split; [exact H1|].
  destruct (H2 1 0 eq_refl) as [Hd Hc]. split; [exact Hd|].
  unfold BufferPool.FlushAllPages in H1.
  vm_compute in H1. injection H1 as <-. vm_compute. reflexivity.
Defined.

Lemma ReadGuard_fetch_then_drop_witness :
  exists g b1 g' b2,
    FetchPageRead 0 full_pool 0 = Ok (g, b1)
    /\ g_page_ g = Some 0
    /\ PageGuard.ReadDrop g b1 = Ok (g', b2)
    /\ g_page_ g' = None
    /\ pages_ b2 = pages_ full_pool.
Proof.
  destruct (ReadGuard_fetch_then_drop (Data:=Z) 0 full_pool 0 0
              (mkPage 0 0 1 false (mkLatch 0 false))
              eq_refl eq_refl eq_refl eq_refl
              ltac:(simpl; lia) ltac:(simpl; lia) eq_refl)
    as (g & b1 & g' & b2 & H1 & H2 & H3 & H4 & H5 & _).
  exists g, b1, g', b2.
  split; [exact H1|]. split; [exact H2|]. split; [exact H3|].
  split; [exact H4 | exact H5].
Defined.

Lemma NewPageGuarded_exhausted_witness :
  exists g g' b2 p2,
    BufferPool.NewPageGuarded 0 full_pool 0 = Ok (g, 0, full_pool)
    /\ g_page_ g = Some 0
    /\ PageGuard.BasicDrop g full_pool = Ok (g', b2)
    /\ get_page b2 0 = Ok p2
    /\ pin_count_ p2 = 0.
Proof.
  exact (NewPageGuarded_exhausted (Data:=Z) 0 full_pool 0 0
           (mkPage 0 0 1 false (mkLatch 0 false))
           eq_refl eq_refl eq_refl eq_refl eq_refl
           ltac:(simpl; lia) eq_refl).
Defined.

End PoolWitnesses.

(** ** B+Tree pages: merging, redistribution, internal pages *)

Section SlotsProperties.

Context {A : Type}.
Implicit Types (a b : Z -> A) (n m : Z).

Lemma slots_length a n : length (slots a n) = Z.to_nat n.
Proof. unfold slots. rewrite length_fmap, length_seq. reflexivity. Qed.

Lemma slots_lookup a n (i : nat) :
  (i < Z.to_nat n)%nat -> slots a n !! i = Some (a (Z.of_nat i)).
Proof.
  intros Hi. unfold slots. rewrite list_lookup_fmap.
  rewrite lookup_seq_lt by exact Hi. reflexivity.
Qed.

Lemma slots_nil a n : n <= 0 -> slots a n = [].
Proof.
  intros Hn. unfold slots. replace (Z.to_nat n) with 0%nat by lia. reflexivity.
Qed.

Lemma slots_ext a b n :
  (forall i, 0 <= i < n -> a i = b i) -> slots a n = slots b n.
Proof.
  intros Hab. unfold slots. apply list_fmap_ext.
  intros i x Hx. apply lookup_seq in Hx as [-> Hlt]. apply Hab. lia.
Qed.

Lemma slots_app a n m :
  0 <= m <= n ->
  slots a n = slots a m ++ slots (fun i => a (i + m)) (n - m).
Proof.
  intros Hm. unfold slots.
  replace (Z.to_nat n) with (Z.to_nat m + Z.to_nat (n - m))%nat by lia.
  rewrite seq_app, fmap_app. f_equal. simpl.
  replace (seq (Z.to_nat m) (Z.to_nat (n - m)))
    with (Nat.add (Z.to_nat m) <$> seq 0 (Z.to_nat (n - m)))
    by (rewrite fmap_add_seq; f_equal; lia).
  rewrite <- list_fmap_compose.
  apply list_fmap_ext. intros i x _. simpl. f_equal. lia.
Qed.

Lemma slots_take a n m :
  0 <= m <= n -> take (Z.to_nat m) (slots a n) = slots a m.
Proof.
  intros Hm. rewrite (slots_app a n m Hm).
  rewrite take_app_length'; [reflexivity|]. symmetry. apply slots_length.
Qed.

Lemma slots_drop a n m :
  0 <= m <= n ->
  drop (Z.to_nat m) (slots a n) = slots (fun i => a (i + m)) (n - m).
Proof.
  intros Hm. rewrite (slots_app a n m Hm).
  rewrite drop_app_length'; [reflexivity|]. symmetry. apply slots_length.
Qed.

Lemma slots_cons a n :
  1 <= n -> slots a n = a 0 :: slots (fun i => a (i + 1)) (n - 1).
Proof.
  intros Hn. rewrite (slots_app a n 1) by lia. reflexivity.
Qed.

Lemma slots_snoc a n : 0 <= n -> slots a (n + 1) = slots a n ++ [a n].
Proof.
  intros Hn. rewrite (slots_app a (n + 1) n) by lia.
  replace (n + 1 - n) with 1 by lia. reflexivity.
Qed.

Lemma delete_inserted (l : list A) (i : nat) (x : A) :
  (i <= length l)%nat -> delete i (take i l ++ x :: drop i l) = l.
Proof.
  revert l. induction i as [|i IH]; intros l Hi.
  - rewrite take_0, drop_0. reflexivity.
  - destruct l as [|y l]; [simpl in Hi; lia|].
    simpl. f_equal. apply IH. simpl in Hi. lia.
Qed.

Lemma elem_of_slots a n (x : A) :
  x ∈ slots a n <-> exists i, 0 <= i < n /\ a i = x.
Proof.
  unfold slots. rewrite list_elem_of_fmap. split.
  - intros (i & -> & Hi). apply elem_of_seq in Hi. exists (Z.of_nat i).
    split; [lia|reflexivity].
  - intros (i & Hi & <-). exists (Z.to_nat i). split.
    + rewrite Z2Nat.id by lia. reflexivity.
    + apply elem_of_seq. lia.
Qed.

End SlotsProperties.

Section LeafMergeProperties.

Context {K V : Type}.

Local Abbreviation Leaf := (LeafPage.t (K:=K) (V:=V)).

Lemma entries_slots (p : Leaf) :
  LeafPage.entries p = slots (LeafPage.array_ p) (LeafPage.size_ p).
Proof. reflexivity. Qed.

Lemma move_all_loop_spec (n : nat) (i s : Z) (src dst : Z -> K * V) (j : Z) :
  LeafPageMerge.move_all_loop n i s src dst j
  = if (s + i <=? j) && (j <? s + i + Z.of_nat n) then src (j - s) else dst j.
Proof.
  revert i dst. induction n as [|n IH]; intros i dst.
  - simpl. destruct (Z.leb_spec (s + i) j), (Z.ltb_spec j (s + i + Z.of_nat 0));
      simpl; try reflexivity; lia.
  - cbn [LeafPageMerge.move_all_loop]. rewrite IH. unfold LeafPage.store.
    destruct (Z.leb_spec (s + (i + 1)) j),
      (Z.ltb_spec j (s + (i + 1) + Z.of_nat n)),
      (Z.leb_spec (s + i) j), (Z.ltb_spec j (s + i + Z.of_nat (S n))),
      (Z.eqb_spec j (s + i)); simpl; try reflexivity; try lia.
    subst j. f_equal. lia.
Qed.

(** X9: [MoveAll] appends the entries of the page, in order, to the recipient,
    hands the page's next-pointer to the recipient and leaves the page
    empty. *)
Theorem Leaf_MoveAll_appends (p recipient : Leaf) :
  0 <= LeafPage.size_ p -> 0 <= LeafPage.size_ recipient ->
  exists p' recipient',
    LeafPageMerge.MoveAll p recipient = (p', recipient')
    /\ LeafPage.entries recipient'
       = LeafPage.entries recipient ++ LeafPage.entries p
    /\ LeafPage.next_page_id_ recipient' = LeafPage.next_page_id_ p
    /\ LeafPage.max_size_ recipient' = LeafPage.max_size_ recipient
    /\ LeafPage.entries p' = [].
Proof.
  intros Hp Hr. do 2 eexists. split; [reflexivity|].
  split; [|split; [reflexivity|split; [reflexivity|reflexivity]]].
  rewrite !entries_slots. simpl.
  unfold LeafPage.GetSize.
  rewrite (slots_app _ (LeafPage.size_ recipient + LeafPage.size_ p)
             (LeafPage.size_ recipient)) by lia.
  f_equal.
  - apply slots_ext. intros i Hi. rewrite move_all_loop_spec.
    destruct (Z.leb_spec (LeafPage.size_ recipient + 0) i); [lia|reflexivity].
  - replace (LeafPage.size_ recipient + LeafPage.size_ p - LeafPage.size_ recipient)
      with (LeafPage.size_ p) by lia.
    apply slots_ext. intros i Hi. rewrite move_all_loop_spec.
    destruct (Z.leb_spec (LeafPage.size_ recipient + 0)
                (i + LeafPage.size_ recipient)),
      (Z.ltb_spec (i + LeafPage.size_ recipient)
         (LeafPage.size_ recipient + 0
          + Z.of_nat (Z.to_nat (LeafPage.size_ p)))); simpl; try lia.
    f_equal. lia.
Qed.

(** X10: [MoveFrontTo] moves the first entry of the page to the end of the other
    page; the key it returns is the key that is first afterwards (with two
    or more entries before the call). *)
Theorem Leaf_MoveFrontTo_spec (p page : Leaf) :
  1 <= LeafPage.size_ p -> 0 <= LeafPage.size_ page ->
  exists p' page' key,
    LeafPageMerge.MoveFrontTo p page = (p', page', key)
    /\ LeafPage.entries page'
       = LeafPage.entries page ++ [LeafPage.array_ p 0]
    /\ LeafPage.entries p' = drop 1 (LeafPage.entries p)
    /\ (2 <= LeafPage.size_ p ->
        key = LeafPage.KeyAt p 1 /\ LeafPage.keys p' !! 0%nat = Some key).
Proof.
  intros Hp Hpage. do 3 eexists. split; [reflexivity|].
  rewrite !entries_slots. simpl. unfold LeafPage.GetSize.
  split; [|split].
  - rewrite slots_snoc by lia. f_equal.
    + apply slots_ext. intros i Hi. unfold LeafPage.store.
      destruct (Z.eqb_spec i (LeafPage.size_ page)); [lia|reflexivity].
    + unfold LeafPage.store. rewrite Z.eqb_refl. reflexivity.
  - change 1%nat with (Z.to_nat 1).
    rewrite (slots_drop _ (LeafPage.size_ p) 1) by lia.
    replace (LeafPage.size_ p + -1) with (LeafPage.size_ p - 1) by lia.
    apply slots_ext. intros i Hi. rewrite shift_left_spec.
    destruct (Z.leb_spec 0 i),
      (Z.ltb_spec i (0 + Z.of_nat (Z.to_nat (LeafPage.size_ p - 1))));
      simpl; try lia. reflexivity.
  - intros H2. rewrite shift_left_spec.
    destruct (Z.ltb_spec 0 (0 + Z.of_nat (Z.to_nat (LeafPage.size_ p - 1))));
      [|lia]. simpl. split; [reflexivity|].
    unfold LeafPage.keys. rewrite entries_slots. simpl.
    rewrite list_lookup_fmap, slots_lookup by lia.
    change (Z.of_nat 0) with 0. rewrite shift_left_spec.
    destruct (Z.ltb_spec 0 (0 + Z.of_nat (Z.to_nat (LeafPage.size_ p - 1))));
      [|lia]. reflexivity.
Qed.

(** X11: [MoveEndTo] moves the last entry of the page to the front of the other
    page and returns its key. *)
Theorem Leaf_MoveEndTo_spec (p page : Leaf) :
  1 <= LeafPage.size_ p -> 0 <= LeafPage.size_ page ->
  exists p' page' key,
    LeafPageMerge.MoveEndTo p page = (p', page', key)
    /\ LeafPage.entries page'
       = LeafPage.array_ p (LeafPage.size_ p - 1) :: LeafPage.entries page
    /\ LeafPage.entries p'
       = take (Z.to_nat (LeafPage.size_ p - 1)) (LeafPage.entries p)
    /\ key = LeafPage.KeyAt p (LeafPage.size_ p - 1).
Proof.
  intros Hp Hpage. do 3 eexists. split; [reflexivity|].
  rewrite !entries_slots. simpl. unfold LeafPage.GetSize.
  split; [|split].
  - rewrite slots_cons by lia. f_equal.
    replace (LeafPage.size_ page + 1 - 1) with (LeafPage.size_ page) by lia.
    apply slots_ext. intros i Hi. unfold LeafPage.store.
    destruct (Z.eqb_spec (i + 1) 0); [lia|]. rewrite shift_right_spec.
    destruct (Z.ltb_spec
                (LeafPage.size_ page - 1
                 - Z.of_nat (Z.to_nat (LeafPage.size_ page)) + 1) (i + 1)),
      (Z.leb_spec (i + 1) (LeafPage.size_ page - 1 + 1)); simpl; try lia.
    f_equal; lia.
  - rewrite (slots_take _ (LeafPage.size_ p)) by lia.
    f_equal; lia.
  - reflexivity.
Qed.

End LeafMergeProperties.

Section LeafSearchMore.

Context {K V : Type}.
Variable comparator_ : K -> K -> Z.

Hypothesis cmp_refl : forall a, comparator_ a a = 0.
Hypothesis cmp_eq : forall a b, comparator_ a b = 0 -> a = b.
Hypothesis cmp_flip : forall a b, comparator_ a b < 0 <-> 0 < comparator_ b a.
Hypothesis cmp_trans :
  forall a b c, comparator_ a b < 0 -> comparator_ b c < 0 -> comparator_ a c < 0.

Local Abbreviation Leaf := (LeafPage.t (K:=K) (V:=V)).
Local Abbreviation sorted := (leaf_sorted (V:=V) comparator_).
Local Abbreviation insert_index := (leaf_insert_index (V:=V) comparator_).

Lemma elem_of_keys (p : Leaf) (key : K) :
  key ∈ LeafPage.keys p
  <-> exists j, 0 <= j < LeafPage.size_ p /\ LeafPage.KeyAt p j = key.
Proof.
  unfold LeafPage.keys. rewrite list_elem_of_fmap. split.
  - intros (x & -> & Hx). apply elem_of_slots in Hx as (j & Hj & <-).
    exists j. split; [exact Hj|reflexivity].
  - intros (j & Hj & <-). exists (LeafPage.array_ p j).
    split; [reflexivity|]. apply elem_of_slots. exists j. split; [exact Hj|reflexivity].
Qed.

Lemma not_elem_of_keys (p : Leaf) (key : K) :
  key ∉ LeafPage.keys p <-> leaf_absent p key.
Proof.
  rewrite elem_of_keys. unfold leaf_absent. split.
  - intros Hn j Hj Hk. apply Hn. exists j. split; assumption.
  - intros Ha (j & Hj & Hk). exact (Ha j Hj Hk).
Qed.

(** X5: The point lookup of a sorted, non-empty leaf finds exactly the entries
    of the leaf. *)
Theorem Leaf_ValueAtKey_iff (p : Leaf) (key : K) (value : V) :
  sorted p -> 1 <= LeafPage.size_ p <= LeafPage.max_size_ p ->
  LeafPage.ValueAtKey comparator_ p key = Some value
  <-> (key, value) ∈ LeafPage.entries p.
Proof.
  intros Hs Hsize. split.
  - unfold LeafPage.ValueAtKey.
    pose proof (lookup_index_range comparator_ p key ltac:(lia)) as Hr.
    unfold leaf_lookup_index, LeafPage.GetSize in *.
    set (index := LeafPage.lower_bound_loop _ _ _ _ _ _) in *.
    destruct (index =? LeafPage.GetMaxSize p); [discriminate|]. simpl.
    destruct (Z.eqb_spec (comparator_ (LeafPage.array_ p index).1 key) 0)
      as [H0|H0]; [|discriminate].
    simpl. intros [= <-]. apply elem_of_slots. exists index.
    split; [exact Hr|]. apply cmp_eq in H0. rewrite <- H0.
    destruct (LeafPage.array_ p index); reflexivity.
  - intros (j & Hj & Hx)%elem_of_slots.
    apply (ValueAtKey_found comparator_ cmp_refl cmp_eq cmp_flip cmp_trans
             p key value j Hs ltac:(lia) Hj Hx).
Qed.

(** X6: [Insert] on a sorted leaf: a key of the leaf is refused and the leaf is
    left as it is; a new key goes to its place in the order.  The slot in
    front of the array must not compare equal to the key when the key goes
    to slot 0, since the duplicate test reads it. *)
Theorem Leaf_Insert_spec (p : Leaf) (key : K) (value : V) :
  sorted p -> 0 <= LeafPage.size_ p ->
  (insert_index p key = 0 -> comparator_ (LeafPage.KeyAt p (-1)) key <> 0) ->
  (key ∈ LeafPage.keys p ->
   LeafPage.Insert comparator_ p key value = (false, p))
  /\ (key ∉ LeafPage.keys p ->
      exists p1,
        LeafPage.Insert comparator_ p key value = (true, p1)
        /\ LeafPage.entries p1
           = take (Z.to_nat (insert_index p key)) (LeafPage.entries p)
             ++ (key, value)
             :: drop (Z.to_nat (insert_index p key)) (LeafPage.entries p)
        /\ sorted p1).
Proof.
  intros Hs Hsize Hslot. split.
  - intros (j & Hj & Hk)%elem_of_keys.
    exact (Insert_present comparator_ cmp_refl cmp_flip cmp_trans
             p key value j Hs Hj Hk).
  - intros Habs%not_elem_of_keys.
    destruct (Insert_absent comparator_ cmp_eq cmp_flip cmp_trans
                p key value Hs Hsize Habs Hslot)
      as (p1 & Hins & Hsz & _ & Harr & Hsorted).
    pose proof (insert_index_spec comparator_ cmp_flip cmp_trans p key Hs Hsize)
      as (Hidx & _ & _).
    exists p1. split; [exact Hins|]. split; [|exact Hsorted].
    rewrite !entries_slots, Hsz.
    set (idx := insert_index p key) in *.
    rewrite (slots_take _ _ idx), (slots_drop _ _ idx) by lia.
    rewrite (slots_app _ (LeafPage.size_ p + 1) idx) by lia.
    f_equal.
    + apply slots_ext. intros i Hi. rewrite Harr.
      destruct (Z.eqb_spec i idx); [lia|].
      destruct (Z.ltb_spec idx i); [lia|]. reflexivity.
    + rewrite slots_cons by lia. f_equal.
      * rewrite Harr. simpl. rewrite Z.eqb_refl. reflexivity.
      * replace (LeafPage.size_ p + 1 - idx - 1) with (LeafPage.size_ p - idx)
          by lia.
        apply slots_ext. intros i Hi. rewrite Harr.
        destruct (Z.eqb_spec (i + 1 + idx) idx); [lia|].
        destruct (Z.ltb_spec idx (i + 1 + idx)); [|lia].
        destruct (Z.leb_spec (i + 1 + idx) (LeafPage.size_ p)); [|lia].
        simpl. f_equal; lia.
Qed.

(** X7: [RemoveRecord] on a sorted, non-empty leaf takes out the entry of the
    key and keeps the others in order; for a key that is not in the leaf it
    returns false and leaves the leaf as it is. *)
Theorem Leaf_RemoveRecord_spec (p : Leaf) (key : K) :
  sorted p -> 1 <= LeafPage.size_ p ->
  (forall j, 0 <= j < LeafPage.size_ p -> LeafPage.KeyAt p j = key ->
     exists p',
       LeafPage.RemoveRecord comparator_ p key = (true, p')
       /\ LeafPage.entries p' = delete (Z.to_nat j) (LeafPage.entries p))
  /\ (key ∉ LeafPage.keys p ->
      LeafPage.RemoveRecord comparator_ p key = (false, p)).
Proof.
  intros Hs Hsize. split.
  - intros j Hj Hk.
    destruct (RemoveRecord_found comparator_ cmp_refl cmp_eq cmp_flip cmp_trans
                p key j Hs Hj Hk) as (p' & Hrem & Hsz & _ & Harr).
    exists p'. split; [exact Hrem|].
    rewrite delete_take_drop, !entries_slots, Hsz.
    rewrite (slots_take _ _ j) by lia.
    replace (S (Z.to_nat j)) with (Z.to_nat (j + 1)) by lia.
    rewrite (slots_drop _ _ (j + 1)) by lia.
    rewrite (slots_app _ (LeafPage.size_ p - 1) j) by lia.
    f_equal.
    + apply slots_ext. intros i Hi. rewrite Harr.
      destruct (Z.leb_spec j i); [lia|]. reflexivity.
    + replace (LeafPage.size_ p - (j + 1)) with (LeafPage.size_ p - 1 - j) by lia.
      apply slots_ext. intros i Hi. rewrite Harr.
      destruct (Z.leb_spec j (i + j)); [|lia].
      destruct (Z.ltb_spec (i + j) (LeafPage.size_ p - 1)); [|lia].
      simpl. f_equal; lia.
  - intros Habs%not_elem_of_keys. unfold LeafPage.RemoveRecord.
    pose proof (lookup_index_range comparator_ p key Hsize) as Hr.
    unfold leaf_lookup_index, LeafPage.GetSize in *.
    set (index := LeafPage.lower_bound_loop _ _ _ _ _ _) in *.
    destruct (Z.eqb_spec (comparator_ (LeafPage.array_ p index).1 key) 0)
      as [H0|H0]; [|reflexivity].
    apply cmp_eq in H0. exfalso. exact (Habs index Hr H0).
Qed.

(** X8: [KetIndex], the slot [Begin(key)] starts from: on a sorted, non-empty
    leaf all keys in front of it are below the key, and the key in it is not
    below the key unless it is the last slot.  The result is never the size
    of the leaf: for a key above every key of the leaf it is the last
    slot. *)
Theorem Leaf_KetIndex_spec (p : Leaf) (key : K) :
  sorted p -> 1 <= LeafPage.size_ p ->
  let r := LeafPage.KetIndex comparator_ p key in
  0 <= r < LeafPage.size_ p
  /\ (forall i, 0 <= i < r -> comparator_ (LeafPage.KeyAt p i) key < 0)
  /\ (r < LeafPage.size_ p - 1 -> 0 <= comparator_ (LeafPage.KeyAt p r) key)
  /\ ((forall i, 0 <= i < LeafPage.size_ p ->
         comparator_ (LeafPage.KeyAt p i) key < 0) ->
      r = LeafPage.size_ p - 1).
Proof.
  intros Hs Hsize r. subst r. unfold LeafPage.KetIndex, LeafPage.GetSize.
  rewrite lower_bound_loop_partition.
  pose proof (partition_loop_spec
                (key_at_least comparator_ (LeafPage.array_ p) key)
                (Z.to_nat (LeafPage.size_ p - 1)) 0 (LeafPage.size_ p - 1)
                ltac:(lia) ltac:(lia)) as Hspec.
  simpl in Hspec.
  destruct Hspec as (Hrange & Hlow & Hhigh).
  { intros i j Hi Hij Hj.
    apply (at_least_mono comparator_ cmp_eq cmp_flip cmp_trans p key Hs i j);
      lia. }
  set (x := partition_loop _ _ _ _) in *.
  assert (Hbelow : forall i, 0 <= i < x ->
                     comparator_ (LeafPage.KeyAt p i) key < 0).
  { intros i Hi. specialize (Hlow i Hi). unfold key_at_least in Hlow.
    apply orb_false_iff in Hlow as [H1 H2].
    apply Z.ltb_ge in H1. apply Z.eqb_neq in H2.
    unfold LeafPage.KeyAt. lia. }
  split; [lia|]. split; [exact Hbelow|]. split.
  - intros Hx. specialize (Hhigh x ltac:(lia)). unfold key_at_least in Hhigh.
    apply orb_true_iff in Hhigh as [H1|H1].
    + apply Z.ltb_lt in H1. unfold LeafPage.KeyAt. lia.
    + apply Z.eqb_eq in H1. unfold LeafPage.KeyAt. lia.
  - intros Hall.
    destruct (Z.eq_dec x (LeafPage.size_ p - 1)) as [|Hne]; [assumption|].
    specialize (Hhigh x ltac:(lia)). specialize (Hall x ltac:(lia)).
    unfold key_at_least in Hhigh. unfold LeafPage.KeyAt in Hall.
    apply orb_true_iff in Hhigh as [H1|H1].
    + apply Z.ltb_lt in H1. lia.
    + apply Z.eqb_eq in H1. lia.
Qed.

End LeafSearchMore.

Section InternalProperties.

Context {K : Type}.
Variable comparator_ : K -> K -> Z.
Variable min_size_of : Z -> Z.

Hypothesis cmp_refl : forall a, comparator_ a a = 0.
Hypothesis cmp_flip : forall a b, comparator_ a b < 0 <-> 0 < comparator_ b a.
Hypothesis cmp_trans :
  forall a b c, comparator_ a b < 0 -> comparator_ b c < 0 -> comparator_ a c < 0.

Local Abbreviation Internal := (InternalPage.t (K:=K)).
Local Abbreviation sorted := (internal_sorted comparator_).
Local Abbreviation above := (key_above (V:=Z) comparator_).
Local Abbreviation GetKeyIndex := (InternalPage.GetKeyIndex comparator_).
Local Abbreviation Insert := (InternalPage.Insert comparator_).

Lemma internal_above_mono (p : Internal) (key : K) :
  sorted p ->
  forall i j, 1 <= i -> i <= j -> j < InternalPage.size_ p ->
    above (InternalPage.array_ p) key i = true ->
    above (InternalPage.array_ p) key j = true.
Proof.
  intros Hs i j Hi Hij Hj. unfold key_above. rewrite !Z.ltb_lt. intros Ha.
  destruct (Z.eq_dec i j) as [->|Hne]; [exact Ha|].
  apply cmp_flip. apply cmp_flip in Ha.
  eapply cmp_trans; [exact Ha|]. apply Hs; lia.
Qed.

Lemma internal_upper_bound (p : Internal) (key : K) :
  sorted p -> 1 <= InternalPage.size_ p ->
  let x := LeafPage.upper_bound_loop comparator_
             (Z.to_nat (InternalPage.size_ p - 1)) (InternalPage.array_ p) key 1
             (InternalPage.size_ p) in
  1 <= x <= InternalPage.size_ p
  /\ (forall i, 1 <= i < x -> comparator_ (InternalPage.KeyAt p i) key <= 0)
  /\ (forall i, x <= i < InternalPage.size_ p ->
                0 < comparator_ (InternalPage.KeyAt p i) key).
Proof.
  intros Hs Hsize. rewrite upper_bound_loop_partition.
  pose proof (partition_loop_spec (above (InternalPage.array_ p) key)
                (Z.to_nat (InternalPage.size_ p - 1)) 1 (InternalPage.size_ p)
                ltac:(lia) ltac:(lia)) as Hspec.
  simpl in Hspec. destruct Hspec as (Hrange & Hlow & Hhigh).
  { intros i j Hi Hij Hj. apply (internal_above_mono p key Hs i j); lia. }
  simpl. split; [exact Hrange|]. split.
  - intros i Hi. specialize (Hlow i Hi). unfold key_above in Hlow.
    apply Z.ltb_ge in Hlow. exact Hlow.
  - intros i Hi. specialize (Hhigh i Hi). unfold key_above in Hhigh.
    apply Z.ltb_lt in Hhigh. exact Hhigh.
Qed.

Lemma GetKeyIndex_bounds (p : Internal) (key : K) :
  sorted p -> 1 <= InternalPage.size_ p ->
  0 <= GetKeyIndex p key < InternalPage.size_ p
  /\ (forall i, 1 <= i <= GetKeyIndex p key ->
                comparator_ (InternalPage.KeyAt p i) key <= 0)
  /\ (forall i, GetKeyIndex p key < i < InternalPage.size_ p ->
                0 < comparator_ (InternalPage.KeyAt p i) key).
Proof.
  intros Hs Hsize. unfold InternalPage.GetKeyIndex, InternalPage.GetSize.
  destruct (internal_upper_bound p key Hs Hsize) as (Hrange & Hlow & Hhigh).
  simpl in *. split; [lia|]. split.
  - intros i Hi. apply Hlow. lia.
  - intros i Hi. apply Hhigh. lia.
Qed.

(** X12: [GetKeyIndex] on a sorted internal page returns the slot to descend
    through: the last slot whose key is not above the search key.  The key
    of slot 0 is not looked at: the result is slot 0 exactly when the keys
    of all other slots are above the search key. *)
Theorem Internal_GetKeyIndex_spec (p : Internal) (key : K) :
  sorted p -> 1 <= InternalPage.size_ p ->
  let r := GetKeyIndex p key in
  0 <= r < InternalPage.size_ p
  /\ (forall i, 1 <= i <= r -> comparator_ (InternalPage.KeyAt p i) key <= 0)
  /\ (forall i, r < i < InternalPage.size_ p ->
                0 < comparator_ (InternalPage.KeyAt p i) key)
  /\ (r = 0 <-> forall i, 1 <= i < InternalPage.size_ p ->
                          0 < comparator_ (InternalPage.KeyAt p i) key).
Proof.
  intros Hs Hsize r.
  destruct (GetKeyIndex_bounds p key Hs Hsize) as (Hr & Hlow & Hhigh).
  fold r in Hr, Hlow, Hhigh.
  split; [exact Hr|]. split; [exact Hlow|]. split; [exact Hhigh|]. split.
  - intros H0 i Hi. apply Hhigh. lia.
  - intros Habove. destruct (Z.eq_dec r 0) as [|Hne]; [assumption|].
    specialize (Hlow r ltac:(lia)). specialize (Habove r ltac:(lia)). lia.
Qed.

Lemma Insert_array (p : Internal) (key : K) (right_id : Z) :
  sorted p -> 1 <= InternalPage.size_ p ->
  let idx := GetKeyIndex p key + 1 in
  InternalPage.size_ (Insert p key right_id) = InternalPage.size_ p + 1
  /\ InternalPage.max_size_ (Insert p key right_id) = InternalPage.max_size_ p
  /\ forall j,
       InternalPage.array_ (Insert p key right_id) j
       = if j =? idx then (key, right_id)
         else if (idx <? j) && (j <=? InternalPage.size_ p)
              then InternalPage.array_ p (j - 1)
              else InternalPage.array_ p j.
Proof.
  intros Hs Hsize idx. subst idx.
  destruct (internal_upper_bound p key Hs Hsize) as (Hrange & _ & _).
  unfold InternalPage.GetKeyIndex, InternalPage.Insert, InternalPage.GetSize.
  simpl in *.
  set (x := LeafPage.upper_bound_loop _ _ _ _ _ _) in *.
  replace (x - 1 + 1) with x by lia.
  split; [reflexivity|]. split; [reflexivity|].
  intros j. unfold LeafPage.store. rewrite shift_right_spec.
  destruct (Z.eqb_spec j x); [reflexivity|].
  destruct (Z.ltb_spec x j), (Z.leb_spec j (InternalPage.size_ p)),
    (Z.ltb_spec (InternalPage.size_ p - 1
                 - Z.of_nat (Z.to_nat (InternalPage.size_ p - x)) + 1) j),
    (Z.leb_spec j (InternalPage.size_ p - 1 + 1)); simpl; try reflexivity; lia.
Qed.

Lemma Insert_entries (p : Internal) (key : K) (right_id : Z) :
  sorted p -> 1 <= InternalPage.size_ p ->
  internal_entries (Insert p key right_id)
  = take (Z.to_nat (GetKeyIndex p key + 1)) (internal_entries p)
    ++ (key, right_id)
    :: drop (Z.to_nat (GetKeyIndex p key + 1)) (internal_entries p).
Proof.
  intros Hs Hsize.
  destruct (GetKeyIndex_bounds p key Hs Hsize) as (Hr & _ & _).
  destruct (Insert_array p key right_id Hs Hsize) as (Hsz & _ & Harr).
  set (idx := GetKeyIndex p key + 1) in *.
  set (p' := Insert p key right_id) in *.
  assert (Hidx : 1 <= idx <= InternalPage.size_ p) by (subst idx; lia).
  clearbody idx p'.
  unfold internal_entries. rewrite Hsz.
  rewrite (slots_take _ _ idx), (slots_drop _ _ idx) by lia.
  rewrite (slots_app _ (InternalPage.size_ p + 1) idx) by lia.
  f_equal.
  - apply slots_ext. intros i Hi. rewrite Harr.
    destruct (Z.eqb_spec i idx); [lia|].
    destruct (Z.ltb_spec idx i); [lia|]. reflexivity.
  - rewrite slots_cons by lia. f_equal.
    + simpl. rewrite Harr, Z.eqb_refl. reflexivity.
    + replace (InternalPage.size_ p + 1 - idx - 1)
        with (InternalPage.size_ p - idx) by lia.
      apply slots_ext. intros i Hi. rewrite Harr.
      destruct (Z.eqb_spec (i + 1 + idx) idx); [lia|].
      destruct (Z.ltb_spec idx (i + 1 + idx)); [|lia].
      destruct (Z.leb_spec (i + 1 + idx) (InternalPage.size_ p)); [|lia].
      simpl. f_equal; lia.
Qed.

(** X13: [Insert] puts the new key and child right behind the slot the key
    descends through; the search for the key then leads to the new child.
    The other entries keep their order, and the keys stay sorted when the
    key is new. *)
Theorem Internal_Insert_spec (p : Internal) (key : K) (right_id : Z) :
  sorted p -> 1 <= InternalPage.size_ p ->
  let idx := GetKeyIndex p key + 1 in
  let p' := Insert p key right_id in
  internal_entries p'
  = take (Z.to_nat idx) (internal_entries p)
    ++ (key, right_id) :: drop (Z.to_nat idx) (internal_entries p)
  /\ GetKeyIndex p' key = idx
  /\ InternalPage.ValueAt p' (GetKeyIndex p' key) = right_id
  /\ ((forall i, 1 <= i < InternalPage.size_ p ->
         comparator_ (InternalPage.KeyAt p i) key <> 0) ->
      sorted p').
Proof.
  intros Hs Hsize idx p'.
  destruct (GetKeyIndex_bounds p key Hs Hsize) as (Hr & Hlow & Hhigh).
  destruct (Insert_array p key right_id Hs Hsize) as (Hsz & _ & Harr).
  fold idx in Harr. fold p' in Hsz, Harr.
  pose proof (Insert_entries p key right_id Hs Hsize) as Hent.
  fold idx in Hent. fold p' in Hent.
  assert (Hidx_eq : idx = GetKeyIndex p key + 1) by reflexivity.
  clearbody idx p'.
  assert (Hidx : 1 <= idx <= InternalPage.size_ p) by lia.
  assert (Hkey_low : forall i, 1 <= i < idx ->
            comparator_ (InternalPage.KeyAt p' i) key <= 0).
  { intros i Hi. unfold InternalPage.KeyAt. rewrite Harr.
    destruct (Z.eqb_spec i idx); [lia|]. destruct (Z.ltb_spec idx i); [lia|].
    simpl. apply Hlow. lia. }
  assert (Hkey_idx : InternalPage.array_ p' idx = (key, right_id)).
  { rewrite Harr, Z.eqb_refl. reflexivity. }
  assert (Hkey_high : forall i, idx < i < InternalPage.size_ p + 1 ->
            0 < comparator_ (InternalPage.KeyAt p' i) key).
  { intros i Hi. unfold InternalPage.KeyAt. rewrite Harr.
    destruct (Z.eqb_spec i idx); [lia|]. destruct (Z.ltb_spec idx i); [|lia].
    destruct (Z.leb_spec i (InternalPage.size_ p)); [|lia].
    simpl. apply Hhigh. lia. }
  assert (Hget : GetKeyIndex p' key = idx).
  { unfold InternalPage.GetKeyIndex, InternalPage.GetSize.
    rewrite upper_bound_loop_partition, Hsz.
    pose proof (partition_loop_spec (above (InternalPage.array_ p') key)
                  (Z.to_nat (InternalPage.size_ p + 1 - 1)) 1
                  (InternalPage.size_ p + 1) ltac:(lia) ltac:(lia)) as Hspec.
    cbv zeta in Hspec. destruct Hspec as (Hrange & Hl & Hh).
    { intros i j Hi Hij Hj. unfold key_above. rewrite !Z.ltb_lt. intros Hai.
      destruct (Z.lt_trichotomy i idx) as [Hlt|[->|Hgt]].
      - specialize (Hkey_low i ltac:(lia)). unfold InternalPage.KeyAt in *. lia.
      - rewrite Hkey_idx in Hai. simpl in Hai. rewrite cmp_refl in Hai. lia.
      - apply (Hkey_high j). lia. }
    set (x := partition_loop _ _ _ _) in *.
    assert (idx < x).
    { destruct (Z.lt_ge_cases idx x) as [|Hge]; [assumption|].
      specialize (Hh idx ltac:(lia)). unfold key_above in Hh.
      rewrite Hkey_idx in Hh. simpl in Hh. rewrite cmp_refl in Hh.
      discriminate. }
    assert (x <= idx + 1).
    { destruct (Z.le_gt_cases x (idx + 1)) as [|Hgt]; [assumption|].
      specialize (Hl (idx + 1) ltac:(lia)).
      specialize (Hkey_high (idx + 1) ltac:(lia)).
      unfold key_above in Hl. apply Z.ltb_ge in Hl.
      unfold InternalPage.KeyAt in *. lia. }
    lia. }
  split; [exact Hent|split; [exact Hget|split]].
  - rewrite Hget. unfold InternalPage.ValueAt. rewrite Hkey_idx. reflexivity.
  - intros Hnew i j Hi Hij Hj. rewrite Hsz in Hj.
    assert (Hkey_below : forall a, 1 <= a < idx ->
              comparator_ (InternalPage.KeyAt p' a) key < 0).
    { intros a Ha. specialize (Hkey_low a Ha).
      assert (comparator_ (InternalPage.KeyAt p' a) key <> 0); [|lia].
      unfold InternalPage.KeyAt. rewrite Harr.
      destruct (Z.eqb_spec a idx); [lia|]. destruct (Z.ltb_spec idx a); [lia|].
      simpl. apply Hnew. lia. }
    assert (Hold : forall a, 1 <= a < InternalPage.size_ p + 1 -> a <> idx ->
              InternalPage.KeyAt p' a
              = InternalPage.KeyAt p (if idx <? a then a - 1 else a)).
    { intros a Ha Hne. unfold InternalPage.KeyAt. rewrite Harr.
      destruct (Z.eqb_spec a idx); [lia|].
      destruct (Z.ltb_spec idx a), (Z.leb_spec a (InternalPage.size_ p));
        simpl; try reflexivity; lia. }
    destruct (Z.eq_dec i idx) as [->|Hi'], (Z.eq_dec j idx) as [->|Hj'];
      try lia.
    + unfold InternalPage.KeyAt at 1. rewrite Hkey_idx. simpl.
      apply cmp_flip. apply Hkey_high. lia.
    + unfold InternalPage.KeyAt at 2. rewrite Hkey_idx. simpl.
      apply Hkey_below. lia.
    + rewrite (Hold i), (Hold j) by lia. apply Hs.
      * destruct (Z.ltb_spec idx i); lia.
      * destruct (Z.ltb_spec idx i), (Z.ltb_spec idx j); lia.
      * destruct (Z.ltb_spec idx j); lia.
Qed.

End InternalProperties.

Section InternalMoves.

Context {K : Type}.
Variable min_size_of : Z -> Z.

Local Abbreviation Internal := (InternalPage.t (K:=K)).

Lemma ValueIndex_loop_spec (n : nat) (i : Z) (a : Z -> K * Z) (value : Z) :
  let r := InternalPage.ValueIndex_loop n i a value in
  (r = -1 /\ forall j, i <= j < i + Z.of_nat n -> snd (a j) <> value)
  \/ (i <= r < i + Z.of_nat n /\ snd (a r) = value
      /\ forall j, i <= j < r -> snd (a j) <> value).
Proof.
  revert i. induction n as [|n IH]; intros i; simpl.
  - left. split; [reflexivity|]. intros j Hj. lia.
  - destruct (Z.eqb_spec (a i).2 value) as [He|Hne].
    + right. split; [lia|]. split; [exact He|]. intros j Hj. lia.
    + destruct (IH (i + 1)) as [(Hr & Hall)|(Hr & Hv & Hall)].
      * left. split; [exact Hr|]. intros j Hj.
        destruct (Z.eq_dec j i) as [->|]; [exact Hne|]. apply Hall. lia.
      * right. split; [lia|]. split; [exact Hv|]. intros j Hj.
        destruct (Z.eq_dec j i) as [->|]; [exact Hne|]. apply Hall. lia.
Qed.

Lemma ValueIndex_first (p : Internal) (value i : Z) :
  0 <= i < InternalPage.size_ p ->
  InternalPage.ValueAt p i = value ->
  (forall j, 0 <= j < i -> InternalPage.ValueAt p j <> value) ->
  InternalPage.ValueIndex p value = i.
Proof.
  intros Hi Hv Hfirst.
  unfold InternalPage.ValueIndex, InternalPage.GetSize, InternalPage.ValueAt in *.
  destruct (ValueIndex_loop_spec (Z.to_nat (InternalPage.size_ p)) 0
              (InternalPage.array_ p) value) as [(Hr & Hall)|(Hr & Hv' & Hall)].
  - exfalso. apply (Hall i); [lia|exact Hv].
  - set (r := InternalPage.ValueIndex_loop _ _ _ _) in *.
    destruct (Z.lt_trichotomy r i) as [Hlt|[Heq|Hgt]]; [|exact Heq|].
    + exfalso. apply (Hfirst r); [lia|exact Hv'].
    + exfalso. apply (Hall i); [lia|exact Hv].
Qed.

(** X14: [ValueIndex] returns the first slot that holds the child, and -1 when
    no slot in use holds it. *)
Theorem Internal_ValueIndex_spec (p : Internal) (value : Z) :
  let r := InternalPage.ValueIndex p value in
  (r = -1 /\ value ∉ (snd <$> internal_entries p))
  \/ (0 <= r < InternalPage.size_ p
      /\ InternalPage.ValueAt p r = value
      /\ forall j, 0 <= j < r -> InternalPage.ValueAt p j <> value).
Proof.
  unfold InternalPage.ValueIndex, InternalPage.GetSize, InternalPage.ValueAt.
  destruct (ValueIndex_loop_spec (Z.to_nat (InternalPage.size_ p)) 0
              (InternalPage.array_ p) value) as [(Hr & Hall)|(Hr & Hv & Hall)].
  - left. split; [exact Hr|]. rewrite list_elem_of_fmap.
    intros (x & -> & Hx). apply elem_of_slots in Hx as (j & Hj & <-).
    apply (Hall j); [lia|reflexivity].
  - right. split; [lia|]. split; [exact Hv|]. intros j Hj. apply Hall. lia.
Qed.

(** [Remove] takes the entry of the slot out and keeps the others in
    order. *)
Lemma Remove_entries (p : Internal) (index : Z) :
  0 <= index < InternalPage.size_ p ->
  internal_entries (InternalPage.Remove p index)
  = delete (Z.to_nat index) (internal_entries p).
Proof.
  intros Hi. unfold internal_entries, InternalPage.Remove, InternalPage.GetSize.
  simpl. rewrite delete_take_drop.
  rewrite (slots_take _ _ index) by lia.
  replace (S (Z.to_nat index)) with (Z.to_nat (index + 1)) by lia.
  rewrite (slots_drop _ _ (index + 1)) by lia.
  rewrite (slots_app _ (InternalPage.size_ p + -1) index) by lia.
  f_equal.
  - apply slots_ext. intros i Hi'. rewrite shift_left_spec.
    destruct (Z.leb_spec index i); [lia|]. reflexivity.
  - replace (InternalPage.size_ p + -1 - index)
      with (InternalPage.size_ p - (index + 1)) by lia.
    apply slots_ext. intros i Hi'. rewrite shift_left_spec.
    destruct (Z.leb_spec index (i + index)); [|lia].
    destruct (Z.ltb_spec (i + index)
                (index + Z.of_nat (Z.to_nat (InternalPage.size_ p - 1 - index))));
      [|lia].
    simpl. f_equal; lia.
Qed.

(** X15: [Split] is run on a copy that holds one entry more than the maximum: the
    first [min_size] entries stay, the others move to the new page in
    order, and the risen key is the key of the first entry moved. *)
Theorem Internal_Split_spec (p new_page : Internal) :
  InternalPage.size_ p = InternalPage.max_size_ p + 1 ->
  0 <= min_size_of (InternalPage.max_size_ p) <= InternalPage.max_size_ p ->
  let min_size := min_size_of (InternalPage.max_size_ p) in
  exists p' n' key,
    InternalPage.Split min_size_of p new_page = (p', n', key)
    /\ internal_entries p' = take (Z.to_nat min_size) (internal_entries p)
    /\ internal_entries n' = drop (Z.to_nat min_size) (internal_entries p)
    /\ InternalPage.size_ p' = min_size
    /\ InternalPage.size_ n' = InternalPage.max_size_ p - min_size + 1
    /\ key = InternalPage.KeyAt p min_size
    /\ InternalPage.max_size_ n' = InternalPage.max_size_ new_page.
Proof.
  intros Hsize Hmin min_size. do 3 eexists. split; [reflexivity|].
  unfold internal_entries, InternalPage.GetMinSize, InternalPage.GetMaxSize.
  simpl. fold min_size.
  split; [|split; [|split; [reflexivity|split; [reflexivity|split; [|reflexivity]]]]].
  - rewrite (slots_take _ _ min_size) by lia. reflexivity.
  - rewrite (slots_drop _ _ min_size) by lia.
    replace (InternalPage.size_ p - min_size)
      with (InternalPage.max_size_ p - min_size + 1) by lia.
    apply slots_ext. intros i Hi. rewrite copy_upper_spec.
    destruct (Z.leb_spec (min_size - min_size) i); [|lia].
    destruct (Z.ltb_spec i
                (min_size - min_size
                 + Z.of_nat (Z.to_nat (InternalPage.max_size_ p - min_size + 1))));
      [|lia].
    reflexivity.
  - unfold InternalPage.KeyAt. simpl. rewrite copy_upper_spec.
    destruct (Z.leb_spec (min_size - min_size) 0); [|lia].
    destruct (Z.ltb_spec 0
                (min_size - min_size
                 + Z.of_nat (Z.to_nat (InternalPage.max_size_ p - min_size + 1))));
      [|lia].
    reflexivity.
Qed.

(** X16: [MoveAll] appends the entries of the page to the recipient, the first
    of them under the separator key taken from the parent, and leaves the
    page empty; it stops at the [assert] when the recipient then holds more
    than the maximum size. *)
Theorem Internal_MoveAll_spec (p recipient parent_page : Internal) (index : Z) :
  1 <= InternalPage.size_ p -> 0 <= InternalPage.size_ recipient ->
  (InternalPage.size_ recipient + InternalPage.size_ p
   <= InternalPage.max_size_ p ->
   exists p' recipient',
     InternalPage.MoveAll p recipient index parent_page = Ok (p', recipient')
     /\ internal_entries recipient'
        = internal_entries recipient
          ++ (InternalPage.KeyAt parent_page index, InternalPage.ValueAt p 0)
          :: drop 1 (internal_entries p)
     /\ internal_entries p' = [])
  /\ (InternalPage.max_size_ p
      < InternalPage.size_ recipient + InternalPage.size_ p ->
      InternalPage.MoveAll p recipient index parent_page
      = Fail AssertionViolation).
Proof.
  intros Hp Hr. unfold InternalPage.MoveAll, InternalPage.GetSize,
    InternalPage.GetMaxSize. simpl. split.
  - intros Hfit.
    destruct (Z.leb_spec (InternalPage.size_ recipient + InternalPage.size_ p)
                (InternalPage.max_size_ p)); [|lia].
    simpl. do 2 eexists. split; [reflexivity|]. split; [|reflexivity].
    unfold internal_entries. simpl.
    rewrite (slots_app _ (InternalPage.size_ recipient + InternalPage.size_ p)
               (InternalPage.size_ recipient)) by lia.
    f_equal.
    + apply slots_ext. intros i Hi. rewrite move_all_loop_spec.
      destruct (Z.leb_spec (InternalPage.size_ recipient + 0) i); [lia|].
      reflexivity.
    + replace (InternalPage.size_ recipient + InternalPage.size_ p
               - InternalPage.size_ recipient)
        with (InternalPage.size_ p) by lia.
      rewrite slots_cons by lia.
      change 1%nat with (Z.to_nat 1).
      rewrite (slots_drop _ (InternalPage.size_ p) 1) by lia.
      f_equal.
      * rewrite move_all_loop_spec.
        destruct (Z.leb_spec (InternalPage.size_ recipient + 0)
                    (0 + InternalPage.size_ recipient)); [|lia].
        destruct (Z.ltb_spec (0 + InternalPage.size_ recipient)
                    (InternalPage.size_ recipient + 0
                     + Z.of_nat (Z.to_nat (InternalPage.size_ p)))); [|lia].
        simpl. unfold InternalPage.set_key, LeafPage.store.
        replace (0 + InternalPage.size_ recipient - InternalPage.size_ recipient)
          with 0 by lia.
        reflexivity.
      * apply slots_ext. intros i Hi. rewrite move_all_loop_spec.
        destruct (Z.leb_spec (InternalPage.size_ recipient + 0)
                    (i + 1 + InternalPage.size_ recipient)); [|lia].
        destruct (Z.ltb_spec (i + 1 + InternalPage.size_ recipient)
                    (InternalPage.size_ recipient + 0
                     + Z.of_nat (Z.to_nat (InternalPage.size_ p)))); [|lia].
        simpl. unfold InternalPage.set_key, LeafPage.store.
        destruct (Z.eqb_spec
                    (i + 1 + InternalPage.size_ recipient
                     - InternalPage.size_ recipient) 0); [lia|].
        f_equal; lia.
  - intros Hover.
    destruct (Z.leb_spec (InternalPage.size_ recipient + InternalPage.size_ p)
                (InternalPage.max_size_ p)); [lia|]. reflexivity.
Qed.

(** X17: [MoveFrontTo] moves the first child of the page to the end of the other
    page, under the separator key of the parent, and returns the key that
    was in slot 1: the new separator. *)
Theorem Internal_MoveFrontTo_spec (p page : Internal) (parent_key : K) :
  2 <= InternalPage.size_ p -> 0 <= InternalPage.size_ page ->
  exists p' page' key,
    InternalPage.MoveFrontTo p page parent_key = (p', page', key)
    /\ internal_entries page'
       = internal_entries page ++ [(parent_key, InternalPage.ValueAt p 0)]
    /\ internal_entries p' = drop 1 (internal_entries p)
    /\ key = InternalPage.KeyAt p 1.
Proof.
  intros Hp Hpage. do 3 eexists. split; [reflexivity|].
  unfold internal_entries, InternalPage.GetSize. simpl.
  split; [|split].
  - rewrite slots_snoc by lia. f_equal.
    + apply slots_ext. intros i Hi. unfold InternalPage.set_key, LeafPage.store.
      destruct (Z.eqb_spec i (InternalPage.size_ page)); [lia|reflexivity].
    + unfold InternalPage.set_key, LeafPage.store. rewrite !Z.eqb_refl.
      reflexivity.
  - change 1%nat with (Z.to_nat 1).
    rewrite (slots_drop _ (InternalPage.size_ p) 1) by lia.
    replace (InternalPage.size_ p + -1) with (InternalPage.size_ p - 1) by lia.
    apply slots_ext. intros i Hi. rewrite shift_left_spec.
    destruct (Z.leb_spec 0 i),
      (Z.ltb_spec i (0 + Z.of_nat (Z.to_nat (InternalPage.size_ p - 1))));
      simpl; try lia. reflexivity.
  - rewrite shift_left_spec.
    destruct (Z.ltb_spec 0 (0 + Z.of_nat (Z.to_nat (InternalPage.size_ p - 1))));
      [|lia]. reflexivity.
Qed.

(** X18: [MoveEndTo] moves the last entry of the page to the front of the other
    page, gives the separator key of the parent to the entry that was first
    there, and returns the key of the entry moved: the new separator. *)
Theorem Internal_MoveEndTo_spec (p page : Internal) (parent_key : K) :
  1 <= InternalPage.size_ p -> 1 <= InternalPage.size_ page ->
  exists p' page' key,
    InternalPage.MoveEndTo p page parent_key = (p', page', key)
    /\ internal_entries page'
       = InternalPage.array_ p (InternalPage.size_ p - 1)
         :: (parent_key, InternalPage.ValueAt page 0)
         :: drop 1 (internal_entries page)
    /\ internal_entries p'
       = take (Z.to_nat (InternalPage.size_ p - 1)) (internal_entries p)
    /\ key = InternalPage.KeyAt p (InternalPage.size_ p - 1).
Proof.
  intros Hp Hpage. do 3 eexists. split; [reflexivity|].
  unfold internal_entries, InternalPage.GetSize. simpl.
  split; [|split].
  - rewrite slots_cons by lia. f_equal.
    replace (InternalPage.size_ page + 1 - 1) with (InternalPage.size_ page)
      by lia.
    rewrite slots_cons by lia.
    change 1%nat with (Z.to_nat 1).
    rewrite (slots_drop _ (InternalPage.size_ page) 1) by lia.
    f_equal.
    + unfold InternalPage.set_key, LeafPage.store. simpl.
      rewrite shift_right_spec.
      destruct (Z.ltb_spec
                  (InternalPage.size_ page - 1
                   - Z.of_nat (Z.to_nat (InternalPage.size_ page)) + 1) 1),
        (Z.leb_spec 1 (InternalPage.size_ page - 1 + 1)); simpl; try lia.
      reflexivity.
    + apply slots_ext. intros i Hi.
      unfold InternalPage.set_key, LeafPage.store.
      destruct (Z.eqb_spec (i + 1 + 1) 1); [lia|].
      destruct (Z.eqb_spec (i + 1 + 1) 0); [lia|].
      rewrite shift_right_spec.
      destruct (Z.ltb_spec
                  (InternalPage.size_ page - 1
                   - Z.of_nat (Z.to_nat (InternalPage.size_ page)) + 1)
                  (i + 1 + 1)),
        (Z.leb_spec (i + 1 + 1) (InternalPage.size_ page - 1 + 1));
        simpl; try lia.
      f_equal; lia.
  - rewrite (slots_take _ (InternalPage.size_ p)) by lia. f_equal; lia.
  - unfold InternalPage.set_key, LeafPage.store. reflexivity.
Qed.

End InternalMoves.

Section InternalCompose.

Context {K : Type}.
Variable comparator_ : K -> K -> Z.

Hypothesis cmp_flip : forall a b, comparator_ a b < 0 <-> 0 < comparator_ b a.
Hypothesis cmp_trans :
  forall a b c, comparator_ a b < 0 -> comparator_ b c < 0 -> comparator_ a c < 0.

Local Abbreviation Internal := (InternalPage.t (K:=K)).

(** X19: A separator put in by [Insert] is found by [ValueIndex] through its
    child, and [Remove] at that slot gives back the entries the page had. *)
Theorem Internal_Insert_Remove_roundtrip (p : Internal) (key : K) (right_id : Z) :
  internal_sorted comparator_ p -> 1 <= InternalPage.size_ p ->
  right_id ∉ (snd <$> internal_entries p) ->
  let p' := InternalPage.Insert comparator_ p key right_id in
  InternalPage.ValueIndex p' right_id = InternalPage.GetKeyIndex comparator_ p key + 1
  /\ internal_entries (InternalPage.Remove p' (InternalPage.ValueIndex p' right_id))
     = internal_entries p.
Proof.
  intros Hs Hsize Hnew p'.
  destruct (GetKeyIndex_bounds comparator_ cmp_flip cmp_trans p key Hs Hsize)
    as (Hr & _ & _).
  destruct (Insert_array comparator_ cmp_flip cmp_trans p key right_id Hs Hsize)
    as (Hsz & _ & Harr).
  pose proof (Insert_entries comparator_ cmp_flip cmp_trans
                p key right_id Hs Hsize) as Hent.
  fold p' in Hsz, Harr, Hent.
  set (idx := InternalPage.GetKeyIndex comparator_ p key + 1) in *.
  assert (Hidx : 1 <= idx <= InternalPage.size_ p) by (subst idx; lia).
  clearbody idx p'.
  assert (Hvi : InternalPage.ValueIndex p' right_id = idx).
  { apply ValueIndex_first; [lia| |].
    - unfold InternalPage.ValueAt. rewrite Harr, Z.eqb_refl. reflexivity.
    - intros j Hj Hv. apply Hnew. rewrite list_elem_of_fmap.
      exists (InternalPage.array_ p j). split.
      + unfold InternalPage.ValueAt in Hv. rewrite Harr in Hv.
        destruct (Z.eqb_spec j idx); [lia|].
        destruct (Z.ltb_spec idx j); [lia|]. simpl in Hv. congruence.
      + apply elem_of_slots. exists j. split; [lia|reflexivity]. }
  split; [exact Hvi|].
  rewrite Hvi, Remove_entries by lia. rewrite Hent.
  apply delete_inserted. unfold internal_entries. rewrite slots_length. lia.
Qed.

(** After [CreatNewRoot] the search sends the keys below the risen key to
    the left child and all others to the right child. *)
Lemma CreatNewRoot_routes (p : Internal) (key k : K)
    (left_id right_id : Z) :
  let p' := InternalPage.CreatNewRoot p key left_id right_id in
  internal_entries p' = [(key, left_id); (key, right_id)]
  /\ InternalPage.ValueAt p' (InternalPage.GetKeyIndex comparator_ p' k)
     = if 0 <? comparator_ key k then left_id else right_id.
Proof.
  intros p'. subst p'. split; [reflexivity|].
  unfold InternalPage.GetKeyIndex, InternalPage.CreatNewRoot,
    InternalPage.ValueAt, InternalPage.GetSize. simpl.
  unfold LeafPage.store. simpl.
  destruct (0 <? comparator_ key k); reflexivity.
Qed.

End InternalCompose.

Section PageWitnesses.

Import Examples PageExamples.

Lemma leaf_13_sorted : leaf_sorted int_cmp leaf_13.
Proof.
  intros i j Hi Hij Hj. simpl in Hj.
  assert (i = 0) as -> by lia. assert (j = 1) as -> by lia. reflexivity.
Qed.

Lemma internal_3_sorted : internal_sorted int_cmp internal_3.
Proof.
  intros i j Hi Hij Hj. simpl in Hj.
  assert (i = 1) as -> by lia. assert (j = 2) as -> by lia. reflexivity.
Qed.

Lemma Leaf_MoveAll_appends_witness :
  exists p' recipient',
    LeafPageMerge.MoveAll leaf_57 leaf_13 = (p', recipient')
    /\ LeafPage.entries recipient'
       = LeafPage.entries leaf_13 ++ LeafPage.entries leaf_57
    /\ LeafPage.next_page_id_ recipient' = LeafPage.next_page_id_ leaf_57
    /\ LeafPage.max_size_ recipient' = LeafPage.max_size_ leaf_13
    /\ LeafPage.entries p' = [].
Proof. apply (Leaf_MoveAll_appends leaf_57 leaf_13); simpl; lia. Defined.

Lemma Leaf_MoveFrontTo_spec_witness :
  exists p' page' key,
    LeafPageMerge.MoveFrontTo leaf_57 leaf_13 = (p', page', key)
    /\ LeafPage.entries page'
       = LeafPage.entries leaf_13 ++ [LeafPage.array_ leaf_57 0]
    /\ LeafPage.entries p' = drop 1 (LeafPage.entries leaf_57)
    /\ (2 <= LeafPage.size_ leaf_57 ->
        key = LeafPage.KeyAt leaf_57 1 /\ LeafPage.keys p' !! 0%nat = Some key).
Proof. apply (Leaf_MoveFrontTo_spec leaf_57 leaf_13); simpl; lia. Defined.

Lemma Leaf_MoveEndTo_spec_witness :
  exists p' page' key,
    LeafPageMerge.MoveEndTo leaf_13 leaf_57 = (p', page', key)
    /\ LeafPage.entries page'
       = LeafPage.array_ leaf_13 (LeafPage.size_ leaf_13 - 1)
         :: LeafPage.entries leaf_57
    /\ LeafPage.entries p'
       = take (Z.to_nat (LeafPage.size_ leaf_13 - 1)) (LeafPage.entries leaf_13)
    /\ key = LeafPage.KeyAt leaf_13 (LeafPage.size_ leaf_13 - 1).
Proof. apply (Leaf_MoveEndTo_spec leaf_13 leaf_57); simpl; lia. Defined.

Lemma Leaf_ValueAtKey_iff_witness :
  LeafPage.ValueAtKey int_cmp leaf_13 3 = Some 30
  <-> (3, 30) ∈ LeafPage.entries leaf_13.
Proof.
  apply (Leaf_ValueAtKey_iff int_cmp int_cmp_refl int_cmp_eq int_cmp_flip
           int_cmp_trans leaf_13 3 30 leaf_13_sorted).
  simpl. lia.
Defined.

Lemma Leaf_Insert_spec_witness :
  (2 ∈ LeafPage.keys leaf_13 ->
   LeafPage.Insert int_cmp leaf_13 2 20 = (false, leaf_13))
  /\ (2 ∉ LeafPage.keys leaf_13 ->
      exists p1,
        LeafPage.Insert int_cmp leaf_13 2 20 = (true, p1)
        /\ LeafPage.entries p1
           = take (Z.to_nat (leaf_insert_index int_cmp leaf_13 2))
               (LeafPage.entries leaf_13)
             ++ (2, 20)
             :: drop (Z.to_nat (leaf_insert_index int_cmp leaf_13 2))
                  (LeafPage.entries leaf_13)
        /\ leaf_sorted int_cmp p1).
Proof.
  apply (Leaf_Insert_spec int_cmp int_cmp_refl int_cmp_eq int_cmp_flip
           int_cmp_trans leaf_13 2 20 leaf_13_sorted).
  - simpl. lia.
  - vm_compute. discriminate.
Defined.

Lemma Leaf_RemoveRecord_spec_witness :
  (forall j, 0 <= j < LeafPage.size_ leaf_13 -> LeafPage.KeyAt leaf_13 j = 3 ->
     exists p',
       LeafPage.RemoveRecord int_cmp leaf_13 3 = (true, p')
       /\ LeafPage.entries p' = delete (Z.to_nat j) (LeafPage.entries leaf_13))
  /\ (3 ∉ LeafPage.keys leaf_13 ->
      LeafPage.RemoveRecord int_cmp leaf_13 3 = (false, leaf_13)).
Proof.
  apply (Leaf_RemoveRecord_spec int_cmp int_cmp_refl int_cmp_eq int_cmp_flip
           int_cmp_trans leaf_13 3 leaf_13_sorted).
  simpl. lia.
Defined.

Lemma Leaf_KetIndex_spec_witness :
  let r := LeafPage.KetIndex int_cmp leaf_13 9 in
  0 <= r < LeafPage.size_ leaf_13
  /\ (forall i, 0 <= i < r -> int_cmp (LeafPage.KeyAt leaf_13 i) 9 < 0)
  /\ (r < LeafPage.size_ leaf_13 - 1 -> 0 <= int_cmp (LeafPage.KeyAt leaf_13 r) 9)
  /\ ((forall i, 0 <= i < LeafPage.size_ leaf_13 ->
         int_cmp (LeafPage.KeyAt leaf_13 i) 9 < 0) ->
      r = LeafPage.size_ leaf_13 - 1).
Proof.
  apply (Leaf_KetIndex_spec int_cmp int_cmp_eq int_cmp_flip int_cmp_trans
           leaf_13 9 leaf_13_sorted).
  simpl. lia.
Defined.

Lemma Internal_GetKeyIndex_spec_witness :
  let r := InternalPage.GetKeyIndex int_cmp internal_3 15 in
  0 <= r < InternalPage.size_ internal_3
  /\ (forall i, 1 <= i <= r -> int_cmp (InternalPage.KeyAt internal_3 i) 15 <= 0)
  /\ (forall i, r < i < InternalPage.size_ internal_3 ->
                0 < int_cmp (InternalPage.KeyAt internal_3 i) 15)
  /\ (r = 0 <-> forall i, 1 <= i < InternalPage.size_ internal_3 ->
                          0 < int_cmp (InternalPage.KeyAt internal_3 i) 15).
Proof.
  apply (Internal_GetKeyIndex_spec int_cmp int_cmp_flip int_cmp_trans
           internal_3 15 internal_3_sorted).
  simpl. lia.
Defined.

Lemma Internal_Insert_spec_witness :
  let idx := InternalPage.GetKeyIndex int_cmp internal_3 15 + 1 in
  let p' := InternalPage.Insert int_cmp internal_3 15 103 in
  internal_entries p'
  = take (Z.to_nat idx) (internal_entries internal_3)
    ++ (15, 103) :: drop (Z.to_nat idx) (internal_entries internal_3)
  /\ InternalPage.GetKeyIndex int_cmp p' 15 = idx
  /\ InternalPage.ValueAt p' (InternalPage.GetKeyIndex int_cmp p' 15) = 103
  /\ ((forall i, 1 <= i < InternalPage.size_ internal_3 ->
         int_cmp (InternalPage.KeyAt internal_3 i) 15 <> 0) ->
      internal_sorted int_cmp p').
Proof.
  apply (Internal_Insert_spec int_cmp int_cmp_refl int_cmp_flip int_cmp_trans
           internal_3 15 103 internal_3_sorted).
  simpl. lia.
Defined.

Lemma Internal_Split_spec_witness :
  let p := internal_of_list [(0, 100); (10, 101); (20, 102); (30, 103)] 3 in
  let min_size := half_up (InternalPage.max_size_ p) in
  exists p' n' key,
    InternalPage.Split half_up p internal_2 = (p', n', key)
    /\ internal_entries p' = take (Z.to_nat min_size) (internal_entries p)
    /\ internal_entries n' = drop (Z.to_nat min_size) (internal_entries p)
    /\ InternalPage.size_ p' = min_size
    /\ InternalPage.size_ n' = InternalPage.max_size_ p - min_size + 1
    /\ key = InternalPage.KeyAt p min_size
    /\ InternalPage.max_size_ n' = InternalPage.max_size_ internal_2.
Proof.
  apply (Internal_Split_spec half_up
           (internal_of_list [(0, 100); (10, 101); (20, 102); (30, 103)] 3)
           internal_2).
  - reflexivity.
  - vm_compute. split; discriminate.
Defined.

Lemma Internal_MoveAll_spec_witness :
  (exists p' recipient',
     InternalPage.MoveAll internal_2 internal_left 1 internal_parent
     = Ok (p', recipient')
     /\ internal_entries recipient'
        = [(0, 100); (10, 101); (30, 200); (40, 201)]
     /\ internal_entries p' = [])
  /\ InternalPage.MoveAll internal_2 internal_3 1 internal_3
     = Fail AssertionViolation.
Proof.
  split.
  - destruct (proj1 (Internal_MoveAll_spec internal_2 internal_left
                       internal_parent 1 ltac:(simpl; lia) ltac:(simpl; lia))
                ltac:(simpl; lia))
      as (p' & recipient' & H1 & H2 & H3).
    exists p', recipient'. split; [exact H1|]. split; [exact H2 | exact H3].
  - apply (proj2 (Internal_MoveAll_spec internal_2 internal_3 internal_3 1
                    ltac:(simpl; lia) ltac:(simpl; lia))).
    simpl. lia.
Defined.

Lemma Internal_MoveFrontTo_spec_witness :
  exists p' page' key,
    InternalPage.MoveFrontTo internal_3 internal_2 30 = (p', page', key)
    /\ internal_entries page'
       = internal_entries internal_2 ++ [(30, InternalPage.ValueAt internal_3 0)]
    /\ internal_entries p' = drop 1 (internal_entries internal_3)
    /\ key = InternalPage.KeyAt internal_3 1.
Proof.
  apply (Internal_MoveFrontTo_spec internal_3 internal_2 30); simpl; lia.
Defined.

Lemma Internal_MoveEndTo_spec_witness :
  exists p' page' key,
    InternalPage.MoveEndTo internal_3 internal_2 30 = (p', page', key)
    /\ internal_entries page'
       = InternalPage.array_ internal_3 (InternalPage.size_ internal_3 - 1)
         :: (30, InternalPage.ValueAt internal_2 0)
         :: drop 1 (internal_entries internal_2)
    /\ internal_entries p'
       = take (Z.to_nat (InternalPage.size_ internal_3 - 1))
           (internal_entries internal_3)
    /\ key = InternalPage.KeyAt internal_3 (InternalPage.size_ internal_3 - 1).
Proof.
  apply (Internal_MoveEndTo_spec internal_3 internal_2 30); simpl; lia.
Defined.

Lemma Internal_Insert_Remove_roundtrip_witness :
  let p' := InternalPage.Insert int_cmp internal_3 15 103 in
  InternalPage.ValueIndex p' 103 = InternalPage.GetKeyIndex int_cmp internal_3 15 + 1
  /\ internal_entries (InternalPage.Remove p' (InternalPage.ValueIndex p' 103))
     = internal_entries internal_3.
Proof.
  apply (Internal_Insert_Remove_roundtrip int_cmp int_cmp_flip
           int_cmp_trans internal_3 15 103 internal_3_sorted).
  - simpl. lia.
  - vm_compute. intros H. repeat (apply elem_of_cons in H as [H|H]; [discriminate|]).
    apply elem_of_nil in H. exact H.
Defined.

End PageWitnesses.

(** ** Copy-on-write trie *)

Section TrieProperties.

Context {Ty V : Type} `{EqDecision Ty}.

Local Abbreviation Node := (Trie.TrieNode Ty V).
Local Abbreviation Trie_t := (Trie.t (Ty:=Ty) (V:=V)).

Lemma Clone_eq (n : Node) : Trie.Clone n = n.
Proof. destruct n; reflexivity. Qed.

Lemma char_at_app (pre suf : list Z) (ch : Z) :
  Trie.char_at (pre ++ ch :: suf) (Z.of_nat (length pre)) = Ok ch.
Proof.
  unfold Trie.char_at. rewrite Nat2Z.id.
  rewrite lookup_app_r by lia. rewrite Nat.sub_diag. reflexivity.
Qed.

Lemma wrap_pred_length (pre : list Z) (ch : Z) :
  Z.of_nat (length (pre ++ [ch])) <= size_t_max ->
  size_t_wrap (Z.of_nat (length (pre ++ [ch])) - 1) = Z.of_nat (length pre).
Proof.
  intros Hlen. rewrite length_app in *. simpl in *.
  unfold size_t_wrap. rewrite Z.mod_small; lia.
Qed.

Lemma Get_walk_None (key : list Z) : Trie.Get_walk (Ty:=Ty) (V:=V) key None = None.
Proof. destruct key; reflexivity. Qed.

Lemma Put_loops (suf pre : list Z) (cur : option Node) (st : list Node)
    (val : Ty * V) :
  length st = length pre ->
  Z.of_nat (length (pre ++ suf)) < size_t_max ->
  Trie.Put_ascend (pre ++ suf) (Trie.Put_descend suf cur st).2
    (size_t_wrap (Z.of_nat (length (pre ++ suf)) - 1))
    (Trie.mkNode
       (match (Trie.Put_descend suf cur st).1 with
        | Some n => Trie.children_ n
        | None => ∅
        end) (Some val))
  = Trie.Put_ascend (pre ++ suf) st
      (size_t_wrap (Z.of_nat (length pre) - 1))
      (trie_put_path suf cur val).
Proof.
  revert pre cur st.
  induction suf as [|ch suf IH]; intros pre cur st Hst Hlen.
  - simpl. rewrite app_nil_r. reflexivity.
  - assert (Hkey : pre ++ ch :: suf = (pre ++ [ch]) ++ suf)
      by (rewrite <- app_assoc; reflexivity).
    assert (Hpre : Z.of_nat (length (pre ++ [ch])) <= size_t_max).
    { rewrite Hkey in Hlen. rewrite !length_app in *. simpl in *. lia. }
    set (top := match cur with
                | Some n => Trie.Clone n
                | None => Trie.mkNode ∅ None
                end).
    set (sub := cur ≫= fun n => Trie.child n ch).
    assert (Hd : Trie.Put_descend (ch :: suf) cur st
                 = Trie.Put_descend suf sub (top :: st)).
    { subst top sub. destruct cur; reflexivity. }
    rewrite Hd, Hkey.
    rewrite (IH (pre ++ [ch]) sub (top :: st)).
    + simpl Trie.Put_ascend at 1.
      rewrite wrap_pred_length by exact Hpre.
      rewrite <- Hkey, char_at_app. simpl.
      subst top sub. destruct cur; reflexivity.
    + simpl. rewrite length_app. simpl. lia.
    + rewrite <- Hkey. exact Hlen.
Qed.

Lemma Put_path (T : Ty) (key : list Z) (value : V) (tr : Trie_t) :
  Z.of_nat (length key) < size_t_max ->
  Trie.Put T key value tr
  = Ok {| Trie.root_ := Some (trie_put_path key (Trie.root_ tr) (T, value)) |}.
Proof.
  intros Hlen. unfold Trie.Put.
  pose proof (Put_loops key [] (Trie.root_ tr) [] (T, value) eq_refl Hlen) as H0.
  simpl in H0.
  destruct (Trie.Put_descend key (Trie.root_ tr) []) as [cur st] eqn:Hd.
  simpl in H0. rewrite H0. reflexivity.
Qed.

Lemma value_at_put_same (key : list Z) (cur : option Node) (val : Ty * V) :
  trie_value_at key (Some (trie_put_path key cur val)) = Some val.
Proof.
  revert cur. induction key as [|ch key IH]; intros cur; [reflexivity|].
  unfold trie_value_at in *. simpl. unfold Trie.child. simpl.
  rewrite lookup_insert_eq. apply IH.
Qed.

Lemma value_at_put_other (key key' : list Z) (cur : option Node) (val : Ty * V) :
  key' <> key ->
  trie_value_at key' (Some (trie_put_path key cur val)) = trie_value_at key' cur.
Proof.
  revert key' cur. induction key as [|ch key IH]; intros key' cur Hne.
  - destruct key' as [|c k]; [congruence|].
    unfold trie_value_at. simpl. unfold Trie.child. simpl.
    destruct cur as [n|]; simpl; [reflexivity|].
    rewrite lookup_empty, Get_walk_None. reflexivity.
  - destruct key' as [|c k].
    + unfold trie_value_at. simpl.
      destruct cur as [[c0 v0]|]; reflexivity.
    + unfold trie_value_at in *. simpl. unfold Trie.child at 1. simpl.
      destruct (decide (c = ch)) as [->|Hc].
      * rewrite lookup_insert_eq. rewrite IH by congruence.
        destruct cur as [n|]; simpl; [reflexivity|].
        rewrite Get_walk_None. reflexivity.
      * rewrite lookup_insert_ne by congruence.
        rewrite lookup_delete_ne by congruence.
        destruct cur as [[c0 v0]|]; simpl; [reflexivity|].
        rewrite lookup_empty, Get_walk_None. reflexivity.
Qed.

Lemma Get_value_at (T : Ty) (key : list Z) (tr : Trie_t) :
  Trie.Get T key tr
  = match trie_value_at key (Trie.root_ tr) with
    | Some (T', v) => if decide (T' = T) then Some v else None
    | None => None
    end.
Proof.
  unfold Trie.Get, trie_value_at.
  destruct (Trie.Get_walk key (Trie.root_ tr)) as [n|]; reflexivity.
Qed.

Lemma Remove_descend_walk (key : list Z) (cur : option Node) (st : list Node) :
  (Trie.Remove_descend key cur st).1 = Trie.Get_walk key cur.
Proof.
  revert cur st. induction key as [|ch key IH]; intros cur st.
  - destruct cur; reflexivity.
  - destruct cur as [n|]; [|reflexivity]. simpl. apply IH.
Qed.

Lemma Remove_loops (suf pre : list Z) (n0 n : Node) (st : list Node) :
  Trie.Get_walk suf (Some n0) = Some n ->
  length st = length pre ->
  Z.of_nat (length (pre ++ suf)) < size_t_max ->
  Trie.Remove_ascend (pre ++ suf) (Trie.Remove_descend suf (Some n0) st).2
    (size_t_wrap (Z.of_nat (length (pre ++ suf)) - 1))
    (Trie.mkNode (Trie.children_ n) None)
  = Trie.Remove_ascend (pre ++ suf) st
      (size_t_wrap (Z.of_nat (length pre) - 1))
      (trie_remove_path suf n0).
Proof.
  revert pre n0 st.
  induction suf as [|ch suf IH]; intros pre n0 st Hwalk Hst Hlen.
  - simpl in *. injection Hwalk as ->. rewrite app_nil_r. reflexivity.
  - assert (Hkey : pre ++ ch :: suf = (pre ++ [ch]) ++ suf)
      by (rewrite <- app_assoc; reflexivity).
    assert (Hpre : Z.of_nat (length (pre ++ [ch])) <= size_t_max).
    { rewrite Hkey in Hlen. rewrite !length_app in *. simpl in *. lia. }
    simpl in Hwalk.
    destruct (Trie.child n0 ch) as [c|] eqn:Hc;
      [|rewrite Get_walk_None in Hwalk; discriminate].
    simpl Trie.Remove_descend. rewrite Hc, Hkey.
    rewrite (IH (pre ++ [ch]) c (Trie.Clone n0 :: st) Hwalk).
    + simpl Trie.Remove_ascend at 1.
      rewrite wrap_pred_length by exact Hpre.
      rewrite <- Hkey, char_at_app. simpl. rewrite Hc.
      unfold trie_node_empty. destruct n0; reflexivity.
    + simpl. rewrite length_app. simpl. lia.
    + rewrite <- Hkey. exact Hlen.
Qed.

Lemma Remove_path (key : list Z) (tr : Trie_t) :
  Z.of_nat (length key) < size_t_max ->
  Trie.Remove key tr
  = match Trie.root_ tr with
    | Some n0 =>
        match trie_value_at key (Some n0) with
        | Some _ => Ok {| Trie.root_ := Some (trie_remove_path key n0) |}
        | None => Ok tr
        end
    | None => Ok tr
    end.
Proof.
  intros Hlen. unfold Trie.Remove, trie_value_at.
  pose proof (Remove_descend_walk key (Trie.root_ tr) []) as Hw.
  destruct (Trie.Remove_descend key (Trie.root_ tr) []) as [cur st] eqn:Hd.
  simpl in Hw. subst cur.
  destruct (Trie.root_ tr) as [n0|] eqn:Hroot.
  - destruct (Trie.Get_walk key (Some n0)) as [n|] eqn:Hwalk; [|reflexivity].
    simpl. unfold Trie.is_value_node_.
    destruct (Trie.value_ n) as [val|]; [|reflexivity]. simpl.
    pose proof (Remove_loops key [] n0 n [] Hwalk eq_refl Hlen) as H0.
    simpl in H0. rewrite Hd in H0. simpl in H0. rewrite H0. reflexivity.
  - rewrite Get_walk_None. reflexivity.
Qed.

Lemma value_at_empty_node (key : list Z) (n : Node) :
  trie_node_empty n = true -> trie_value_at key (Some n) = None.
Proof.
  unfold trie_node_empty, trie_value_at, Trie.is_value_node_.
  intros [He Hv]%andb_true_iff. apply bool_decide_eq_true in He.
  destruct key as [|c k]; simpl.
  - destruct (Trie.value_ n); [discriminate|reflexivity].
  - unfold Trie.child. rewrite He, lookup_empty, Get_walk_None. reflexivity.
Qed.

Lemma value_at_remove_same (key : list Z) (n0 n : Node) :
  Trie.Get_walk key (Some n0) = Some n ->
  trie_value_at key (Some (trie_remove_path key n0)) = None.
Proof.
  revert n0. induction key as [|ch key IH]; intros n0 Hwalk; [reflexivity|].
  simpl in Hwalk. simpl.
  destruct (Trie.child n0 ch) as [c|] eqn:Hc;
    [|rewrite Get_walk_None in Hwalk; discriminate].
  destruct (trie_node_empty (trie_remove_path key c)) eqn:He.
  - unfold trie_value_at. simpl. unfold Trie.child. simpl.
    rewrite lookup_delete_eq, Get_walk_None. reflexivity.
  - unfold trie_value_at in *. simpl. unfold Trie.child at 1. simpl.
    rewrite lookup_insert_eq. apply IH. exact Hwalk.
Qed.

Lemma value_at_remove_other (key key' : list Z) (n0 n : Node) :
  key' <> key ->
  Trie.Get_walk key (Some n0) = Some n ->
  trie_value_at key' (Some (trie_remove_path key n0))
  = trie_value_at key' (Some n0).
Proof.
  revert key' n0. induction key as [|ch key IH]; intros key' n0 Hne Hwalk.
  - destruct key' as [|c k]; [congruence|]. reflexivity.
  - simpl in Hwalk. simpl.
    destruct (Trie.child n0 ch) as [c0|] eqn:Hc;
      [|rewrite Get_walk_None in Hwalk; discriminate].
    destruct key' as [|c k].
    + destruct (trie_node_empty (trie_remove_path key c0)); reflexivity.
    + destruct (decide (c = ch)) as [->|Hcc].
      * assert (Hk : k <> key) by congruence.
        pose proof (IH k c0 Hk Hwalk) as IHk.
        destruct (trie_node_empty (trie_remove_path key c0)) eqn:He.
        -- rewrite (value_at_empty_node k _ He) in IHk.
           unfold trie_value_at in *. simpl. unfold Trie.child at 1. simpl.
           rewrite lookup_delete_eq, Get_walk_None, Hc. simpl.
           exact IHk.
        -- unfold trie_value_at in *. simpl. unfold Trie.child at 1. simpl.
           rewrite lookup_insert_eq, Hc. exact IHk.
      * destruct (trie_node_empty (trie_remove_path key c0));
          unfold trie_value_at; simpl; unfold Trie.child; simpl.
        -- rewrite lookup_delete_ne by congruence. reflexivity.
        -- rewrite lookup_insert_ne by congruence.
           rewrite lookup_delete_ne by congruence. reflexivity.
Qed.

Lemma remove_put_path_empty (key : list Z) (val : Ty * V) :
  trie_remove_path key (trie_put_path key None val)
  = Trie.mkNode (Ty:=Ty) (V:=V) ∅ None.
Proof.
  induction key as [|ch key IH]; [reflexivity|].
  simpl. unfold Trie.child. simpl. rewrite lookup_insert_eq, IH.
  unfold trie_node_empty. simpl.
  rewrite bool_decide_eq_true_2 by reflexivity. simpl.
  rewrite delete_insert_eq, delete_empty, delete_empty. reflexivity.
Qed.

(** X1: [Put] followed by [Get] of the same key: [Put] returns a trie in which
    the key holds the new value for the type it was stored with; a [Get] for
    another type finds nothing (the [dynamic_cast] fails). *)
Theorem Trie_Put_Get_same (T : Ty) (key : list Z) (value : V) (tr : Trie_t) :
  Z.of_nat (length key) < size_t_max ->
  exists tr',
    Trie.Put T key value tr = Ok tr'
    /\ Trie.Get T key tr' = Some value
    /\ (forall T', T' <> T -> Trie.Get T' key tr' = None).
Proof.
  intros Hlen. eexists. split; [apply Put_path; exact Hlen|].
  rewrite !Get_value_at. simpl. split.
  - rewrite value_at_put_same. rewrite decide_True by reflexivity. reflexivity.
  - intros T' HT. rewrite Get_value_at. simpl. rewrite value_at_put_same.
    rewrite decide_False by congruence. reflexivity.
Qed.

(** X2: [Put] leaves every other key as it was. *)
Theorem Trie_Put_Get_other (T T' : Ty) (key key' : list Z) (value : V)
    (tr : Trie_t) :
  Z.of_nat (length key) < size_t_max ->
  key' <> key ->
  exists tr',
    Trie.Put T key value tr = Ok tr'
    /\ Trie.Get T' key' tr' = Trie.Get T' key' tr.
Proof.
  intros Hlen Hne. eexists. split; [apply Put_path; exact Hlen|].
  rewrite !Get_value_at. simpl. rewrite value_at_put_other by exact Hne.
  reflexivity.
Qed.

(** X3: [Remove] returns a trie in which the key holds no value and every other
    key holds what it held. *)
Theorem Trie_Remove_Get (key : list Z) (tr : Trie_t) :
  Z.of_nat (length key) < size_t_max ->
  exists tr',
    Trie.Remove key tr = Ok tr'
    /\ (forall T, Trie.Get T key tr' = None)
    /\ (forall T key', key' <> key -> Trie.Get T key' tr' = Trie.Get T key' tr).
Proof.
  intros Hlen. rewrite Remove_path by exact Hlen.
  destruct (Trie.root_ tr) as [n0|] eqn:Hroot.
  - destruct (trie_value_at key (Some n0)) as [val|] eqn:Hval.
    + eexists. split; [reflexivity|].
      unfold trie_value_at in Hval.
      destruct (Trie.Get_walk key (Some n0)) as [n|] eqn:Hwalk; [|discriminate].
      split.
      * intros T. rewrite Get_value_at. simpl.
        rewrite (value_at_remove_same key n0 n Hwalk). reflexivity.
      * intros T key' Hne. rewrite !Get_value_at. simpl.
        rewrite (value_at_remove_other key key' n0 n Hne Hwalk), Hroot.
        reflexivity.
    + exists tr. split; [reflexivity|]. split; [|reflexivity].
      intros T. rewrite Get_value_at, Hroot, Hval. reflexivity.
  - exists tr. split; [reflexivity|]. split; [|reflexivity].
    intros T. rewrite Get_value_at, Hroot. unfold trie_value_at.
    rewrite Get_walk_None. reflexivity.
Qed.

(** X4: [Remove] of a key that holds no value returns the trie it was given. *)
Theorem Trie_Remove_absent (key : list Z) (tr : Trie_t) :
  Z.of_nat (length key) < size_t_max ->
  (forall T, Trie.Get T key tr = None) ->
  Trie.Remove key tr = Ok tr.
Proof.
  intros Hlen Hnone. rewrite Remove_path by exact Hlen.
  destruct (Trie.root_ tr) as [n0|] eqn:Hroot; [|reflexivity].
  destruct (trie_value_at key (Some n0)) as [[T v]|] eqn:Hval; [|reflexivity].
  specialize (Hnone T). rewrite Get_value_at, Hroot, Hval in Hnone.
  rewrite decide_True in Hnone by reflexivity. discriminate.
Qed.

(** Removing the only key of a trie prunes the whole path but keeps a root:
    the result is not the empty trie (null root) but a root node without
    children and without value. *)
Lemma Put_Remove_empty (T : Ty) (key : list Z) (value : V) :
  Z.of_nat (length key) < size_t_max ->
  exists tr',
    Trie.Put T key value empty_trie = Ok tr'
    /\ Trie.Remove key tr'
       = Ok {| Trie.root_ := Some (Trie.mkNode ∅ None) |}.
Proof.
  intros Hlen. eexists. split; [apply Put_path; exact Hlen|].
  rewrite Remove_path by exact Hlen. simpl.
  rewrite value_at_put_same, remove_put_path_empty. reflexivity.
Qed.

End TrieProperties.

Section TrieExamples.

Lemma Trie_Put_Get_same_witness :
  exists tr',
    Trie.Put (Ty:=Z) (V:=Z) 32 [97; 98] 7 empty_trie = Ok tr'
    /\ Trie.Get 32 [97; 98] tr' = Some 7
    /\ (forall T', T' <> 32 -> Trie.Get T' [97; 98] tr' = None).
Proof.
  apply (Trie_Put_Get_same (Ty:=Z) (V:=Z) 32 [97; 98] 7 empty_trie).
  vm_compute. reflexivity.
Defined.

Lemma Trie_Put_Get_other_witness :
  exists tr',
    Trie.Put (Ty:=Z) (V:=Z) 32 [97; 98] 7 empty_trie = Ok tr'
    /\ Trie.Get 32 [97] tr' = Trie.Get 32 [97] empty_trie.
Proof.
  apply (Trie_Put_Get_other (Ty:=Z) (V:=Z) 32 32 [97; 98] [97] 7 empty_trie).
  - vm_compute. reflexivity.
  - discriminate.
Defined.

Lemma Trie_Remove_Get_witness :
  exists tr',
    Trie.Remove (Ty:=Z) (V:=Z) [97]
      {| Trie.root_ := Some (trie_put_path [97] None (32, 7)) |} = Ok tr'
    /\ (forall T, Trie.Get T [97] tr' = None)
    /\ (forall T key', key' <> [97] ->
          Trie.Get T key' tr'
          = Trie.Get T key'
              {| Trie.root_ := Some (trie_put_path [97] None (32, 7)) |}).
Proof.
  apply (Trie_Remove_Get (Ty:=Z) (V:=Z) [97]).
  vm_compute. reflexivity.
Defined.

Lemma Trie_Remove_absent_witness :
  Trie.Remove (Ty:=Z) (V:=Z) [98]
    {| Trie.root_ := Some (trie_put_path [97] None (32, 7)) |}
  = Ok {| Trie.root_ := Some (trie_put_path [97] None (32, 7)) |}.
Proof.
  apply (Trie_Remove_absent (Ty:=Z) (V:=Z) [98]).
  - vm_compute. reflexivity.
  - intros T. reflexivity.
Defined.

End TrieExamples.
